(** * Maritime traffic network: graph construction, pruning, refinement
      and trajectory-to-path matching

    A shallow embedding of [src/models/maritime_traffic_network.py]
    (class [MaritimeTrafficNetwork]).  The networkx graph is an ordered
    adjacency table, pandas tables are lists of rows, a raised exception is
    the result [None], floating-point quantities are rationals, and the
    geometric primitives of shapely, movingpandas and [geometry_utils] are
    the methods of the interface [Geometry]. *)

From Stdlib Require Import Reals Lra.
From Stdlib Require Import List ZArith QArith Qabs Qround Qminmax Bool Lia Lqa
  PeanoNat String.
Import ListNotations.
Close Scope Q_scope.
Close Scope R_scope.
Open Scope nat_scope.

Set Implicit Arguments.

(** ** Small helpers on options and lists *)

Definition is_some {A} (o : option A) : bool :=
  match o with Some _ => true | None => false end.

Fixpoint first_some {A B} (f : A -> option B) (l : list A) : option B :=
  match l with
  | [] => None
  | x :: tl => match f x with Some y => Some y | None => first_some f tl end
  end.

(** ** The networkx [DiGraph] *)

(** Waypoint ids ([clusterID]) are the nodes. *)
Abbreviation node := nat (only parsing).
Definition LineString := list (Q * Q).

(** Node attributes that the graph operations read.  An attribute that was
    never set on the node is [None]: reading it raises [KeyError]. *)
Record node_attrs := mk_node_attrs {
  cog_before : option Q;
  cog_after  : option Q
}.

(** Summary statistics that [refine_graph_from_paths] attaches to an edge. *)
Inductive float := NaN | Fin (q : Q).

Record edge_stats := mk_edge_stats {
  speed_mean : float;
  speed_std : float;
  speed_95_perc_confidence : float * float;
  speed_distribution : list Q;
  cross_track_dist_mean : float;
  cross_track_dist_std : float;
  cross_track_dist_skew : float;
  cross_track_dist_kurtosis : float;
  cross_track_dist_95_perc_confidence : float * float;
  cross_track_dist_distribution : list Q
}.

Record edge_attrs := mk_edge_attrs {
  weight : Z;
  inverse_weight : Q;
  direction : Q;
  edge_length : Q;
  geometry : LineString;
  stats : option edge_stats
}.

Abbreviation edge := (nat * nat)%type (only parsing).

(** [nodes] is the node dictionary and [adj] the adjacency in the order in
    which [G.edges()] iterates; [G[u][v]] is the first entry with key
    [(u, v)]. *)
Record DiGraph := mk_DiGraph {
  nodes : list (node * node_attrs);
  adj   : list (edge * edge_attrs)
}.

Definition edge_eqb (e1 e2 : edge) : bool :=
  (fst e1 =? fst e2) && (snd e1 =? snd e2).

Definition edges (G : DiGraph) : list edge := map fst (adj G).

Fixpoint assoc {B} (e : edge) (l : list (edge * B)) : option B :=
  match l with
  | [] => None
  | (k, d) :: tl => if edge_eqb k e then Some d else assoc e tl
  end.

(** [G[u][v]] *)
Definition get_edge (G : DiGraph) (u v : node) : option edge_attrs :=
  assoc (u, v) (adj G).

Definition has_edge (G : DiGraph) (u v : node) : bool := is_some (get_edge G u v).

Fixpoint node_lookup (u : node) (l : list (node * node_attrs)) : option node_attrs :=
  match l with
  | [] => None
  | (k, d) :: tl => if k =? u then Some d else node_lookup u tl
  end.

(** [G.nodes[u][attr]] *)
Definition node_attr (G : DiGraph) (u : node) (attr : node_attrs -> option Q) : option Q :=
  match node_lookup u (nodes G) with
  | Some d => attr d
  | None => None
  end.

(** [G.remove_edge(u, v)] *)
Definition remove_edge (G : DiGraph) (u v : node) : DiGraph :=
  mk_DiGraph (nodes G) (filter (fun kd => negb (edge_eqb (fst kd) (u, v))) (adj G)).

Definition remove_edges_from (G : DiGraph) (es : list edge) : DiGraph :=
  fold_left (fun g e => remove_edge g (fst e) (snd e)) es G.

Definition successors (G : DiGraph) (u : node) : list node :=
  map (fun kd => snd (fst kd)) (filter (fun kd => fst (fst kd) =? u) (adj G)).

(** *** [nx.shortest_path] and [nx.has_path] (unweighted)

    The library returns a path from [u] to [v] with the fewest edges and
    raises [NetworkXNoPath] when there is none.  [path_within k] searches the
    walks of at most [k] edges; [shortest_path] takes the first depth at which
    the search succeeds, so the path it returns has the fewest edges; [None]
    is the raised exception.  The end points are nodes of the graph at every
    call site.  Where several paths have the fewest edges, the library's
    search from both ends may return another of them than this search does:
    the properties below use of the returned path only that it is a walk from
    [u] to [v] with the fewest edges. *)
Fixpoint path_within (G : DiGraph) (k : nat) (u v : node) : option (list node) :=
  if u =? v then Some [u]
  else match k with
       | 0 => None
       | S k' =>
           option_map (cons u)
             (first_some (fun w => path_within G k' w v) (successors G u))
       end.

Fixpoint search_from (G : DiGraph) (u v : node) (fuel depth : nat) : option (list node) :=
  match path_within G depth u v with
  | Some p => Some p
  | None =>
      match fuel with
      | 0 => None
      | S fuel' => search_from G u v fuel' (S depth)
      end
  end.

Definition shortest_path (G : DiGraph) (u v : node) : option (list node) :=
  search_from G u v (List.length (adj G)) 0.

Definition has_path (G : DiGraph) (u v : node) : bool :=
  is_some (shortest_path G u v).

(** A walk of the graph: a non-empty node sequence whose consecutive pairs
    are edges. *)
Inductive walk (G : DiGraph) : node -> node -> list node -> Prop :=
| walk_nil u : walk G u u [u]
| walk_cons u w v p :
    In (u, w) (edges G) -> walk G w v p -> walk G u v (u :: p).

Definition hops (p : list node) : nat := pred (List.length p).

(** ** Loops whose body may raise *)

Fixpoint for_each {A S} (body : A -> S -> option S) (l : list A) (s : S) : option S :=
  match l with
  | [] => Some s
  | x :: tl =>
      match body x s with
      | Some s' => for_each body tl s'
      | None => None
      end
  end.

(** ** Rational arithmetic used for courses, speeds and weights *)

Definition Qltb (x y : Q) : bool := negb (Qle_bool y x).

(** Python's [x % m] on floats, for [m > 0]: [x - m * floor (x / m)]. *)
Definition Qmod (x m : Q) : Q := (x - m * inject_Z (Qfloor (x / m)))%Q.

(** [np.abs(wp_direction - edge_direction + 180) % 360 - 180], computed
    exactly on rationals.  The code rounds every operation to a binary64
    number, which is the same value on courses and directions in whole
    degrees. *)
Definition angle_between (wp_direction edge_direction : Q) : Q :=
  (Qmod (Qabs (wp_direction - edge_direction + 180)) 360 - 180)%Q.

(** The circular distance between two compass courses, in degrees: the
    shorter of the two arcs between them. *)
Definition circular_distance (a b : Q) : Q :=
  Qmin (Qmod (a - b) 360) (360 - Qmod (a - b) 360)%Q.

(** Python's [x / y] on floats; [None] is [ZeroDivisionError]. *)
Definition divide (x y : Q) : option Q :=
  if Qeq_bool y 0 then None else Some (x / y)%Q.

(** ** The tables and the state of a [MaritimeTrafficNetwork] object *)

Record waypoint := mk_waypoint {
  clusterID : node;
  wp_speed : Q;
  wp_cog_before : Q;
  wp_cog_after : Q
}.

(** A row of [waypoint_connections]; the refined table has the statistics
    columns filled in. *)
Record connection := mk_connection {
  from : node;
  to : node;
  conn_geometry : LineString;
  conn_direction : Q;
  conn_length : Q;
  passages : Z;
  conn_stats : option edge_stats
}.

(** The snapshot fields are [None] until the method that assigns them has
    run; using one before that raises. *)
Record MaritimeTrafficNetwork := mk_MTN {
  waypoints : list waypoint;
  waypoint_connections : option (list connection);
  waypoint_connections_pruned : option (list connection);
  waypoint_connections_refined : option (list connection);
  G : option DiGraph;
  G_pruned : option DiGraph;
  G_refined : option DiGraph
}.

(** [G.remove_edge(u, v)], which raises [NetworkXError] when the edge is
    not in the graph. *)
Definition remove_edge_exn (g : DiGraph) (e : edge) : option DiGraph :=
  if has_edge g (fst e) (snd e) then Some (remove_edge g (fst e) (snd e)) else None.

Definition mem_edge (e : edge) (l : list edge) : bool := existsb (edge_eqb e) l.

(** [connections[~((connections['from'] == u) & (connections['to'] == v))]] *)
Definition drop_connection (e : edge) (t : list connection) : list connection :=
  filter (fun r => negb ((from r =? fst e) && (to r =? snd e))) t.

(** ** [prune_graph] *)

(** Body of the first loop: the traffic-direction test of one edge.  The
    [try] covers the two node attribute reads; its [except] marks the edge. *)
Definition direction_step (g : DiGraph) (e : edge) (edges_to_remove : list edge)
  : option (list edge) :=
  match get_edge g (fst e) (snd e) with
  | None => None
  | Some d =>
      let edge_direction := direction d in
      match node_attr g (fst e) cog_after, node_attr g (snd e) cog_before with
      | Some WP1_direction, Some WP2_direction =>
          let angle1 := angle_between WP1_direction edge_direction in
          let angle2 := angle_between WP2_direction edge_direction in
          if Qltb 90 (Qabs angle1) && Qltb 90 (Qabs angle2)
          then Some (edges_to_remove ++ [e])
          else Some edges_to_remove
      | _, _ => Some (edges_to_remove ++ [e])
      end
  end.

(** Body of the second loop.  The state is the working copy [G_temp] and the
    list of marked edges. *)
Definition redundancy_step (g : DiGraph) (min_passages : Z) (e : edge)
  (st : DiGraph * list edge) : option (DiGraph * list edge) :=
  let '(G_temp, edges_to_remove) := st in
  match get_edge g (fst e) (snd e) with
  | None => None
  | Some d =>
      if (weight d <? min_passages)%Z then
        match remove_edge_exn G_temp e with
        | None => None
        | Some G_temp' =>
            if has_path G_temp' (fst e) (snd e) then
              match shortest_path G_temp' (fst e) (snd e) with
              | None => None
              | Some p =>
                  if List.length p <=? 5 then
                    if negb (mem_edge e edges_to_remove)
                    then Some (G_temp', edges_to_remove ++ [e])
                    else Some (G_temp', edges_to_remove)
                  else Some (G_temp', edges_to_remove)
              end
            else Some (G_temp', edges_to_remove)
        end
      else Some (G_temp, edges_to_remove)
  end.

(** Body of the third loop: the removal of one marked edge from the graph
    and from the table. *)
Definition removal_step (e : edge) (st : DiGraph * list connection)
  : option (DiGraph * list connection) :=
  match remove_edge_exn (fst st) e with
  | None => None
  | Some g' => Some (g', drop_connection e (snd st))
  end.

(** The list [edges_to_remove] after the two marking loops. *)
Definition marked_edges (g : DiGraph) (min_passages : Z) : option (list edge) :=
  match for_each (direction_step g) (edges g) [] with
  | None => None
  | Some marked1 =>
      option_map snd (for_each (redundancy_step g min_passages) (edges g) (g, marked1))
  end.

(** The three loops of [prune_graph] on the selected snapshot. *)
Definition prune (g : DiGraph) (connections : list connection) (min_passages : Z)
  : option (DiGraph * list connection) :=
  match marked_edges g min_passages with
  | None => None
  | Some edges_to_remove => for_each removal_step edges_to_remove (g, connections)
  end.

(** [prune_graph(self, min_passages, graph)].  [None] is a raised
    exception; for an unknown [graph] the method prints a message and returns
    without assigning anything. *)
Definition prune_graph (self : MaritimeTrafficNetwork) (min_passages : Z)
  (graph : string) : option MaritimeTrafficNetwork :=
  let selected :=
    if String.eqb graph "original" then
      Some (G self, waypoint_connections self)
    else if String.eqb graph "refined" then
      Some (G_refined self, waypoint_connections_refined self)
    else None in
  match selected with
  | None => Some self
  | Some (Some g, Some connections) =>
      match prune g connections min_passages with
      | None => None
      | Some (g_pruned, connections_pruned) =>
          Some (mk_MTN (waypoints self)
                  (waypoint_connections self)
                  (Some connections_pruned)
                  (waypoint_connections_refined self)
                  (G self)
                  (Some g_pruned)
                  (G_refined self))
      end
  | Some _ => None
  end.

(** ** The geometric collaborators

    shapely, movingpandas, numpy's statistics and the helpers of
    [geometry_utils] compute on floating-point coordinates; the graph
    operations only consume their results.  They are the methods of this
    interface.  A method with an [option] result may raise ([None]). *)
Class Geometry := {
  Trajectory : Type;
  (** [points.mmsi.unique()[0]] *)
  mmsi_of : Trajectory -> nat;
  (** the list [passages] of [make_graph_from_waypoints] after the loop over
      the trajectory's segments, before duplicates are dropped *)
  passed_waypoints : Trajectory -> list waypoint -> Q -> Q -> list node;
  (** straight line between two waypoints: geometry, bearing, length *)
  straight_edge : list waypoint -> node -> node -> LineString * Q * Q;
  (** [clip_trajectory_between_WPs]: the length of the clipped segment and
      the time stamps (in ns) of its first and last point *)
  clip_trajectory_between_WPs :
    Trajectory -> list waypoint -> node -> node -> option (Q * Z * Z);
  (** signed distances to the edge of the points interpolated on the clipped
      segment *)
  signed_distances :
    Trajectory -> list waypoint -> list connection -> node -> node -> option (list Q);
  np_std : list Q -> float;
  skew : list Q -> float;
  kurtosis : list Q -> float;
  find_orig_WP : Trajectory -> list waypoint -> option (node * Z * Q);
  find_dest_WP : Trajectory -> list waypoint -> option (node * Z * Q);
  find_WP_intersections :
    Trajectory -> list waypoint -> DiGraph -> Q -> list node * DiGraph;
  (** [np.argmin(WP.distance(points.geometry))] *)
  closest_index : Trajectory -> list waypoint -> node -> Z;
  (** enumeration and scoring of the candidate edge sequences between two
      passages: [None] when it raises, [Some None] when no candidate scores
      below infinity, [Some (Some s)] for the best sequence *)
  best_edge_sequence :
    Trajectory -> DiGraph -> list connection -> node -> node -> Z -> Z ->
    Z -> Z -> option (option (list node));
  (** [f123], [len123], [f13], [len13] of the hop-skipping pass *)
  hop_scores :
    Trajectory -> list waypoint -> list connection -> node -> node -> node ->
    option (Q * Q * Q * Q);
  (** [get_linestring_between(t1, t2).length / trajectory.get_length()] *)
  covered_fraction : Trajectory -> Z -> Z -> option Q;
  (** [geometry_utils.sspd] of the evaluated trajectory part against the
      merged edge sequence: the SSPD and the distance samples; the flag says
      that the whole trajectory is evaluated *)
  sspd_fit : Trajectory -> list LineString -> Z -> Z -> bool -> Q * list Q
}.

(** ** [make_graph_from_waypoints] *)

(** [list(OrderedDict.fromkeys(passages))]: the first occurrence of every
    waypoint, in order. *)
Fixpoint OrderedDict_fromkeys (l : list node) : list node :=
  match l with
  | [] => []
  | x :: tl => x :: filter (fun y => negb (y =? x)) (OrderedDict_fromkeys tl)
  end.

(** [coord_dict[(row, col)] += 1] or [coord_dict[(row, col)] = 1]; the
    dictionary keeps its keys in insertion order. *)
Fixpoint count_passage (e : edge) (coord_dict : list (edge * Z)) : list (edge * Z) :=
  match coord_dict with
  | [] => [(e, 1%Z)]
  | (k, c) :: tl =>
      if edge_eqb k e then (k, (c + 1)%Z) :: tl else (k, c) :: count_passage e tl
  end.

(** The pairs [(passages[i], passages[i+1])] for [i] in
    [range(0, len(passages)-1)]. *)
Definition consecutive (l : list node) : list edge := combine l (tl l).

Definition add_passages (passages : list node) (coord_dict : list (edge * Z))
  : list (edge * Z) :=
  if 1 <? List.length passages then
    fold_left (fun cd rc =>
                 if negb (fst rc =? snd rc) then count_passage rc cd else cd)
              (consecutive passages) coord_dict
  else coord_dict.

Section Builder.
Context {geo : Geometry}.

(** The dictionary [coord_dict] after the loop over all trajectories. *)
Definition count_connections (wps : list waypoint) (trajectories : list Trajectory)
  (max_distance max_angle : Q) : list (edge * Z) :=
  fold_left (fun cd trajectory =>
               add_passages
                 (OrderedDict_fromkeys
                    (passed_waypoints trajectory wps max_distance max_angle)) cd)
            trajectories [].

(** Node features: the attributes of the last waypoint row with this id. *)
Definition node_features (wps : list waypoint) (k : node) : node_attrs :=
  match find (fun w => clusterID w =? k) (rev wps) with
  | Some w => mk_node_attrs (Some (wp_cog_before w)) (Some (wp_cog_after w))
  | None => mk_node_attrs None None
  end.

Definition connection_row (wps : list waypoint) (kc : edge * Z) : connection :=
  let '(geom, dir, len) := straight_edge wps (fst (fst kc)) (snd (fst kc)) in
  mk_connection (fst (fst kc)) (snd (fst kc)) geom dir len (snd kc) None.

Definition edge_entry (wps : list waypoint) (kc : edge * Z) : edge * edge_attrs :=
  let '(geom, dir, len) := straight_edge wps (fst (fst kc)) (snd (fst kc)) in
  (fst kc, mk_edge_attrs (snd kc) (1 / inject_Z (snd kc))%Q dir len geom None).

(** [make_graph_from_waypoints].  It raises when no connection was
    counted (the unpacking of the zipped keys of [coord_dict]), when an index is
    outside the [n_clusters] x [n_clusters] matrix, and when a waypoint id
    is not a node of the graph built from that matrix.  [G.edges()] lists
    the edges by source node, in the order of the nodes [0 .. n-1]. *)
Definition make_graph_from_waypoints (self : MaritimeTrafficNetwork)
  (significant_points_trajectory : list Trajectory) (max_distance max_angle : Q)
  : option MaritimeTrafficNetwork :=
  let wps := waypoints self in
  let n_clusters := List.length wps in
  let coord_dict :=
    count_connections wps significant_points_trajectory max_distance max_angle in
  match coord_dict with
  | [] => None
  | _ :: _ =>
      if forallb (fun kc => (fst (fst kc) <? n_clusters) && (snd (fst kc) <? n_clusters))
           coord_dict
         && forallb (fun w => clusterID w <? n_clusters) wps
      then
        let g :=
          mk_DiGraph
            (map (fun k => (k, node_features wps k)) (seq 0 n_clusters))
            (flat_map (fun u =>
                         map (edge_entry wps)
                           (filter (fun kc => fst (fst kc) =? u) coord_dict))
                      (seq 0 n_clusters)) in
        Some (mk_MTN wps
                (Some (map (connection_row wps) coord_dict))
                (waypoint_connections_pruned self)
                (waypoint_connections_refined self)
                (Some g)
                (G_pruned self)
                (G_refined self))
      else None
  end.
End Builder.

(** ** [refine_graph_from_paths] *)

(** [(t2 - t1).total_seconds()] for time stamps in nanoseconds.  A pandas
    [Timedelta] answers [days * 86400 + seconds + microseconds / 10**6], so
    the nanoseconds below a full microsecond are dropped. *)
Definition total_seconds (dt : Z) : Q := (inject_Z (dt / 1000) / 1000000)%Q.

(** The speed of one passage of an edge: [length / time_diff] when
    [t2 > t1], else [0].  [None] is a division fault. *)
Definition transit_speed (length : Q) (t1 t2 : Z) : option Q :=
  if (t1 <? t2)%Z then
    let time_diff := total_seconds (t2 - t1) in
    divide length time_diff
  else Some 0%Q.

(** [G[u][v][attr] = value] as an update of the attribute record. *)
Definition set_edge (g : DiGraph) (e : edge) (f : edge_attrs -> edge_attrs) : DiGraph :=
  mk_DiGraph (nodes g)
    (map (fun kd => if edge_eqb (fst kd) e then (fst kd, f (snd kd)) else kd) (adj g)).

Definition with_weight (w : Z) (d : edge_attrs) : edge_attrs :=
  mk_edge_attrs w (inverse_weight d) (direction d) (edge_length d) (geometry d) (stats d).

Definition with_stats (s : edge_stats) (d : edge_attrs) : edge_attrs :=
  mk_edge_attrs (weight d) (inverse_weight d) (direction d) (edge_length d)
    (geometry d) (Some s).

(** [data['weight'] = 0; data['inverse_weight'] = 0] on every edge *)
Definition reset_weights (g : DiGraph) : DiGraph :=
  mk_DiGraph (nodes g)
    (map (fun kd =>
            (fst kd,
             mk_edge_attrs 0%Z 0%Q (direction (snd kd)) (edge_length (snd kd))
               (geometry (snd kd)) (stats (snd kd))))
         (adj g)).

(** [connections_refined['passages'] = 0] *)
Definition reset_passages (t : list connection) : list connection :=
  map (fun r => mk_connection (from r) (to r) (conn_geometry r) (conn_direction r)
                  (conn_length r) 0%Z (conn_stats r)) t.

(** The sparse accumulators [speeds[u, v, i]] and [cross_dists[u, v, i, k]]:
    the latest assignment to a cell is the first entry with its key, a cell
    never assigned reads [0]. *)
Definition speed_cells := list (edge * nat * Q).
Definition cross_cells := list (edge * nat * nat * Q).

Definition read_speed (speeds : speed_cells) (e : edge) (i : nat) : Q :=
  match find (fun c => edge_eqb (fst (fst c)) e && (snd (fst c) =? i)) speeds with
  | Some c => snd c
  | None => 0%Q
  end.

Definition read_cross (cross_dists : cross_cells) (e : edge) (i k : nat) : Q :=
  match find (fun c => edge_eqb (fst (fst (fst c))) e && (snd (fst (fst c)) =? i)
                       && (snd (fst c) =? k)) cross_dists with
  | Some c => snd c
  | None => 0%Q
  end.

Fixpoint write_cross (e : edge) (i k : nat) (dists : list Q) (cross_dists : cross_cells)
  : cross_cells :=
  match dists with
  | [] => cross_dists
  | dist :: tl => write_cross e i (S k) tl ((e, i, k, dist) :: cross_dists)
  end.

Definition Qsum (l : list Q) : Q := fold_right Qplus 0%Q l.

(** [np.mean]: [nan] on an empty array. *)
Definition np_mean (l : list Q) : float :=
  match l with
  | [] => NaN
  | _ :: _ => Fin (Qsum l / inject_Z (Z.of_nat (List.length l)))%Q
  end.

Definition fplus (a b : float) : float :=
  match a, b with Fin x, Fin y => Fin (x + y)%Q | _, _ => NaN end.
Definition fminus (a b : float) : float :=
  match a, b with Fin x, Fin y => Fin (x - y)%Q | _, _ => NaN end.
Definition fscale (c : Q) (a : float) : float :=
  match a with Fin x => Fin (c * x)%Q | NaN => NaN end.

(** [[mean + 1.96*std, mean - 1.96*std]] *)
Definition confidence_95 (mean std : float) : float * float :=
  (fplus mean (fscale (196 # 100) std), fminus mean (fscale (196 # 100) std)).

Definition get_trajectory {T} (trajectories : list (nat * T)) (mmsi : nat) : option T :=
  option_map snd (find (fun mt => fst mt =? mmsi) trajectories).

Section Refiner.
Context {geo : Geometry}.

Definition accumulators := (DiGraph * speed_cells * cross_cells)%type.

(** Body of the loop over the consecutive pairs [(u, v)] of the [i]-th
    path. *)
Definition passage_step (wps : list waypoint) (connections_refined : list connection)
  (i : nat) (trajectory : option Trajectory) (e : edge) (st : accumulators)
  : option accumulators :=
  let '(g, speeds, cross_dists) := st in
  match get_edge g (fst e) (snd e) with
  | None => None
  | Some d =>
      let g' := set_edge g e (with_weight (weight d + 1)) in
      match trajectory with
      | None => None
      | Some trajectory =>
          match clip_trajectory_between_WPs trajectory wps (fst e) (snd e) with
          | None => None
          | Some (length, t1, t2) =>
              match transit_speed length t1 t2 with
              | None => None
              | Some speed =>
                  match signed_distances trajectory wps connections_refined
                          (fst e) (snd e) with
                  | None => None
                  | Some dists =>
                      Some (g', (e, i, speed) :: speeds,
                            write_cross e i 0 (firstn 10 dists) cross_dists)
                  end
              end
          end
      end
  end.

(** Body of the loop over the rows of [paths]. *)
Definition path_step (wps : list waypoint) (connections_refined : list connection)
  (trajectories : list (nat * Trajectory)) (row : nat * (nat * list node))
  (st : accumulators) : option accumulators :=
  let '(i, (mmsi, path)) := row in
  let trajectory := get_trajectory trajectories mmsi in
  for_each (passage_step wps connections_refined i trajectory) (consecutive path) st.

Definition edge_statistics (dim3 : nat) (speeds : speed_cells)
  (cross_dists : cross_cells) (e : edge) : edge_stats :=
  let speeds_u_v := map (read_speed speeds e) (seq 0 dim3) in
  let speed_dist := filter (Qltb 0) speeds_u_v in
  let cross_dists_u_v :=
    flat_map (fun i => map (read_cross cross_dists e i) (seq 0 10)) (seq 0 dim3) in
  let cross_dist := filter (fun x => Qltb 0 (Qabs x)) cross_dists_u_v in
  mk_edge_stats
    (np_mean speed_dist) (np_std speed_dist)
    (confidence_95 (np_mean speed_dist) (np_std speed_dist))
    speed_dist
    (np_mean cross_dist) (np_std cross_dist) (skew cross_dist) (kurtosis cross_dist)
    (confidence_95 (np_mean cross_dist) (np_std cross_dist))
    cross_dist.

(** [connections_refined.loc[ind, ...] = ...] for the rows of the edge *)
Definition update_connection (e : edge) (w : Z) (s : edge_stats)
  (t : list connection) : list connection :=
  map (fun r =>
         if (from r =? fst e) && (to r =? snd e)
         then mk_connection (from r) (to r) (conn_geometry r) (conn_direction r)
                (conn_length r) w (Some s)
         else r) t.

(** Body of the loop over the edges after all paths were counted. *)
Definition feature_step (dim3 : nat) (speeds : speed_cells) (cross_dists : cross_cells)
  (e : edge) (st : DiGraph * list connection * list edge)
  : option (DiGraph * list connection * list edge) :=
  let '(g, connections_refined, edges_to_remove) := st in
  match get_edge g (fst e) (snd e) with
  | None => None
  | Some d =>
      if (weight d =? 0)%Z then
        Some (g, connections_refined, edges_to_remove ++ [e])
      else
        let s := edge_statistics dim3 speeds cross_dists e in
        Some (set_edge g e (with_stats s),
              update_connection e (weight d) s connections_refined,
              edges_to_remove)
  end.

(** [refine_graph_from_paths(self, paths, trajectories)]; [paths] is the
    table with the columns [mmsi] and [path]. *)
Definition refine_graph_from_paths (self : MaritimeTrafficNetwork)
  (paths : list (nat * list node)) (trajectories : list (nat * Trajectory))
  : option MaritimeTrafficNetwork :=
  match G self, waypoint_connections self with
  | Some g, Some connections =>
      let wps := waypoints self in
      let dim3 := List.length paths in
      let g0 := reset_weights g in
      let connections_refined := reset_passages connections in
      match for_each (path_step wps connections_refined trajectories)
              (combine (seq 0 dim3) paths) (g0, [], []) with
      | None => None
      | Some (g1, speeds, cross_dists) =>
          match for_each (feature_step dim3 speeds cross_dists) (edges g1)
                  (g1, connections_refined, []) with
          | None => None
          | Some (g2, connections2, edges_to_remove) =>
              match for_each removal_step edges_to_remove (g2, connections2) with
              | None => None
              | Some (g_refined, connections3) =>
                  Some (mk_MTN (waypoints self)
                          (waypoint_connections self)
                          (waypoint_connections_pruned self)
                          (Some connections3)
                          (G self)
                          (G_pruned self)
                          (Some g_refined))
              end
          end
      end
  | _, _ => None
  end.
End Refiner.

(** ** [trajectory_to_path_sspd] *)

Inductive message := success | attempt | no_path | no_intersects.

(** A row of [path_df]. *)
Record path_row := mk_path_row {
  row_mmsi : nat;
  orig : node;
  dest : node;
  row_geometry : LineString;
  row_message : message
}.

(** The single row of [evaluation_results]; [None] in [distances], [path]
    and [path_linestring] is the [np.nan] of the failure outcomes. *)
Record evaluation_results := mk_evaluation {
  eval_mmsi : nat;
  SSPD : float;
  distances : option (list Q);
  fraction_covered : Q;
  eval_message : message;
  path : option (list node);
  path_linestring : option (list LineString)
}.

(** A locator distance; [inf] is [np.inf]. *)
Inductive distance := inf | dist (q : Q).

Definition closer_than (d : distance) (bound : Q) : bool :=
  match d with inf => false | dist q => Qltb q bound end.

(** The local variables set by the end-point search; an index is [None]
    while the variable is unbound. *)
Record endpoints := mk_endpoints {
  orig_WP : node;
  idx_orig : option Z;
  dist_orig : distance;
  dest_WP : node;
  idx_dest : option Z;
  dist_dest : distance
}.

Definition mem_node (x : node) (l : list node) : bool := existsb (Nat.eqb x) l.

(** Modelled from the spec: [geometry_utils.is_valid_path], which is not
    among the sources; section 4.6 step 7 uses it for "a direct edge/path
    A -> C exists in the channel graph": the node sequence is a walk of the
    graph. *)
Definition is_valid_path (g : DiGraph) (p : list node) : bool :=
  negb (List.length p =? 0) && forallb (fun e => has_edge g (fst e) (snd e)) (consecutive p).

(** [connections[(connections['from'] == u) & (connections['to'] == v)].geometry.item()],
    which raises unless exactly one row matches. *)
Definition item_geometry (connections : list connection) (e : edge) : option LineString :=
  match filter (fun r => (from r =? fst e) && (to r =? snd e)) connections with
  | [r] => Some (conn_geometry r)
  | _ => None
  end.

(** The loop that builds [path_df] from a node sequence. *)
Definition make_path_df (mmsi : nat) (msg : message) (connections : list connection)
  (p : list node) : option (list path_row) :=
  for_each (fun e rows =>
              match item_geometry connections e with
              | None => None
              | Some geom => Some (rows ++ [mk_path_row mmsi (fst e) (snd e) geom msg])
              end)
           (consecutive p) [].

(** The two failure outcomes: an empty [path_df] and a row of [nan]s. *)
Definition failure (mmsi : nat) (msg : message) : list path_row * evaluation_results :=
  ([], mk_evaluation mmsi NaN None 0%Q msg None None).

Section Matcher.
Context {geo : Geometry}.

(** The first [try]/[except]: both end points are searched; when either
    search raises, the way points become [0] and the distances infinite.
    An index assigned before the exception stays bound. *)
Definition locate_endpoints (trajectory : Trajectory) (wps : list waypoint) : endpoints :=
  match find_orig_WP trajectory wps with
  | None => mk_endpoints 0 None inf 0 None inf
  | Some (o, io, d_o) =>
      match find_dest_WP trajectory wps with
      | None => mk_endpoints 0 (Some io) inf 0 None inf
      | Some (d, id, d_d) => mk_endpoints o (Some io) (dist d_o) d (Some id) (dist d_d)
      end
  end.

(** The three cases that reconcile the end points with the passages. *)
Definition reconcile (g : DiGraph) (trajectory : Trajectory) (wps : list waypoint)
  (passages : list node) (ep : endpoints) : list node * endpoints :=
  if (List.length passages =? 0) && negb (orig_WP ep =? dest_WP ep) then
    let passages1 := if closer_than (dist_orig ep) 100 then passages ++ [orig_WP ep]
                     else passages in
    let passages2 := if closer_than (dist_dest ep) 100 then passages1 ++ [dest_WP ep]
                     else passages1 in
    (passages2, ep)
  else if (List.length passages =? 0) && (orig_WP ep =? dest_WP ep) then
    ([], ep)
  else
    let '(passages1, o, io) :=
      if negb (mem_node (orig_WP ep) passages) && closer_than (dist_orig ep) 100
         && has_path g (orig_WP ep) (hd 0 passages)
      then (orig_WP ep :: passages, orig_WP ep, idx_orig ep)
      else (passages, hd 0 passages,
            Some (closest_index trajectory wps (hd 0 passages))) in
    let '(passages2, d, id) :=
      if negb (mem_node (dest_WP ep) passages1) && closer_than (dist_dest ep) 100
         && has_path g (last passages1 0) (dest_WP ep)
      then (passages1 ++ [dest_WP ep], dest_WP ep, idx_dest ep)
      else (passages1, last passages1 0,
            Some (closest_index trajectory wps (last passages1 0))) in
    (passages2, mk_endpoints o io (dist_orig ep) d id (dist_dest ep)).

(** Body of the loop over the consecutive passage pairs (step 5).  The
    state is the list of sub-paths and the variable [best_sequence], which
    keeps its value from the previous pair when no candidate is selected
    and is unbound before the first selection. *)
Definition match_step (trajectory : Trajectory) (wps : list waypoint)
  (g_channel : DiGraph) (connections : list connection) (k_max l_max : Z)
  (pr : edge) (st : list (list node) * option (list node))
  : option (list (list node) * option (list node)) :=
  let idx1 := closest_index trajectory wps (fst pr) in
  let idx2 := closest_index trajectory wps (snd pr) in
  if (idx2 <? idx1)%Z then Some st
  else
    match best_edge_sequence trajectory g_channel connections (fst pr) (snd pr)
            idx1 idx2 k_max l_max with
    | None => None
    | Some found =>
        let best_sequence := match found with Some s => Some s | None => snd st end in
        match best_sequence with
        | None => None
        | Some s => Some (fst st ++ [tl s], Some s)
        end
    end.

(** Step 5 and the flattening of the sub-paths. *)
Definition match_passages (trajectory : Trajectory) (wps : list waypoint)
  (g_channel : DiGraph) (connections : list connection) (k_max l_max : Z)
  (passages : list node) : option (list node) :=
  option_map (fun st => List.concat (fst st))
    (for_each (match_step trajectory wps g_channel connections k_max l_max)
       (consecutive passages) ([[hd 0 passages]], None)).

(** The loop of the hop-skipping pass over [k] in [range(0, len(path)-2)]:
    [rest] is [path[k:]], which has the triple [path[k], path[k+1],
    path[k+2]] in front as long as [k <= len(path) - 3]. *)
Fixpoint refine_loop (trajectory : Trajectory) (wps : list waypoint)
  (g_channel : DiGraph) (connections : list connection)
  (rest : list node) (skipped : bool) (refined_path : list node)
  : option (list node) :=
  match rest with
  | WP1_id :: ((WP2_id :: WP3_id :: _) as rest') =>
      if skipped then
        refine_loop trajectory wps g_channel connections rest' false refined_path
      else if is_valid_path g_channel [WP1_id; WP3_id] then
        match hop_scores trajectory wps connections WP1_id WP2_id WP3_id with
        | None => None
        | Some (f123, len123, f13, len13) =>
            if Qltb (f13 * len13) (f123 * len123) then
              refine_loop trajectory wps g_channel connections rest' true
                (refined_path ++ [WP3_id])
            else
              refine_loop trajectory wps g_channel connections rest' false
                (refined_path ++ [WP2_id])
        end
      else
        refine_loop trajectory wps g_channel connections rest' false
          (refined_path ++ [WP2_id])
  | _ => Some refined_path
  end.

(** The pass of [algorithm == 'refined']; [path[0]] raises on an empty
    path. *)
Definition refine_path (trajectory : Trajectory) (wps : list waypoint)
  (g_channel : DiGraph) (connections : list connection) (p : list node)
  : option (list node) :=
  match p with
  | [] => None
  | p0 :: _ =>
      match refine_loop trajectory wps g_channel connections p false [p0] with
      | None => None
      | Some refined_path =>
          if negb (last refined_path 0 =? last p 0)
          then Some (refined_path ++ [last p 0])
          else Some refined_path
      end
  end.

(** The evaluation of the goodness of fit of a path.  It raises while an
    index is unbound, and on an empty [path_df]: the edge sequence merged
    from no row is an empty geometry, which has no point to interpolate. *)
Definition evaluate (trajectory : Trajectory) (mmsi : nat) (msg : message)
  (p : list node) (path_df : list path_row) (ep : endpoints)
  : option evaluation_results :=
  match idx_orig ep, idx_dest ep, path_df with
  | Some io, Some id, _ :: _ =>
      let '(io, id) := if (id <=? io)%Z then (0%Z, (-1)%Z) else (io, id) in
      let covered := covered_fraction trajectory io id in
      let percentage_covered := match covered with Some f => f | None => 1%Q end in
      let '(sspd, d) :=
        sspd_fit trajectory (map row_geometry path_df) io id (negb (is_some covered)) in
      Some (mk_evaluation mmsi (Fin sspd) (Some d) percentage_covered msg
              (Some p) (Some (map row_geometry path_df)))
  | _, _, _ => None
  end.

(** The body of the [try] once at least two passages are known. *)
Definition try_match (trajectory : Trajectory) (wps : list waypoint)
  (g_channel : DiGraph) (connections : list connection) (k_max l_max : Z)
  (algorithm : string) (passages : list node) (ep : endpoints)
  : option (list path_row * evaluation_results) :=
  let mmsi := mmsi_of trajectory in
  match match_passages trajectory wps g_channel connections k_max l_max passages with
  | None => None
  | Some p =>
      let refined :=
        if String.eqb algorithm "refined"
        then refine_path trajectory wps g_channel connections p
        else Some p in
      match refined with
      | None => None
      | Some p' =>
          match make_path_df mmsi success connections p' with
          | None => None
          | Some path_df =>
              option_map (fun ev => (path_df, ev))
                (evaluate trajectory mmsi success p' path_df ep)
          end
      end
  end.

(** The [except] branch: the shortest path of the pruned graph between
    the first and the last passage, or the outcome [no_path].  An exception
    raised here leaves the method. *)
Definition fallback (trajectory : Trajectory) (g : DiGraph)
  (connections : list connection) (passages : list node) (ep : endpoints)
  : option (list path_row * evaluation_results) :=
  let mmsi := mmsi_of trajectory in
  if has_path g (hd 0 passages) (last passages 0) then
    match shortest_path g (hd 0 passages) (last passages 0) with
    | None => None
    | Some p =>
        match make_path_df mmsi attempt connections p with
        | None => None
        | Some path_df =>
            option_map (fun ev => (path_df, ev))
              (evaluate trajectory mmsi attempt p path_df ep)
        end
    end
  else Some (failure mmsi no_path).

(** The passages after the reconciliation with the end points, and the
    channel graph. *)
Definition reconciled (self_G : DiGraph) (wps : list waypoint) (trajectory : Trajectory)
  : list node * endpoints * DiGraph :=
  let ep := locate_endpoints trajectory wps in
  let '(passages, g_channel) := find_WP_intersections trajectory wps self_G 1000 in
  (reconcile self_G trajectory wps passages ep, g_channel).

(** [trajectory_to_path_sspd(self, trajectory, k_max, l_max, algorithm)];
    [None] is an exception that leaves the method. *)
Definition trajectory_to_path_sspd (self : MaritimeTrafficNetwork)
  (trajectory : Trajectory) (k_max l_max : Z) (algorithm : string)
  : option (list path_row * evaluation_results) :=
  match G_pruned self, waypoint_connections_pruned self with
  | Some g, Some connections =>
      let wps := waypoints self in
      let '(passages, ep, g_channel) := reconciled g wps trajectory in
      if 2 <=? List.length passages then
        match try_match trajectory wps g_channel connections k_max l_max
                algorithm passages ep with
        | Some result => Some result
        | None => fallback trajectory g connections passages ep
        end
      else Some (failure (mmsi_of trajectory) no_intersects)
  | _, _ => None
  end.
End Matcher.

(** ** The marking rules of [prune_graph] as predicates on an edge *)

(** The edge violates the traffic direction of both of its way points, or
    a course attribute is missing. *)
Definition violates_direction (g : DiGraph) (e : edge) : bool :=
  match get_edge g (fst e) (snd e) with
  | None => false
  | Some d =>
      match node_attr g (fst e) cog_after, node_attr g (snd e) cog_before with
      | Some WP1_direction, Some WP2_direction =>
          Qltb 90 (Qabs (angle_between WP1_direction (direction d)))
          && Qltb 90 (Qabs (angle_between WP2_direction (direction d)))
      | _, _ => true
      end
  end.

(** The edge has fewer than [min_passages] passages. *)
Definition low_traffic (g : DiGraph) (min_passages : Z) (e : edge) : bool :=
  match get_edge g (fst e) (snd e) with
  | None => false
  | Some d => (weight d <? min_passages)%Z
  end.

(** The working copy [G_temp] right after the redundancy filter has
    removed the edge [e] from it: the graph without [e] and without the
    low-traffic edges that come before [e] in the iteration order [pre]. *)
Definition working_copy (g : DiGraph) (min_passages : Z) (pre : list edge) (e : edge)
  : DiGraph :=
  remove_edges_from g (filter (low_traffic g min_passages) (pre ++ [e])).

Fixpoint unique_edgesb (l : list edge) : bool :=
  match l with
  | [] => true
  | e :: tl => negb (mem_edge e tl) && unique_edgesb tl
  end.

(** A [DiGraph] holds at most one edge per ordered pair of nodes. *)
Definition unique_edges (g : DiGraph) : bool := unique_edgesb (edges g).

(** The snapshot that [prune_graph] works on. *)
Definition selected_snapshot (self : MaritimeTrafficNetwork) (graph : string)
  : option DiGraph * option (list connection) :=
  if String.eqb graph "original" then (G self, waypoint_connections self)
  else (G_refined self, waypoint_connections_refined self).

(** An alternative route of at most four edges. *)
Definition short_detour (g : DiGraph) (e : edge) : Prop :=
  exists q, walk g (fst e) (snd e) q /\ hops q <= 4.

(** ** The redundancy rule in the words of the specification

    Section 4.4: only the edges that the direction filter has not marked are
    tested; a tested edge of weight below [min_passages] is removed from the
    working copy, and it is marked when a path between its end points
    remains whose length in edges is at most 5. *)
Definition spec_working_copy (g : DiGraph) (min_passages : Z) (pre : list edge) (e : edge)
  : DiGraph :=
  remove_edges_from g
    (filter (fun x => low_traffic g min_passages x && negb (violates_direction g x))
       (pre ++ [e])).

Definition spec_redundancy_rule (g : DiGraph) (min_passages : Z) (marked : list edge)
  : Prop :=
  forall pre e post,
    edges g = pre ++ e :: post ->
    violates_direction g e = false ->
    (In e marked <->
     low_traffic g min_passages e = true /\
     exists q, walk (spec_working_copy g min_passages pre e) (fst e) (snd e) q /\
               hops q <= 5).

(** ** Example networks *)

(** A node whose courses point north. *)
Definition north : node_attrs := mk_node_attrs (Some 0%Q) (Some 0%Q).

(** A northbound edge with [w] passages. *)
Definition northbound (w : Z) : edge_attrs :=
  mk_edge_attrs w (1 / inject_Z w)%Q 0%Q 1%Q [] None.

Definition row (u v : node) (w : Z) : connection :=
  mk_connection u v [] 0%Q 1%Q w None.

(** A direct edge [0 -> 5] with one passage next to a route of five
    well-travelled edges. *)
Definition detour_graph : DiGraph :=
  mk_DiGraph
    [(0, north); (1, north); (2, north); (3, north); (4, north); (5, north)]
    [((0, 5), northbound 1); ((0, 1), northbound 5); ((1, 2), northbound 5);
     ((2, 3), northbound 5); ((3, 4), northbound 5); ((4, 5), northbound 5)].

(** A triangle: [0 -> 2] with one passage, [0 -> 1 -> 2] well travelled,
    and an isolated node [3]. *)
Definition triangle_graph : DiGraph :=
  mk_DiGraph
    [(0, north); (1, north); (2, north); (3, north)]
    [((0, 1), northbound 5); ((1, 2), northbound 5); ((0, 2), northbound 1)].

Definition triangle_connections : list connection :=
  [row 0 1 5; row 1 2 5; row 0 2 1].

Definition triangle_network : MaritimeTrafficNetwork :=
  mk_MTN [mk_waypoint 0 5 0 0; mk_waypoint 1 5 0 0; mk_waypoint 2 5 0 0;
          mk_waypoint 3 5 0 0]%Q
    (Some triangle_connections) None None (Some triangle_graph) None None.

(** The triangle with a table that also has a row [2 -> 3], for which the
    graph has no edge. *)
Definition stray_connections : list connection :=
  triangle_connections ++ [row 2 3 4].

Definition stray_network : MaritimeTrafficNetwork :=
  mk_MTN [mk_waypoint 0 5 0 0; mk_waypoint 1 5 0 0; mk_waypoint 2 5 0 0;
          mk_waypoint 3 5 0 0]%Q
    (Some stray_connections) None None (Some triangle_graph) None None.

(** The edge [0 -> 1] runs south between north-facing way points and has one
    passage; [0 -> 2] has one passage and the detour [0 -> 1 -> 2]. *)
Definition southbound_graph : DiGraph :=
  mk_DiGraph
    [(0, north); (1, north); (2, north)]
    [((0, 1), mk_edge_attrs 1 1%Q 180%Q 1%Q [] None);
     ((1, 2), northbound 5); ((0, 2), northbound 1)].

(** A geometry in which a trajectory is given by the way points it
    passes: every clipped segment has length 1 and takes one second, the
    scores are constant, and [best] selects the edge sequence between two
    passages. *)
Definition sea_with (best : node -> node -> option (option (list node))) : Geometry := {|
  Trajectory := list node;
  mmsi_of := fun _ => 7;
  passed_waypoints := fun trajectory _ _ _ => trajectory;
  straight_edge := fun _ _ _ => ([], 0%Q, 1%Q);
  clip_trajectory_between_WPs := fun _ _ _ _ => Some (1%Q, 0%Z, 1000000000%Z);
  signed_distances := fun _ _ _ _ _ => Some [1%Q];
  np_std := fun _ => Fin 0;
  skew := fun _ => Fin 0;
  kurtosis := fun _ => Fin 0;
  find_orig_WP := fun trajectory _ => Some (hd 0 trajectory, 0%Z, 0%Q);
  find_dest_WP := fun trajectory _ => Some (last trajectory 0, 9%Z, 0%Q);
  find_WP_intersections := fun trajectory _ g _ => (trajectory, g);
  closest_index := fun _ _ k => Z.of_nat k;
  best_edge_sequence := fun _ _ _ a b _ _ _ _ => best a b;
  hop_scores := fun _ _ _ _ _ _ => Some (2%Q, 1%Q, 1%Q, 1%Q);
  covered_fraction := fun _ _ _ => Some 1%Q;
  sspd_fit := fun _ _ _ _ _ => (0%Q, [])
|}.

(** The direct edge between two passages is always the best sequence. *)
Definition flat_sea : Geometry := sea_with (fun a b => Some (Some [a; b])).

(** The flat sea, but the first and the last point of every clipped segment
    are one nanosecond apart. *)
Definition tick_sea : Geometry := {|
  Trajectory := list node;
  mmsi_of := fun _ => 7;
  passed_waypoints := fun trajectory _ _ _ => trajectory;
  straight_edge := fun _ _ _ => ([], 0%Q, 1%Q);
  clip_trajectory_between_WPs := fun _ _ _ _ => Some (1%Q, 0%Z, 1%Z);
  signed_distances := fun _ _ _ _ _ => Some [1%Q];
  np_std := fun _ => Fin 0;
  skew := fun _ => Fin 0;
  kurtosis := fun _ => Fin 0;
  find_orig_WP := fun trajectory _ => Some (hd 0 trajectory, 0%Z, 0%Q);
  find_dest_WP := fun trajectory _ => Some (last trajectory 0, 9%Z, 0%Q);
  find_WP_intersections := fun trajectory _ g _ => (trajectory, g);
  closest_index := fun _ _ k => Z.of_nat k;
  best_edge_sequence := fun _ _ _ a b _ _ _ _ => Some (Some [a; b]);
  hop_scores := fun _ _ _ _ _ _ => Some (2%Q, 1%Q, 1%Q, 1%Q);
  covered_fraction := fun _ _ _ => Some 1%Q;
  sspd_fit := fun _ _ _ _ _ => (0%Q, [])
|}.

(** The search between two passages always raises. *)
Definition stuck_sea : Geometry := sea_with (fun _ _ => None).

(** The triangle as the pruned snapshot of a network. *)
Definition pruned_triangle : MaritimeTrafficNetwork :=
  mk_MTN [mk_waypoint 0 5 0 0; mk_waypoint 1 5 0 0; mk_waypoint 2 5 0 0;
          mk_waypoint 3 5 0 0]%Q
    (Some triangle_connections) (Some triangle_connections) None
    (Some triangle_graph) (Some triangle_graph) None.

(** Four way points, no graph yet. *)
Definition fresh_network : MaritimeTrafficNetwork :=
  mk_MTN [mk_waypoint 0 5 0 0; mk_waypoint 1 5 0 0; mk_waypoint 2 5 0 0;
          mk_waypoint 3 5 0 0]%Q
    None None None None None None.

(** The invariant of [coord_dict]: no key is a self-loop and every count is
    at least 1. *)
Definition counts_ok (coord_dict : list (edge * Z)) : Prop :=
  forall k c, In (k, c) coord_dict -> fst k <> snd k /\ (1 <= c)%Z.

(** Every edge of the graph has the reciprocal weight [0]. *)
Definition zero_inverse (g : DiGraph) : Prop :=
  forall kd, In kd (adj g) -> inverse_weight (snd kd) = 0%Q.

(** The table has exactly one row for every edge of the graph, as the
    tables that are assigned together with a graph snapshot have. *)
Definition connections_cover (g : DiGraph) (connections : list connection) : bool :=
  forallb (fun e => is_some (item_geometry connections e)) (edges g).

(** ** The symmetric segment-path distance

    [geometry_utils.sspd] is not among the sources; this is section 4.1 of
    the specification over the real numbers. *)
Module Shape.
Local Open Scope R_scope.

Definition Point := (R * R)%type.

Definition distance (p q : Point) : R :=
  sqrt ((fst p - fst q)² + (snd p - snd q)²).

(** The point of the segment from [a] to [b] at parameter [t]. *)
Definition along (a b : Point) (t : R) : Point :=
  (fst a + t * (fst b - fst a), snd a + t * (snd b - snd a)).

(** The parameter of the point of the segment that is closest to [p]: the
    orthogonal projection, clipped to the segment. *)
Definition foot_parameter (p a b : Point) : R :=
  Rmax 0 (Rmin 1
    (((fst p - fst a) * (fst b - fst a) + (snd p - snd a) * (snd b - snd a))
     / ((fst b - fst a)² + (snd b - snd a)²))).

Definition distance_to_segment (p a b : Point) : R :=
  distance p (along a b (foot_parameter p a b)).

(** The minimum distance from [p] to the continuous path through the
    vertices [a :: rest]. *)
Fixpoint distance_to_polyline (p a : Point) (rest : list Point) : R :=
  match rest with
  | [] => distance p a
  | b :: tl => Rmin (distance_to_segment p a b) (distance_to_polyline p b tl)
  end.

(** Modelled from the spec: a curve of [geometry_utils.sspd], a continuous
    path (the polyline through [start :: rest]) together with the discrete
    points sampled along it. *)
Record Curve := mk_Curve {
  start : Point;
  rest : list Point;
  samples : list Point
}.

Definition point_to_curve (p : Point) (c : Curve) : R :=
  distance_to_polyline p (start c) (rest c).

Definition mean (l : list R) : R := fold_right Rplus 0 l / INR (List.length l).

(** The average over the samples of [A] of their distance to the path of
    [B]. *)
Definition directed (A B : Curve) : R :=
  mean (map (fun p => point_to_curve p B) (samples A)).

Definition same_point (p q : Point) : bool :=
  if Req_dec_T (fst p) (fst q) then
    if Req_dec_T (snd p) (snd q) then true else false
  else false.

(** A curve of length zero: all its vertices coincide. *)
Definition zero_length (c : Curve) : bool := forallb (same_point (start c)) (rest c).

(** Modelled from the spec: [geometry_utils.sspd], which is not among the
    sources.  Section 4.1: the mean of the two directed averages; a curve of
    length zero on either side is treated as a single point, and the SSPD is
    then the distance from that point to the other curve. *)
Definition sspd (A B : Curve) : R :=
  if zero_length A then point_to_curve (start A) B
  else if zero_length B then point_to_curve (start B) A
  else (directed A B + directed B A) / 2.

Definition on_segment (p a b : Point) : Prop :=
  exists t, 0 <= t <= 1 /\ p = along a b t.

Fixpoint on_polyline (p a : Point) (rest : list Point) : Prop :=
  match rest with
  | [] => p = a
  | b :: tl => on_segment p a b \/ on_polyline p b tl
  end.

(** The samples of the curve lie on its path. *)
Definition sampled_along (c : Curve) : Prop :=
  Forall (fun p => on_polyline p (start c) (rest c)) (samples c).

(** A curve from [(0, 0)] to [(2, 0)] with three samples. *)
Definition east_leg : Curve :=
  mk_Curve (0, 0) [(2, 0)] [(0, 0); (1, 0); (2, 0)].

End Shape.

(** [southbound_graph] as the raw snapshot of a network. *)
Definition southbound_connections : list connection :=
  [mk_connection 0 1 [] 180%Q 1%Q 1 None; row 1 2 5; row 0 2 1].

Definition southbound_network : MaritimeTrafficNetwork :=
  mk_MTN [mk_waypoint 0 5 0 0; mk_waypoint 1 5 0 0; mk_waypoint 2 5 0 0]%Q
    (Some southbound_connections) None None (Some southbound_graph) None None.

(** ** Counting passages

    The number of trajectories that pass the way point [u] and then, as
    their next distinct way point, [v]. *)
Definition passes {geo : Geometry} (wps : list waypoint) (trajectories : list Trajectory)
  (max_distance max_angle : Q) (u v : node) : nat :=
  List.length
    (filter (fun trajectory =>
               mem_edge (u, v)
                 (consecutive
                    (OrderedDict_fromkeys
                       (passed_waypoints trajectory wps max_distance max_angle))))
            trajectories).

(** The count stored for a key of [coord_dict], [0] for a missing key. *)
Definition tally (coord_dict : list (edge * Z)) (e : edge) : Z :=
  match assoc e coord_dict with
  | Some c => c
  | None => 0%Z
  end.

(** Two trajectories over the way points of [fresh_network], and the raw
    network that [make_graph_from_waypoints] builds from them. *)
Definition two_trajectories : list (list node) := [[0; 1; 2]; [0; 1; 1; 0; 3]].

Definition raw_graph : DiGraph :=
  mk_DiGraph
    [(0, north); (1, north); (2, north); (3, north)]
    [((0, 1), northbound 2); ((1, 2), northbound 1); ((1, 3), northbound 1)].

Definition raw_network : MaritimeTrafficNetwork :=
  mk_MTN (waypoints fresh_network)
    (Some [row 0 1 2; row 1 2 1; row 1 3 1]) None None (Some raw_graph) None None.

(** ** Counting traversals

    The hops of all paths of the table [paths], in the order in which
    [refine_graph_from_paths] visits them, and the number of times the hop
    [e] occurs among them. *)
Definition all_hops (paths : list (nat * list node)) : list edge :=
  flat_map (fun row => consecutive (snd row)) paths.

Definition traversals (paths : list (nat * list node)) (e : edge) : nat :=
  List.length (filter (fun h => edge_eqb h e) (all_hops paths)).

(** The state of the weights while the passages are counted: the graph has
    the nodes and the keys of the base graph, every counted hop is an edge,
    and every edge carries the number of its counted hops as weight, the
    reciprocal weight [0] and the remaining attributes of the base graph. *)
Definition counted (g0 : DiGraph) (hops_done : list edge) (g : DiGraph) : Prop :=
  nodes g = nodes g0 /\
  edges g = edges g0 /\
  (forall e, In e hops_done -> In e (edges g0)) /\
  (forall u v d0, get_edge g0 u v = Some d0 ->
     exists d, get_edge g u v = Some d /\
       weight d = Z.of_nat (List.length (filter (fun h => edge_eqb h (u, v)) hops_done)) /\
       direction d = direction d0 /\ edge_length d = edge_length d0 /\
       geometry d = geometry d0).


(** The weight an edge carries in a graph ([0] when it is no edge) and the
    test [G[u][v]['weight'] == 0] of the loop that collects the statistics. *)
Definition weight_of (g : DiGraph) (e : edge) : Z :=
  match get_edge g (fst e) (snd e) with Some d => weight d | None => 0%Z end.

Definition zero_weight (g : DiGraph) (e : edge) : bool := (weight_of g e =? 0)%Z.

(** The attributes of an edge that refinement never writes after the
    passages were counted. *)
Definition core (d : edge_attrs) : Z * Q * Q * LineString :=
  (weight d, direction d, edge_length d, geometry d).

Definition same_core (g g' : DiGraph) : Prop :=
  nodes g' = nodes g /\ edges g' = edges g /\
  forall u v, option_map core (get_edge g' u v) = option_map core (get_edge g u v).

(** The table of connections after the statistics of the edges [done] were
    written: the rows of a traversed edge of [done] carry its weight. *)
Definition counted_rows (g : DiGraph) (stat : edge -> edge_stats) (done : list edge)
  (t : list connection) : list connection :=
  map (fun r =>
         if mem_edge (from r, to r) done && negb (zero_weight g (from r, to r))
         then mk_connection (from r) (to r) (conn_geometry r) (conn_direction r)
                (conn_length r) (weight_of g (from r, to r)) (Some (stat (from r, to r)))
         else r) t.


(** [s] is [l] with some elements left out: the order is kept and nothing
    is added. *)
Inductive subseq {A} : list A -> list A -> Prop :=
| subseq_nil l : subseq [] l
| subseq_take x s l : subseq s l -> subseq (x :: s) (x :: l)
| subseq_skip x s l : subseq s l -> subseq s (x :: l).

(** The hop that a row of [path_df] describes. *)
Definition hop (r : path_row) : edge := (orig r, dest r).


(** No node of the path can be skipped: for no three nodes in a row the
    test [is_valid_path(G_channel, [WP1_id, WP3_id])] succeeds. *)
Fixpoint no_shortcut (g_channel : DiGraph) (p : list node) : bool :=
  match p with
  | WP1_id :: ((_ :: WP3_id :: _) as rest') =>
      negb (is_valid_path g_channel [WP1_id; WP3_id]) && no_shortcut g_channel rest'
  | _ => true
  end.


(** ** [evaluate_graph] *)

(** The keys of [summary] that describe the distances of the successful
    matches; they come from [numpy], [scipy.stats.halfnorm] and the plots. *)
Record distance_fit := mk_distance_fit {
  mean_distance : float;
  median_distance : float;
  standard_deviation : float;
  HND_scale : float;
  HND_mean : float;
  HND_std : float
}.

Record summary := mk_summary {
  fit : distance_fit;
  fraction_NaN : Q;
  fraction_success : Q;
  mean_fraction_covered : float
}.

(** [all_evaluation_results.isna().any(axis=1)] on one row: the vessel, the
    covered fraction and the message are never nan. *)
Definition has_nan (ev : evaluation_results) : bool :=
  match SSPD ev with NaN => true | Fin _ => false end
  || negb (is_some (distances ev))
  || negb (is_some (path ev))
  || negb (is_some (path_linestring ev)).

Definition is_success (ev : evaluation_results) : bool :=
  match eval_message ev with success => true | _ => false end.

Definition is_attempt (ev : evaluation_results) : bool :=
  match eval_message ev with attempt => true | _ => false end.

Definition is_failure (ev : evaluation_results) : bool :=
  match eval_message ev with no_path | no_intersects => true | _ => false end.

(** [[item for sublist in distances for item in sublist]]; a nan cell is
    not iterable. *)
Fixpoint flatten_distances (rows : list evaluation_results) : option (list Q) :=
  match rows with
  | [] => Some []
  | ev :: tl =>
      match distances ev, flatten_distances tl with
      | Some d, Some ds => Some (d ++ ds)
      | _, _ => None
      end
  end.

Definition ratio (k n : nat) : option Q :=
  divide (inject_Z (Z.of_nat k)) (inject_Z (Z.of_nat n)).

Section Evaluator.
Context {geo : Geometry}.

(** [map_matching] wraps the Leuven map matcher, and the statistics and
    plots of the distances are library calls: both are taken as given;
    [None] is an exception. *)
Variable map_matching :
  MaritimeTrafficNetwork -> Trajectory -> option (list path_row * evaluation_results).
Variable fit_distances : list Q -> option distance_fit.

(** Body of the loop over the trajectories. *)
Definition evaluate_step (self : MaritimeTrafficNetwork) (k_max l_max : Z)
  (algorithm : string) (trajectory : Trajectory)
  (st : list path_row * list evaluation_results)
  : option (list path_row * list evaluation_results) :=
  let matched :=
    if String.eqb algorithm "leuven" then map_matching self trajectory
    else trajectory_to_path_sspd self trajectory k_max l_max algorithm in
  match matched with
  | None => None
  | Some (path, evaluation) => Some (fst st ++ path, snd st ++ [evaluation])
  end.

(** [evaluate_graph(self, trajectories, k_max, l_max, algorithm)] without the
    figure. *)
Definition evaluate_graph (self : MaritimeTrafficNetwork)
  (trajectories : list Trajectory) (k_max l_max : Z) (algorithm : string)
  : option (list path_row * list evaluation_results * summary) :=
  match for_each (evaluate_step self k_max l_max algorithm) trajectories ([], []) with
  | None => None
  | Some (all_paths, all_evaluation_results) =>
      let n := List.length all_evaluation_results in
      let num_rows_with_nan := List.length (filter has_nan all_evaluation_results) in
      match ratio num_rows_with_nan n with
      | None => None
      | Some percentage_nan =>
          let covered :=
            np_mean (map fraction_covered
                       (filter (fun ev => negb (has_nan ev)) all_evaluation_results)) in
          let success_eval_results := filter is_success all_evaluation_results in
          match flatten_distances success_eval_results with
          | None => None
          | Some dists =>
              match fit_distances dists with
              | None => None
              | Some f =>
                  match ratio (List.length success_eval_results) n with
                  | None => None
                  | Some share =>
                      Some (all_paths, all_evaluation_results,
                            mk_summary f percentage_nan share covered)
                  end
              end
          end
      end
  end.
End Evaluator.

(** Statistics that always succeed and report nothing. *)
Definition no_fit (dists : list Q) : option distance_fit :=
  Some (mk_distance_fit NaN NaN NaN NaN NaN NaN).

Definition no_leuven {geo : Geometry} (self : MaritimeTrafficNetwork)
  (trajectory : Trajectory) : option (list path_row * evaluation_results) := None.


(** ** [calc_significant_points_DP]: the course after each turning point

    A row of [traj_df] is the vessel and the column [cog_before]. *)

(** [Series.shift(-1, fill_value=fill_value)] *)
Definition shift_back (l : list float) (fill_value : float) : list float :=
  tl l ++ [fill_value].

(** The column [cog_after] of the rows of one vessel. *)
Definition subset_cog_after (cog_before : list float) : list float :=
  if 1 <? List.length cog_before
  then shift_back cog_before (last cog_before NaN)
  else cog_before.

(** [traj_df.loc[mask, 'cog_after'] = values], which raises when the number
    of values is not the number of selected rows. *)
Fixpoint assign_where (mask : list bool) (values column : list float)
  : option (list float) :=
  match mask, column with
  | true :: mask', _ :: column' =>
      match values with
      | v :: values' => option_map (cons v) (assign_where mask' values' column')
      | [] => None
      end
  | false :: mask', x :: column' => option_map (cons x) (assign_where mask' values column')
  | _, _ => match values with [] => Some column | _ :: _ => None end
  end.

(** Body of the loop over [traj_df.mmsi.unique()]. *)
Definition cog_after_step (rows : list (nat * float)) (mmsi : nat) (column : list float)
  : option (list float) :=
  assign_where (map (fun r => fst r =? mmsi) rows)
    (subset_cog_after (map snd (filter (fun r => fst r =? mmsi) rows)))
    column.

(** The column [cog_after] of [self.significant_points]. *)
Definition add_cog_after (rows : list (nat * float)) : option (list float) :=
  for_each (cog_after_step rows) (OrderedDict_fromkeys (map fst rows))
    (map (fun _ => NaN) rows).

(** The course before the next turning point of the same vessel. *)
Fixpoint next_cog (mmsi : nat) (rest : list (nat * float)) : option float :=
  match rest with
  | [] => None
  | r :: tl => if fst r =? mmsi then Some (snd r) else next_cog mmsi tl
  end.

Definition course_after_turn (r : nat * float) (rest : list (nat * float)) : float :=
  match next_cog (fst r) rest with Some c => c | None => snd r end.

Fixpoint course_after (rows : list (nat * float)) : list float :=
  match rows with
  | [] => []
  | r :: rest => course_after_turn r rest :: course_after rest
  end.

(** The column after the rows of the vessels [done] were assigned. *)
Fixpoint assigned (done : list nat) (rows : list (nat * float)) (column : list float)
  : list float :=
  match rows, column with
  | r :: rest, x :: column' =>
      (if existsb (Nat.eqb (fst r)) done then course_after_turn r rest else x)
      :: assigned done rest column'
  | _, _ => []
  end.


(** ** [merge_stop_points] *)

(** A row of [merged_stop_points]: the merged way point and the column
    [members]. *)
Record merged_stop_point := mk_merged_stop_point {
  stop_point : waypoint;
  members : list node
}.

(** [G.add_node(node_id)] followed by the assignment of the node features:
    a node that exists keeps its place and gets the new features. *)
Definition add_node (g : DiGraph) (k : node) (a : node_attrs) : DiGraph :=
  if existsb (fun ka => fst ka =? k) (nodes g)
  then mk_DiGraph (map (fun ka => if fst ka =? k then (k, a) else ka) (nodes g)) (adj g)
  else mk_DiGraph (nodes g ++ [(k, a)]) (adj g).

(** A node that [G.add_edge] creates has no features. *)
Definition touch_node (g : DiGraph) (k : node) : DiGraph :=
  if existsb (fun ka => fst ka =? k) (nodes g) then g
  else mk_DiGraph (nodes g ++ [(k, mk_node_attrs None None)]) (adj g).

(** [G.add_edge(u, v)] followed by the assignment of the edge features: an
    edge that exists keeps its place and gets the new features. *)
Definition add_edge (g : DiGraph) (e : edge) (d : edge_attrs) : DiGraph :=
  let g' := touch_node (touch_node g (fst e)) (snd e) in
  if mem_edge e (edges g')
  then mk_DiGraph (nodes g')
         (map (fun kd => if edge_eqb (fst kd) e then (e, d) else kd) (adj g'))
  else mk_DiGraph (nodes g') (adj g' ++ [(e, d)]).

(** [G.edges()] lists the edges by source node, in the order of the
    nodes. *)
Definition by_source (g : DiGraph) : DiGraph :=
  mk_DiGraph (nodes g)
    (flat_map (fun ka => filter (fun kd => fst (fst kd) =? fst ka) (adj g)) (nodes g)).

(** The two loops that build the graph from the tables.  [None] also stands
    for the division by [0] passages. *)
Definition graph_from_tables (wps : list waypoint) (connections : list connection)
  : option DiGraph :=
  let g0 :=
    fold_left (fun g w =>
                 add_node g (clusterID w)
                   (mk_node_attrs (Some (wp_cog_before w)) (Some (wp_cog_after w))))
              wps (mk_DiGraph [] []) in
  option_map by_source
    (for_each (fun r g =>
                 match divide 1 (inject_Z (passages r)) with
                 | None => None
                 | Some inverse =>
                     Some (add_edge g (from r, to r)
                             (mk_edge_attrs (passages r) inverse (conn_direction r)
                                (conn_length r) (conn_geometry r) None))
                 end)
              connections g0).

Section Merger.

(** [a['convex_hull'].intersects(b['convex_hull'])], and the geometry,
    direction and length of a new connection, whose start is looked up in
    the first table and whose end in the second: both are geometry of the
    libraries; [None] is an exception. *)
Variable hulls_intersect : waypoint -> waypoint -> bool.
Variable joining_edge :
  list waypoint -> list waypoint -> node -> node -> option (LineString * Q * Q).

(** Body of the loop over the stop points.  The mean of the speeds is the
    exact one here; [Series.mean] rounds it to a binary64 number, and nothing
    below depends on its value. *)
Definition merge_step (stop_points : list waypoint) (current_stop_point : waypoint)
  (st : list merged_stop_point * list (list node))
  : option (list merged_stop_point * list (list node)) :=
  let '(merged_stop_points, drop_IDs) := st in
  let intersect_stop_points := filter (hulls_intersect current_stop_point) stop_points in
  let members := OrderedDict_fromkeys (map clusterID intersect_stop_points) in
  match members with
  | [] => None
  | clusterID0 :: _ =>
      let speed :=
        (Qsum (map wp_speed intersect_stop_points)
         / inject_Z (Z.of_nat (List.length intersect_stop_points)))%Q in
      Some (if mem_node clusterID0
                 (map (fun m => clusterID (stop_point m)) merged_stop_points)
            then merged_stop_points
            else merged_stop_points
                 ++ [mk_merged_stop_point (mk_waypoint clusterID0 speed 0 0) members],
            drop_IDs ++ [members])
  end.

(** Body of the loop over the outgoing connections of an absorbed stop
    point.  [waypoint_connections[mask]['passages'] += ...] adds to a copy of
    the selected rows and leaves the table as it is. *)
Definition absorb_from (merge_node0 : node) (new_waypoints wps : list waypoint)
  (row : connection) (waypoint_connections : list connection)
  : option (list connection) :=
  if merge_node0 =? to row then Some waypoint_connections
  else if existsb (fun r => (from r =? merge_node0) && (to r =? to row))
            waypoint_connections
  then Some waypoint_connections
  else
    match joining_edge new_waypoints wps merge_node0 (to row) with
    | None => None
    | Some (edge, direction, length) =>
        Some (waypoint_connections
              ++ [mk_connection merge_node0 (to row) edge direction length
                    (passages row) None])
    end.

(** Body of the loop over the incoming connections. *)
Definition absorb_to (merge_node0 : node) (new_waypoints wps : list waypoint)
  (row : connection) (waypoint_connections : list connection)
  : option (list connection) :=
  if merge_node0 =? from row then Some waypoint_connections
  else if existsb (fun r => (to r =? merge_node0) && (from r =? from row))
            waypoint_connections
  then Some waypoint_connections
  else
    match joining_edge wps new_waypoints (from row) merge_node0 with
    | None => None
    | Some (edge, direction, length) =>
        Some (waypoint_connections
              ++ [mk_connection (from row) merge_node0 edge direction length
                    (passages row) None])
    end.

(** Body of the loop over [j] in [range(1, len(merge_nodes))]. *)
Definition absorb_member (merge_node0 : node) (new_waypoints wps : list waypoint)
  (merge_node_j : node) (st : list connection * list node)
  : option (list connection * list node) :=
  let '(waypoint_connections, drop_IDs) := st in
  let from_connections := filter (fun r => from r =? merge_node_j) waypoint_connections in
  match for_each (absorb_from merge_node0 new_waypoints wps) from_connections
          waypoint_connections with
  | None => None
  | Some connections1 =>
      let to_connections := filter (fun r => to r =? merge_node_j) connections1 in
      match for_each (absorb_to merge_node0 new_waypoints wps) to_connections
              connections1 with
      | None => None
      | Some connections2 => Some (connections2, drop_IDs ++ [merge_node_j])
      end
  end.

(** Body of the loop over the merged stop points. *)
Definition absorb_stop_point (new_waypoints wps : list waypoint)
  (m : merged_stop_point) (st : list connection * list node)
  : option (list connection * list node) :=
  match members m with
  | [] => Some st
  | merge_node0 :: absorbed =>
      for_each (absorb_member merge_node0 new_waypoints wps) absorbed st
  end.

(** [merge_stop_points(self, max_speed)] *)
Definition merge_stop_points (self : MaritimeTrafficNetwork) (max_speed : Q)
  : option MaritimeTrafficNetwork :=
  let wps := waypoints self in
  let stop_points := filter (fun w => Qltb (wp_speed w) max_speed) wps in
  match for_each (merge_step stop_points) stop_points ([], []) with
  | None => None
  | Some (merged_stop_points, drop_lists) =>
      let drop_IDs := List.concat drop_lists in
      let new_waypoints :=
        filter (fun w => negb (mem_node (clusterID w) drop_IDs)) wps
        ++ map stop_point merged_stop_points in
      match waypoint_connections self with
      | None => None
      | Some connections =>
          match for_each (absorb_stop_point new_waypoints wps) merged_stop_points
                  (connections, []) with
          | None => None
          | Some (connections', dropped) =>
              let new_waypoint_connections :=
                filter (fun r => negb (mem_node (to r) dropped || mem_node (from r) dropped))
                  connections' in
              match graph_from_tables new_waypoints new_waypoint_connections with
              | None => None
              | Some g =>
                  Some (mk_MTN new_waypoints (Some new_waypoint_connections)
                          (waypoint_connections_pruned self)
                          (waypoint_connections_refined self)
                          (Some g) (G_pruned self) (G_refined self))
              end
          end
      end
  end.
End Merger.

(** A harbour: the stop points [0] and [1] with touching hulls, and the way
    points [2] and [3] under way. *)
Definition harbour_waypoints : list waypoint :=
  [mk_waypoint 0 1 0 0; mk_waypoint 1 1 0 0; mk_waypoint 2 5 0 0; mk_waypoint 3 5 0 0]%Q.

Definition harbour_connections : list connection :=
  [row 1 2 3; row 2 0 2; row 0 1 1; row 3 1 4; row 0 2 5].

Definition harbour_network : MaritimeTrafficNetwork :=
  mk_MTN harbour_waypoints (Some harbour_connections) None None None None None.

Definition all_touch (a b : waypoint) : bool := true.

Definition plain_edge (t1 t2 : list waypoint) (u v : node) : option (LineString * Q * Q) :=
  Some ([], 0%Q, 1%Q).


(** The pair of nodes that a row of a connection table joins. *)
Definition ends (r : connection) : edge := (from r, to r).

(** A table that grew out of [base] by appending connections: each new row
    joins a pair that no earlier row joins, is no self-loop, has no
    statistics and copies the passages of an earlier row. *)
Inductive grown (base : list connection) : list connection -> Prop :=
| grown_base : grown base base
| grown_step t r r0 :
    grown base t ->
    ~ In (ends r) (map ends t) ->
    from r <> to r ->
    conn_stats r = None ->
    In r0 t -> passages r = passages r0 ->
    grown base (t ++ [r]).


(** The edge that the graph holds for a row of the table. *)
Definition table_entry (r : connection) : edge * edge_attrs :=
  (ends r,
   mk_edge_attrs (passages r) (1 / inject_Z (passages r))%Q (conn_direction r)
     (conn_length r) (conn_geometry r) None).

(** The node ids of a graph, in order. *)
Definition node_ids (g : DiGraph) : list node := map fst (nodes g).


(** What the loop over the stop points keeps true of [merged_stop_points]
    and [drop_IDs]. *)
Definition merged_ok (stop_points : list waypoint)
  (st : list merged_stop_point * list (list node)) : Prop :=
  NoDup (map (fun m => clusterID (stop_point m)) (fst st)) /\
  (forall m, In m (fst st) ->
     In (clusterID (stop_point m)) (List.concat (snd st)) /\
     hd_error (members m) = Some (clusterID (stop_point m)) /\
     wp_cog_before (stop_point m) = 0%Q /\ wp_cog_after (stop_point m) = 0%Q) /\
  (forall x, In x (List.concat (snd st)) -> In x (map clusterID stop_points)).

(** * Properties *)

(** ** Loops *)

Lemma first_some_Some {A B} (f : A -> option B) l y :
  first_some f l = Some y -> exists x, In x l /\ f x = Some y.
Proof.
  induction l as [|a l IH]; simpl; [discriminate|].
  destruct (f a) eqn:E.
  - intros [= <-]. exists a; auto.
  - intros H. destruct (IH H) as (x & Hx & Hf). exists x; auto.
Qed.

Lemma first_some_None {A B} (f : A -> option B) l :
  first_some f l = None -> forall x, In x l -> f x = None.
Proof.
  induction l as [|a l IH]; simpl; [tauto|].
  destruct (f a) eqn:E; [discriminate|].
  intros H x [<-|Hx]; auto.
Qed.

Lemma for_each_cons {A S} (body : A -> S -> option S) x tl s :
  for_each body (x :: tl) s =
  match body x s with
  | Some s' => for_each body tl s'
  | None => None
  end.
Proof. reflexivity. Qed.

Lemma for_each_app {A S} (body : A -> S -> option S) l1 l2 s :
  for_each body (l1 ++ l2) s =
  match for_each body l1 s with
  | Some s' => for_each body l2 s'
  | None => None
  end.
Proof.
  revert s; induction l1 as [|x l1 IH]; intros s; simpl; [reflexivity|].
  destruct (body x s); auto.
Qed.

(** A loop returns when its invariant makes every step return. *)
Lemma for_each_invariant {A S} (body : A -> S -> option S) (Inv : list A -> S -> Prop) :
  (forall x tl s, Inv (x :: tl) s -> exists s', body x s = Some s' /\ Inv tl s') ->
  forall l s, Inv l s -> exists s', for_each body l s = Some s' /\ Inv [] s'.
Proof.
  intros Hstep; induction l as [|x l IH]; intros s HI; simpl.
  - eauto.
  - destruct (Hstep _ _ _ HI) as (s' & -> & HI'). auto.
Qed.

(** ** Edge tables *)

Lemma edge_eqb_spec e1 e2 : reflect (e1 = e2) (edge_eqb e1 e2).
Proof.
  destruct e1 as [a b], e2 as [c d]. unfold edge_eqb; simpl.
  destruct (Nat.eqb_spec a c), (Nat.eqb_spec b d); simpl; constructor; congruence.
Qed.

Lemma edge_eqb_refl e : edge_eqb e e = true.
Proof. destruct (edge_eqb_spec e e); congruence. Qed.

Lemma edge_eqb_sym e1 e2 : edge_eqb e1 e2 = edge_eqb e2 e1.
Proof. destruct (edge_eqb_spec e1 e2), (edge_eqb_spec e2 e1); congruence. Qed.

Lemma mem_edge_In e l : mem_edge e l = true <-> In e l.
Proof.
  unfold mem_edge. rewrite existsb_exists. split.
  - intros (x & Hx & He). destruct (edge_eqb_spec e x); congruence.
  - intros H. exists e. split; auto using edge_eqb_refl.
Qed.

Lemma assoc_In_keys {B} e (l : list (edge * B)) :
  In e (map fst l) <-> exists d, assoc e l = Some d.
Proof.
  induction l as [|[k d] l IH]; simpl.
  - split; [tauto | intros [? [=]]].
  - destruct (edge_eqb_spec k e) as [->|Hne].
    + split; eauto.
    + rewrite <- IH. split; [intros [?|?]; [congruence|auto] | auto].
Qed.

Lemma assoc_In {B} e (l : list (edge * B)) d : assoc e l = Some d -> In (e, d) l.
Proof.
  induction l as [|[k d'] l IH]; simpl; [discriminate|].
  destruct (edge_eqb_spec k e) as [->|Hne].
  - intros [= ->]; auto.
  - auto.
Qed.

Lemma assoc_filter_other {B} e x (l : list (edge * B)) :
  e <> x ->
  assoc e (filter (fun kd => negb (edge_eqb (fst kd) x)) l) = assoc e l.
Proof.
  intros Hne. induction l as [|[k d] l IH]; simpl; [reflexivity|].
  destruct (edge_eqb_spec k x) as [->|Hkx]; simpl.
  - destruct (edge_eqb_spec x e); [congruence|auto].
  - rewrite IH. reflexivity.
Qed.

Lemma assoc_filter_same {B} e (l : list (edge * B)) :
  assoc e (filter (fun kd => negb (edge_eqb (fst kd) e)) l) = None.
Proof.
  induction l as [|[k d] l IH]; simpl; [reflexivity|].
  destruct (edge_eqb_spec k e) as [->|Hke]; simpl; auto.
  destruct (edge_eqb_spec k e); [congruence|auto].
Qed.

Lemma has_edge_In g u v : has_edge g u v = true <-> In (u, v) (edges g).
Proof.
  unfold has_edge, get_edge, edges. rewrite assoc_In_keys.
  destruct (assoc (u, v) (adj g)); simpl; split; eauto; try discriminate.
  intros [? [=]].
Qed.

Lemma edges_remove_edge g u v :
  edges (remove_edge g u v) = filter (fun e => negb (edge_eqb e (u, v))) (edges g).
Proof.
  unfold edges, remove_edge; simpl.
  induction (adj g) as [|[k d] l IH]; simpl; [reflexivity|].
  destruct (edge_eqb k (u, v)); simpl; congruence.
Qed.

Lemma In_edges_remove_edge g u v e :
  In e (edges (remove_edge g u v)) <-> In e (edges g) /\ e <> (u, v).
Proof.
  rewrite edges_remove_edge, filter_In.
  destruct (edge_eqb_spec e (u, v)); simpl; intuition congruence.
Qed.

Lemma get_edge_remove_other g u v a b :
  (a, b) <> (u, v) -> get_edge (remove_edge g u v) a b = get_edge g a b.
Proof. intros H. unfold get_edge, remove_edge; simpl. apply assoc_filter_other; auto. Qed.

Lemma nodes_remove_edge g u v : nodes (remove_edge g u v) = nodes g.
Proof. reflexivity. Qed.

Lemma adj_remove_edge_incl g u v : incl (adj (remove_edge g u v)) (adj g).
Proof. unfold remove_edge; simpl. intros x Hx. apply filter_In in Hx. tauto. Qed.

Lemma remove_edge_exn_Some g e g' :
  remove_edge_exn g e = Some g' ->
  In e (edges g) /\ g' = remove_edge g (fst e) (snd e).
Proof.
  unfold remove_edge_exn. destruct (has_edge g (fst e) (snd e)) eqn:E; [|discriminate].
  intros [= <-]. apply has_edge_In in E. destruct e; auto.
Qed.

Lemma remove_edge_exn_In g e :
  In e (edges g) -> remove_edge_exn g e = Some (remove_edge g (fst e) (snd e)).
Proof.
  intros H. unfold remove_edge_exn. destruct e as [u v].
  apply has_edge_In in H. simpl. rewrite H. reflexivity.
Qed.

(** ** Walks and [shortest_path] *)

Lemma In_successors g u w : In w (successors g u) <-> In (u, w) (edges g).
Proof.
  unfold successors, edges. rewrite !in_map_iff. split.
  - intros ([[a b] d] & <- & H). apply filter_In in H as [H E]. simpl in *.
    apply Nat.eqb_eq in E. subst a. exists ((u, b), d). auto.
  - intros ([[a b] d] & [= -> ->] & H). exists ((u, w), d). split; auto.
    apply filter_In. simpl. rewrite Nat.eqb_refl. auto.
Qed.

Lemma walk_head g u v p : walk g u v p -> exists tl, p = u :: tl.
Proof. destruct 1; eauto. Qed.

Lemma walk_last g u v p : walk g u v p -> last p 0 = v.
Proof.
  induction 1 as [|u w v p He Hw IH]; [reflexivity|].
  destruct (walk_head Hw) as [tl ->]. exact IH.
Qed.

Lemma walk_consecutive g u v p :
  walk g u v p -> forall e, In e (consecutive p) -> In e (edges g).
Proof.
  induction 1 as [|u w v p He Hw IH]; simpl; [tauto|].
  destruct (walk_head Hw) as [tl ->]. simpl.
  intros e [<-|H]; auto.
Qed.

Lemma path_within_sound g k : forall u v p,
  path_within g k u v = Some p -> walk g u v p /\ hops p <= k.
Proof.
  induction k as [|k IH]; intros u v p; simpl.
  - destruct (Nat.eqb_spec u v) as [->|]; [|discriminate].
    intros [= <-]. split; [apply walk_nil | unfold hops; simpl; lia].
  - destruct (Nat.eqb_spec u v) as [->|Hne].
    + intros [= <-]. split; [apply walk_nil | unfold hops; simpl; lia].
    + destruct (first_some _ _) as [q|] eqn:E; [|discriminate].
      intros [= <-]. apply first_some_Some in E as (w & Hw & Hq).
      apply IH in Hq as [Hwalk Hh]. apply In_successors in Hw. split.
      * econstructor; eauto.
      * destruct (walk_head Hwalk) as [tl ->]. unfold hops in *. simpl in *. lia.
Qed.

Lemma path_within_complete g u v p :
  walk g u v p -> forall k, hops p <= k -> exists q, path_within g k u v = Some q.
Proof.
  induction 1 as [u|u w v p He Hw IH]; intros k Hk.
  - destruct k; simpl; rewrite Nat.eqb_refl; eauto.
  - destruct (walk_head Hw) as [tl ->]. unfold hops in Hk; simpl in Hk.
    destruct k as [|k]; [lia|]. simpl.
    destruct (Nat.eqb_spec u v); [eauto|].
    destruct (IH k) as [q Hq]; [unfold hops; simpl; lia|].
    destruct (first_some (fun w0 => path_within g k w0 v) (successors g u)) eqn:E.
    + simpl; eauto.
    + apply first_some_None with (x := w) in E; [congruence|].
      apply In_successors; auto.
Qed.

Lemma search_from_Some g u v : forall fuel depth p,
  search_from g u v fuel depth = Some p ->
  exists k, depth <= k <= depth + fuel /\ path_within g k u v = Some p /\
            forall j, depth <= j < k -> path_within g j u v = None.
Proof.
  induction fuel as [|fuel IH]; intros depth p; simpl.
  - destruct (path_within g depth u v) eqn:E; [|discriminate].
    intros [= <-]. exists depth. repeat split; try lia; auto.
  - destruct (path_within g depth u v) eqn:E.
    + intros [= <-]. exists depth. repeat split; try lia; auto.
    + intros H. apply IH in H as (k & Hk & Hp & Hmin).
      exists k. repeat split; try lia; auto.
      intros j Hj. destruct (Nat.eq_dec j depth) as [->|]; auto. apply Hmin; lia.
Qed.

Lemma search_from_None g u v : forall fuel depth,
  search_from g u v fuel depth = None ->
  forall j, depth <= j <= depth + fuel -> path_within g j u v = None.
Proof.
  induction fuel as [|fuel IH]; intros depth; simpl.
  - destruct (path_within g depth u v) eqn:E; [discriminate|].
    intros _ j Hj. replace j with depth by lia. auto.
  - destruct (path_within g depth u v) eqn:E; [discriminate|].
    intros H j Hj. destruct (Nat.eq_dec j depth) as [->|]; auto.
    apply (IH _ H). lia.
Qed.

(** The path that [shortest_path] returns is a walk with the fewest edges. *)
Lemma shortest_path_sound g u v p :
  shortest_path g u v = Some p ->
  walk g u v p /\ forall q, walk g u v q -> hops p <= hops q.
Proof.
  unfold shortest_path. intros H.
  apply search_from_Some in H as (k & Hk & Hp & Hmin).
  apply path_within_sound in Hp as [Hw Hh]. split; auto.
  intros q Hq. destruct (Nat.le_gt_cases k (hops q)) as [|Hlt]; [lia|].
  destruct (path_within_complete Hq (k := hops q)) as [q' Hq']; [lia|].
  rewrite Hmin in Hq'; [discriminate | lia].
Qed.

Lemma walk_suffix g w v q1 u q2 :
  walk g w v (q1 ++ u :: q2) -> walk g u v (u :: q2).
Proof.
  revert w. induction q1 as [|a q1 IH]; intros w H; simpl in *.
  - destruct (walk_head H) as [tl E]. injection E as -> _. exact H.
  - inversion H; subst.
    + destruct q1; discriminate.
    + eauto.
Qed.

(** Cutting the cycles out of a walk. *)
Lemma walk_simple g u v p :
  walk g u v p -> exists q, walk g u v q /\ NoDup q /\ List.length q <= List.length p.
Proof.
  induction 1 as [u|u w v p He Hw IH].
  - exists [u]. repeat split; [apply walk_nil | | lia].
    constructor; [simpl; tauto | constructor].
  - destruct IH as (q & Hq & Hnd & Hlen).
    destruct (in_dec Nat.eq_dec u q) as [Hin|Hnin].
    + apply in_split in Hin as (q1 & q2 & ->).
      exists (u :: q2). split; [eapply walk_suffix; eauto|]. split.
      * apply NoDup_app_remove_l in Hnd. exact Hnd.
      * rewrite length_app in Hlen. simpl in *. lia.
    + exists (u :: q). repeat split; [econstructor; eauto | constructor; auto | simpl; lia].
Qed.

Lemma consecutive_cons a b tl : consecutive (a :: b :: tl) = (a, b) :: consecutive (b :: tl).
Proof. reflexivity. Qed.

Lemma length_consecutive p : List.length (consecutive p) = hops p.
Proof.
  unfold consecutive, hops. rewrite length_combine.
  destruct p; cbn [List.length tl pred]; lia.
Qed.

Lemma consecutive_fst_In p e : In e (consecutive p) -> In (fst e) p.
Proof.
  induction p as [|a [|b tl] IH]; simpl; try tauto.
  intros [<-|H]; [simpl; auto|]. right. apply IH. exact H.
Qed.

Lemma consecutive_NoDup p : NoDup p -> NoDup (consecutive p).
Proof.
  induction p as [|a p IH]; [constructor|].
  destruct p as [|b tl]; [constructor|].
  rewrite consecutive_cons. intros Hnd. inversion Hnd as [|? ? Hnin Hnd']; subst.
  apply NoDup_cons.
  - intros H. apply consecutive_fst_In in H. exact (Hnin H).
  - apply IH. exact Hnd'.
Qed.

(** A walk without repeated nodes uses every edge at most once. *)
Lemma simple_walk_bound g u v q :
  walk g u v q -> NoDup q -> hops q <= List.length (adj g).
Proof.
  intros Hw Hnd. rewrite <- length_consecutive.
  replace (List.length (adj g)) with (List.length (edges g))
    by (unfold edges; apply length_map).
  apply NoDup_incl_length; [apply consecutive_NoDup; auto|].
  intros e He. eapply walk_consecutive; eauto.
Qed.

(** [shortest_path] finds a path whenever there is a walk. *)
Lemma shortest_path_complete g u v q :
  walk g u v q -> exists p, shortest_path g u v = Some p.
Proof.
  intros Hw. destruct (shortest_path g u v) as [p|] eqn:E; [eauto|exfalso].
  destruct (walk_simple Hw) as (q' & Hq' & Hnd & _).
  pose proof (simple_walk_bound Hq' Hnd) as Hb.
  unfold shortest_path in E.
  pose proof (@search_from_None _ _ _ _ _ E (hops q')) as Hn.
  destruct (path_within_complete Hq' (k := hops q')) as [r Hr]; [lia|].
  rewrite Hn in Hr; [discriminate | lia].
Qed.

Lemma has_path_walk g u v : has_path g u v = true <-> exists p, walk g u v p.
Proof.
  unfold has_path. split.
  - destruct (shortest_path g u v) as [p|] eqn:E; [|discriminate].
    intros _. exists p. apply shortest_path_sound; auto.
  - intros [p Hp]. destruct (shortest_path_complete Hp) as [q ->]. reflexivity.
Qed.

Lemma walk_length g u v p : walk g u v p -> List.length p = S (hops p).
Proof. intros H. destruct (walk_head H) as [tl ->]. reflexivity. Qed.

(** The test of the redundancy filter, [has_path] and a shortest path of
    at most [n + 1] nodes, holds exactly when some walk has at most [n]
    edges. *)
Lemma short_path_iff g u v n :
  (has_path g u v = true /\
   exists p, shortest_path g u v = Some p /\ List.length p <= S n)
  <-> exists q, walk g u v q /\ hops q <= n.
Proof.
  split.
  - intros (_ & p & Hp & Hlen). apply shortest_path_sound in Hp as [Hw _].
    exists p. split; auto. rewrite (walk_length Hw) in Hlen. lia.
  - intros (q & Hq & Hh). destruct (shortest_path_complete Hq) as [p Hp].
    split; [unfold has_path; rewrite Hp; reflexivity|].
    exists p. split; auto. apply shortest_path_sound in Hp as [Hw Hmin].
    rewrite (walk_length Hw). specialize (Hmin _ Hq). lia.
Qed.

(** ** Courses *)

Lemma Qltb_lt x y : Qltb x y = true <-> (x < y)%Q.
Proof.
  unfold Qltb. rewrite negb_true_iff. split.
  - intros H. apply Qnot_le_lt. intros Hle. apply Qle_bool_iff in Hle. congruence.
  - intros H. destruct (Qle_bool y x) eqn:E; auto.
    apply Qle_bool_iff in E. exfalso. eapply Qlt_not_le; eauto.
Qed.

Lemma Qltb_ge x y : Qltb x y = false <-> (y <= x)%Q.
Proof.
  unfold Qltb. rewrite negb_false_iff. apply Qle_bool_iff.
Qed.

Lemma Qfloor_unique (y : Q) (k : Z) :
  (inject_Z k <= y)%Q -> (y < inject_Z k + 1)%Q -> Qfloor y = k.
Proof.
  intros H1 H2.
  pose proof (Qfloor_le y) as F1. pose proof (Qlt_floor y) as F2.
  assert (A : (inject_Z k < inject_Z (Qfloor y + 1))%Q) by (eapply Qle_lt_trans; eauto).
  assert (B : (inject_Z (Qfloor y) < inject_Z (k + 1))%Q).
  { eapply Qle_lt_trans; eauto. rewrite inject_Z_plus. exact H2. }
  rewrite <- Zlt_Qlt in A, B. lia.
Qed.

(** [Qmod x 360] is the remainder of [x] in [[0, 360)]. *)
Lemma Qmod_unique (x r : Q) (k : Z) :
  (x == 360 * inject_Z k + r)%Q -> (0 <= r)%Q -> (r < 360)%Q -> (Qmod x 360 == r)%Q.
Proof.
  intros Hx H0 H1. unfold Qmod.
  assert (F : Qfloor (x / 360) = k).
  { apply Qfloor_unique.
    - apply Qle_shift_div_l; [reflexivity|]. rewrite Hx. lra.
    - apply Qlt_shift_div_r; [reflexivity|]. rewrite Hx. lra. }
  rewrite F, Hx. lra.
Qed.

Lemma Qmod_range (x : Q) :
  (0 <= Qmod x 360 < 360)%Q /\ (x == 360 * inject_Z (Qfloor (x / 360)) + Qmod x 360)%Q.
Proof.
  unfold Qmod.
  pose proof (Qfloor_le (x / 360)) as F1. pose proof (Qlt_floor (x / 360)) as F2.
  rewrite inject_Z_plus in F2.
  assert (E : (x == 360 * (x / 360))%Q) by (field).
  change (inject_Z 1) with 1%Q in F2.
  set (f := inject_Z (Qfloor (x / 360))) in *.
  set (y := (x / 360)%Q) in *.
  clearbody f y.
  repeat split; lra.
Qed.

(** The absolute value of the angle that [prune_graph] computes is the
    circular distance between the two courses. *)
Lemma angle_between_circular (a b : Q) :
  (Qabs (angle_between a b) == circular_distance a b)%Q.
Proof.
  unfold angle_between, circular_distance.
  destruct (Qmod_range (a - b)) as ((H0 & H1) & Hx).
  set (m := Qmod (a - b) 360) in *.
  set (k := Qfloor ((a - b) / 360)) in *.
  clearbody m k.
  destruct (Qlt_le_dec (a - b + 180) 0) as [Hneg|Hpos];
    destruct (Qlt_le_dec 180 m) as [Hbig|Hsmall].
  - assert (Hr : (Qmod (Qabs (a - b + 180)) 360 == 540 - m)%Q).
    { apply Qmod_unique with (k := (- k - 2)%Z); try lra.
      rewrite Qabs_neg by lra.
      unfold Zminus. rewrite !inject_Z_plus, !inject_Z_opp.
      change (inject_Z 2) with 2%Q. lra. }
    rewrite Hr, Qabs_pos by lra. rewrite Q.min_r by lra. lra.
  - assert (Hr : (Qmod (Qabs (a - b + 180)) 360 == 180 - m)%Q).
    { apply Qmod_unique with (k := (- k - 1)%Z); try lra.
      rewrite Qabs_neg by lra.
      unfold Zminus. rewrite !inject_Z_plus, !inject_Z_opp.
      change (inject_Z 1) with 1%Q. lra. }
    rewrite Hr, Qabs_neg by lra. rewrite Q.min_l by lra. lra.
  - assert (Hr : (Qmod (Qabs (a - b + 180)) 360 == m - 180)%Q).
    { apply Qmod_unique with (k := (k + 1)%Z); try lra.
      rewrite Qabs_pos by lra.
      rewrite !inject_Z_plus. change (inject_Z 1) with 1%Q. lra. }
    rewrite Hr, Qabs_neg by lra. rewrite Q.min_r by lra. lra.
  - destruct (Qlt_le_dec m 180) as [Hlt|Hge].
    + assert (Hr : (Qmod (Qabs (a - b + 180)) 360 == m + 180)%Q).
      { apply Qmod_unique with (k := k); try lra.
        rewrite Qabs_pos by lra. lra. }
      rewrite Hr, Qabs_pos by lra. rewrite Q.min_l by lra. lra.
    + assert (Hr : (Qmod (Qabs (a - b + 180)) 360 == 0)%Q).
      { apply Qmod_unique with (k := (k + 1)%Z); try lra.
        rewrite Qabs_pos by lra.
        rewrite !inject_Z_plus. change (inject_Z 1) with 1%Q. lra. }
      rewrite Hr, Qabs_neg by lra. rewrite Q.min_l by lra. lra.
Qed.

(** ** Removing several edges *)

Lemma unique_edgesb_NoDup l : unique_edgesb l = true <-> NoDup l.
Proof.
  induction l as [|e l IH]; simpl.
  - split; [constructor | reflexivity].
  - rewrite andb_true_iff, negb_true_iff, IH. split.
    + intros [H1 H2]. constructor; auto. intros Hin.
      apply mem_edge_In in Hin. congruence.
    + intros H. inversion H as [|? ? Hnin Hnd]; subst. split; auto.
      destruct (mem_edge e l) eqn:E; auto. apply mem_edge_In in E. tauto.
Qed.

Lemma remove_edges_from_cons g e m :
  remove_edges_from g (e :: m) = remove_edges_from (remove_edge g (fst e) (snd e)) m.
Proof. reflexivity. Qed.

Lemma nodes_remove_edges_from m : forall g, nodes (remove_edges_from g m) = nodes g.
Proof.
  induction m as [|e m IH]; intros g; [reflexivity|].
  rewrite remove_edges_from_cons, IH. reflexivity.
Qed.

Lemma adj_remove_edges_from_incl m : forall g, incl (adj (remove_edges_from g m)) (adj g).
Proof.
  induction m as [|e m IH]; intros g; [apply incl_refl|].
  rewrite remove_edges_from_cons. eapply incl_tran; [apply IH|].
  apply adj_remove_edge_incl.
Qed.

Lemma In_edges_remove_edges_from m : forall g x,
  In x (edges (remove_edges_from g m)) <-> In x (edges g) /\ ~ In x m.
Proof.
  induction m as [|e m IH]; intros g x.
  - simpl. tauto.
  - rewrite remove_edges_from_cons, IH, In_edges_remove_edge.
    destruct e as [u v]; simpl. intuition congruence.
Qed.

Lemma get_edge_remove_edges_from m : forall g u v,
  ~ In (u, v) m -> get_edge (remove_edges_from g m) u v = get_edge g u v.
Proof.
  induction m as [|e m IH]; intros g u v Hnin; [reflexivity|].
  rewrite remove_edges_from_cons, IH by (simpl in Hnin; tauto).
  apply get_edge_remove_other. destruct e; simpl in *. intuition congruence.
Qed.

(** ** The three loops of [prune_graph] *)

Lemma get_edge_of_In g e : In e (edges g) -> exists d, get_edge g (fst e) (snd e) = Some d.
Proof.
  intros H. destruct e as [u v]. unfold get_edge, edges in *.
  apply assoc_In_keys. exact H.
Qed.

Lemma direction_step_spec g e m :
  In e (edges g) ->
  direction_step g e m = Some (if violates_direction g e then m ++ [e] else m).
Proof.
  intros H. destruct (get_edge_of_In _ _ H) as [d Hd].
  unfold direction_step, violates_direction. rewrite Hd.
  destruct (node_attr g (fst e) cog_after), (node_attr g (snd e) cog_before); auto.
  destruct (_ && _); reflexivity.
Qed.

(** The direction filter marks exactly the edges that violate the traffic
    direction, in iteration order. *)
Lemma direction_loop g : forall l m,
  (forall e, In e l -> In e (edges g)) ->
  for_each (direction_step g) l m = Some (m ++ filter (violates_direction g) l).
Proof.
  induction l as [|e l IH]; intros m Hl; simpl.
  - rewrite app_nil_r. reflexivity.
  - rewrite direction_step_spec by (apply Hl; simpl; auto).
    rewrite IH by (intros; apply Hl; simpl; auto).
    destruct (violates_direction g e); [rewrite <- app_assoc|]; reflexivity.
Qed.

Lemma redundancy_step_spec g mp e gt m :
  In e (edges g) -> In e (edges gt) ->
  exists m',
    redundancy_step g mp e (gt, m) =
      Some (if low_traffic g mp e then remove_edge gt (fst e) (snd e) else gt, m') /\
    (forall x, In x m' <->
               In x m \/ (x = e /\ low_traffic g mp e = true /\
                          short_detour (remove_edge gt (fst e) (snd e)) e)) /\
    (NoDup m -> NoDup m').
Proof.
  intros Hg Ht. destruct (get_edge_of_In _ _ Hg) as [d Hd].
  unfold redundancy_step, low_traffic. rewrite Hd.
  destruct (weight d <? mp)%Z eqn:Hlow.
  2:{ exists m. repeat split; auto. intros [?|(_ & ? & _)]; [auto|discriminate]. }
  rewrite (remove_edge_exn_In _ _ Ht).
  set (gt' := remove_edge gt (fst e) (snd e)).
  pose proof (short_path_iff gt' (fst e) (snd e) 4) as Hiff.
  destruct (has_path gt' (fst e) (snd e)) eqn:Hhp.
  - destruct (shortest_path gt' (fst e) (snd e)) as [p|] eqn:Hsp;
      [|unfold has_path in Hhp; rewrite Hsp in Hhp; discriminate].
    destruct (Nat.leb_spec (List.length p) 5) as [Hle|Hgt].
    + assert (Hdet : short_detour gt' e) by (apply Hiff; split; eauto).
      destruct (mem_edge e m) eqn:Hmem; simpl.
      * exists m. repeat split; auto. intros [?|(-> & _)]; auto.
        apply mem_edge_In; auto.
      * exists (m ++ [e]). repeat split.
        -- intros Hx. apply in_app_iff in Hx as [?|[<-|[]]]; auto.
        -- intros [?|(-> & _)]; apply in_app_iff; simpl; auto.
        -- intros Hnd. apply NoDup_app; auto.
           ++ constructor; [simpl; tauto | constructor].
           ++ intros x Hx [<-|[]]. apply mem_edge_In in Hx. congruence.
    + exists m. repeat split; auto. intros [?|(_ & _ & Hdet)]; auto.
      apply Hiff in Hdet as (_ & p' & Hp' & Hlen).
      injection Hp' as <-. lia.
  - exists m. repeat split; auto. intros [?|(_ & _ & Hdet)]; auto.
    apply Hiff in Hdet as (Hhp' & _). congruence.
Qed.

(** The redundancy filter: every low-traffic edge is removed from the
    working copy when its turn comes, and an edge is appended to the marked
    list when it is low-traffic, has a short detour in the working copy and
    is not in the list yet. *)
Lemma redundancy_loop g mp : forall l gt m,
  NoDup l ->
  (forall e, In e l -> In e (edges g) /\ In e (edges gt)) ->
  exists m',
    for_each (redundancy_step g mp) l (gt, m) =
      Some (remove_edges_from gt (filter (low_traffic g mp) l), m') /\
    (forall x, In x m' <->
               In x m \/
               exists l1 l2, l = l1 ++ x :: l2 /\ low_traffic g mp x = true /\
                 short_detour
                   (remove_edges_from gt (filter (low_traffic g mp) (l1 ++ [x]))) x) /\
    (NoDup m -> NoDup m').
Proof.
  induction l as [|e l IH]; intros gt m Hnd Hin.
  - exists m. simpl. repeat split; auto.
    intros [?|(l1 & l2 & E & _)]; auto. destruct l1; discriminate.
  - inversion Hnd as [|? ? Hnin Hnd']; subst.
    destruct (Hin e) as [Hg Ht]; [simpl; auto|].
    destruct (@redundancy_step_spec g mp e gt m Hg Ht) as (m1 & Hstep & Hm1 & Hnd1).
    set (gt1 := if low_traffic g mp e then remove_edge gt (fst e) (snd e) else gt) in *.
    assert (Hin1 : forall e', In e' l -> In e' (edges g) /\ In e' (edges gt1)).
    { intros e' He'. destruct (Hin e') as [? ?]; [simpl; auto|]. split; auto.
      unfold gt1. destruct (low_traffic g mp e); auto.
      destruct e as [u v]. apply In_edges_remove_edge. split; auto.
      intros ->. tauto. }
    destruct (IH gt1 m1 Hnd' Hin1) as (m' & Hloop & Hm' & Hnd2).
    assert (Hgt : forall k, remove_edges_from gt (filter (low_traffic g mp) (e :: k))
                            = remove_edges_from gt1 (filter (low_traffic g mp) k)).
    { intros k. unfold gt1. simpl. destruct (low_traffic g mp e); reflexivity. }
    exists m'. rewrite for_each_cons, Hstep, Hloop. split; [|split].
    + rewrite Hgt. reflexivity.
    + intros x. rewrite Hm', Hm1. split.
      * intros [[?|(-> & Hlow & Hdet)]|(l1 & l2 & -> & Hlow & Hdet)]; auto.
        -- right. exists [], l. repeat split; auto. simpl. rewrite Hlow. exact Hdet.
        -- right. exists (e :: l1), l2. repeat split; auto.
           change ((e :: l1) ++ [x]) with (e :: (l1 ++ [x])). rewrite Hgt. exact Hdet.
      * intros [?|(l1 & l2 & E & Hlow & Hdet)]; auto.
        destruct l1 as [|a l1]; simpl in E; injection E as -> ->.
        -- left. right. repeat split; auto. simpl in Hdet. rewrite Hlow in Hdet.
           exact Hdet.
        -- right. exists l1, l2. repeat split; auto.
           change ((a :: l1) ++ [x]) with (a :: (l1 ++ [x])) in Hdet.
           rewrite Hgt in Hdet. exact Hdet.
    + auto.
Qed.

Lemma removal_loop : forall m g c,
  NoDup m -> (forall e, In e m -> In e (edges g)) ->
  for_each removal_step m (g, c) =
    Some (remove_edges_from g m, fold_left (fun t e => drop_connection e t) m c).
Proof.
  induction m as [|e m IH]; intros g c Hnd Hin; [reflexivity|].
  inversion Hnd as [|? ? Hnin Hnd']; subst.
  rewrite for_each_cons. unfold removal_step at 1. cbn [fst snd].
  rewrite remove_edge_exn_In by (apply Hin; simpl; auto).
  rewrite IH; auto.
  intros e' He'. destruct e as [u v]. apply In_edges_remove_edge. split.
  - apply Hin; simpl; auto.
  - intros ->. tauto.
Qed.

(** What [prune_graph] marks, and what it returns: on a graph with at
    most one edge per ordered pair the three loops raise nothing. *)
Lemma prune_spec g connections mp :
  unique_edges g = true ->
  exists marked,
    marked_edges g mp = Some marked /\
    prune g connections mp =
      Some (remove_edges_from g marked,
            fold_left (fun t e => drop_connection e t) marked connections) /\
    forall pre e post, edges g = pre ++ e :: post ->
      (In e marked <->
       violates_direction g e = true \/
       (low_traffic g mp e = true /\ short_detour (working_copy g mp pre e) e)).
Proof.
  intros Hu. apply unique_edgesb_NoDup in Hu.
  unfold prune, marked_edges.
  rewrite direction_loop by auto. simpl app.
  destruct (@redundancy_loop g mp (edges g) g (filter (violates_direction g) (edges g)) Hu)
    as (m' & Hloop & Hm' & Hnd); [auto|].
  rewrite Hloop. simpl option_map. exists m'. split; [reflexivity|]. split.
  - apply removal_loop.
    + apply Hnd. apply NoDup_filter. exact Hu.
    + intros e He. apply Hm' in He as [He|(l1 & l2 & E & _)].
      * apply filter_In in He. tauto.
      * rewrite E. apply in_app_iff. simpl. auto.
  - intros pre e post E. rewrite Hm', filter_In. split.
    + intros [[_ ?]|(l1 & l2 & E' & Hlow & Hdet)]; auto.
      right. split; auto. unfold working_copy.
      assert (l1 = pre); [|subst; auto].
      rewrite E in E', Hu.
      clear - E' Hu. revert l1 E'. induction pre as [|a pre IH]; intros l1 E'.
      * destruct l1 as [|b l1]; auto. simpl in *. injection E' as -> E'.
        inversion Hu as [|? ? Hnin _]; subst. exfalso. apply Hnin.
        apply in_app_iff; simpl; auto.
      * destruct l1 as [|b l1]; simpl in *; injection E' as -> E'.
        -- inversion Hu as [|? ? Hnin _]; subst. exfalso. apply Hnin.
           apply in_app_iff; simpl; auto.
        -- f_equal. apply IH; auto. inversion Hu; auto.
    + intros [Hv|[Hlow Hdet]].
      * left. split; auto. rewrite E. apply in_app_iff; simpl; auto.
      * right. exists pre, post. auto.
Qed.

(** ** Properties of [prune_graph] *)

Lemma prune_graph_selected self mp graph g connections :
  graph = "original"%string \/ graph = "refined"%string ->
  selected_snapshot self graph = (Some g, Some connections) ->
  prune_graph self mp graph =
  match prune g connections mp with
  | None => None
  | Some (g_pruned, connections_pruned) =>
      Some (mk_MTN (waypoints self) (waypoint_connections self)
              (Some connections_pruned) (waypoint_connections_refined self)
              (G self) (Some g_pruned) (G_refined self))
  end.
Proof.
  unfold selected_snapshot, prune_graph.
  intros [-> | ->]; simpl; intros [= -> ->]; reflexivity.
Qed.

(** C5.  For every graph snapshot and every [min_passages], [prune_graph]
    returns, the pruned graph has the node table of the input graph (isolated
    nodes included), its edges are edges of the input graph, and the raw and
    the refined snapshot of the object are the ones it had before. *)
Theorem prune_graph_frame self mp graph g connections :
  graph = "original"%string \/ graph = "refined"%string ->
  selected_snapshot self graph = (Some g, Some connections) ->
  unique_edges g = true ->
  exists self' g_pruned,
    prune_graph self mp graph = Some self' /\
    G_pruned self' = Some g_pruned /\
    nodes g_pruned = nodes g /\
    incl (adj g_pruned) (adj g) /\
    G self' = G self /\
    G_refined self' = G_refined self /\
    waypoint_connections self' = waypoint_connections self /\
    waypoint_connections_refined self' = waypoint_connections_refined self /\
    waypoints self' = waypoints self.
Proof.
  intros Hgraph Hsel Hu.
  destruct (@prune_spec g connections mp Hu) as (marked & _ & Hprune & _).
  rewrite (@prune_graph_selected self mp graph g connections Hgraph Hsel), Hprune.
  eexists. exists (remove_edges_from g marked). split; [reflexivity|].
  simpl. repeat split; auto using nodes_remove_edges_from, adj_remove_edges_from_incl.
Qed.

Lemma prune_graph_frame_witness :
  exists self' g_pruned,
    prune_graph triangle_network 2 "original" = Some self' /\
    G_pruned self' = Some g_pruned /\
    nodes g_pruned = nodes triangle_graph /\
    incl (adj g_pruned) (adj triangle_graph) /\
    G self' = G triangle_network /\
    G_refined self' = G_refined triangle_network /\
    waypoint_connections self' = waypoint_connections triangle_network /\
    waypoint_connections_refined self' = waypoint_connections_refined triangle_network /\
    waypoints self' = waypoints triangle_network.
Proof.
  apply (@prune_graph_frame triangle_network 2%Z "original"%string
           triangle_graph triangle_connections).
  - left; reflexivity.
  - reflexivity.
  - reflexivity.
Defined.

Lemma violates_direction_false g e d a b :
  get_edge g (fst e) (snd e) = Some d ->
  node_attr g (fst e) cog_after = Some a ->
  node_attr g (snd e) cog_before = Some b ->
  (circular_distance a (direction d) <= 90)%Q ->
  violates_direction g e = false.
Proof.
  intros Hd Ha Hb Hc. unfold violates_direction. rewrite Hd, Ha, Hb.
  apply andb_false_iff. left. apply Qltb_ge.
  rewrite angle_between_circular. exact Hc.
Qed.

(** C4.  [prune_graph] keeps every edge [(u, v)] whose weight is at least
    [min_passages] and whose direction is within 90 degrees, in circular
    distance, of the course-after of [u] and of the course-before of [v],
    both attributes being present. *)
Theorem prune_graph_keeps_consistent_edge self mp graph g connections u v d a b :
  graph = "original"%string \/ graph = "refined"%string ->
  selected_snapshot self graph = (Some g, Some connections) ->
  unique_edges g = true ->
  get_edge g u v = Some d ->
  (mp <= weight d)%Z ->
  node_attr g u cog_after = Some a ->
  node_attr g v cog_before = Some b ->
  (circular_distance a (direction d) <= 90)%Q ->
  (circular_distance b (direction d) <= 90)%Q ->
  exists self' g_pruned,
    prune_graph self mp graph = Some self' /\
    G_pruned self' = Some g_pruned /\
    get_edge g_pruned u v = Some d.
Proof.
  intros Hgraph Hsel Hu Hd Hw Ha Hb Hca Hcb.
  destruct (@prune_spec g connections mp Hu) as (marked & _ & Hprune & Hmarked).
  rewrite (@prune_graph_selected self mp graph g connections Hgraph Hsel), Hprune.
  eexists. exists (remove_edges_from g marked). split; [reflexivity|].
  split; [reflexivity|].
  rewrite get_edge_remove_edges_from; auto.
  assert (Hin : In (u, v) (edges g)).
  { apply has_edge_In. unfold has_edge. rewrite Hd. reflexivity. }
  apply in_split in Hin as (pre & post & E).
  rewrite (Hmarked _ _ _ E).
  rewrite (@violates_direction_false g (u, v) d a b); auto.
  unfold low_traffic. simpl. rewrite Hd.
  intros [?|[Hlow _]]; [discriminate|].
  apply Z.ltb_lt in Hlow. lia.
Qed.

Lemma prune_graph_keeps_consistent_edge_witness :
  exists self' g_pruned,
    prune_graph triangle_network 2 "original" = Some self' /\
    G_pruned self' = Some g_pruned /\
    get_edge g_pruned 0 1 = Some (northbound 5).
Proof.
  apply (@prune_graph_keeps_consistent_edge triangle_network 2%Z "original"%string
           triangle_graph triangle_connections 0 1 (northbound 5) 0%Q 0%Q).
  - left; reflexivity.
  - reflexivity.
  - reflexivity.
  - reflexivity.
  - simpl. lia.
  - reflexivity.
  - reflexivity.
  - vm_compute. discriminate.
  - vm_compute. discriminate.
Defined.

Lemma is_valid_path_walk g : forall p u,
  is_valid_path g (u :: p) = true -> walk g u (last (u :: p) 0) (u :: p).
Proof.
  unfold is_valid_path. simpl negb. simpl andb.
  induction p as [|w p IH]; intros u H.
  - apply walk_nil.
  - rewrite consecutive_cons in H. simpl forallb in H.
    apply andb_true_iff in H as [He Hp].
    apply walk_cons with (w := w).
    + apply has_edge_In. exact He.
    + apply IH in Hp. exact Hp.
Qed.

(** C3 (as amended).  The redundancy filter visits every edge, whether the
    direction filter marked it or not, and removes each edge of weight below
    [min_passages] from the working copy when it is visited.  After both
    filters an edge [(u, v)] is marked exactly when the direction filter
    marked it, or its weight is below [min_passages] and the working copy,
    from which [(u, v)] and all low-weight edges visited before it are gone,
    still has a walk from [u] to [v] of at most 4 edges (5 nodes). *)
Theorem redundancy_filter_marks g mp pre u v post d :
  unique_edges g = true ->
  edges g = pre ++ (u, v) :: post ->
  get_edge g u v = Some d ->
  exists marked,
    marked_edges g mp = Some marked /\
    (In (u, v) marked <->
     violates_direction g (u, v) = true \/
     ((weight d < mp)%Z /\
      exists q, walk (working_copy g mp pre (u, v)) u v q /\ List.length q <= 5)).
Proof.
  intros Hu E Hd.
  destruct (@prune_spec g [] mp Hu) as (marked & Hm & _ & Hmarked).
  exists marked. split; [exact Hm|].
  rewrite (Hmarked _ _ _ E). unfold low_traffic, short_detour. simpl fst; simpl snd.
  rewrite Hd, Z.ltb_lt.
  split; (intros [?|[Hlow (q & Hq & Hh)]]; [left; assumption|right]);
    (split; [exact Hlow|]); exists q; (split; [exact Hq|]);
    rewrite (walk_length Hq) in *; lia.
Qed.

Lemma redundancy_filter_marks_witness :
  exists marked,
    marked_edges southbound_graph 2 = Some marked /\
    (In (0, 2) marked <->
     violates_direction southbound_graph (0, 2) = true \/
     ((weight (northbound 1) < 2)%Z /\
      exists q, walk (working_copy southbound_graph 2 [(0, 1); (1, 2)] (0, 2)) 0 2 q
                /\ List.length q <= 5)).
Proof.
  apply (@redundancy_filter_marks southbound_graph 2%Z [(0, 1); (1, 2)] 0 2 []
           (northbound 1)).
  - reflexivity.
  - reflexivity.
  - reflexivity.
Defined.

(** C3 as stated fails: the direct edge [0 -> 5] of [detour_graph] is not
    marked by the direction filter, has fewer than 2 passages and, once it is
    removed, a path of 5 edges from 0 to 5 remains; the filter does not mark
    it. *)
Lemma redundancy_filter_five_edge_detour :
  marked_edges detour_graph 2 = Some [] /\ ~ spec_redundancy_rule detour_graph 2 [].
Proof.
  split; [reflexivity|].
  intros H.
  specialize (H [] (0, 5) [(0, 1); (1, 2); (2, 3); (3, 4); (4, 5)] eq_refl eq_refl).
  destruct H as [_ H]. apply H. split; [reflexivity|].
  exists [0; 1; 2; 3; 4; 5]. split; [|unfold hops; simpl; lia].
  apply (@is_valid_path_walk _ [1; 2; 3; 4; 5] 0). reflexivity.
Qed.

(** The direction filter marks [0 -> 1] of [southbound_graph]; the
    redundancy filter still removes that edge from its working copy, so the
    detour [0 -> 1 -> 2] is gone when [0 -> 2] is tested and [0 -> 2] stays
    unmarked. *)
Example marked_edge_leaves_working_copy :
  marked_edges southbound_graph 2 = Some [(0, 1)] /\
  has_edge (working_copy southbound_graph 2 [(0, 1); (1, 2)] (0, 2)) 0 1 = false /\
  ~ spec_redundancy_rule southbound_graph 2 [(0, 1)].
Proof.
  split; [reflexivity|]. split; [reflexivity|].
  intros H. specialize (H [(0, 1); (1, 2)] (0, 2) [] eq_refl eq_refl).
  destruct H as [_ H].
  assert (Hin : In (0, 2) [(0, 1)]).
  { apply H. split; [reflexivity|]. exists [0; 1; 2]. split; [|unfold hops; simpl; lia].
    apply (@is_valid_path_walk _ [1; 2] 0). reflexivity. }
  simpl in Hin. intuition discriminate.
Qed.

(** ** Properties of [make_graph_from_waypoints] *)

Lemma count_passage_ok e cd :
  fst e <> snd e -> counts_ok cd -> counts_ok (count_passage e cd).
Proof.
  intros He. induction cd as [|[k c] cd IH]; intros Hok; simpl.
  - intros k c [[= <- <-]|[]]. split; [auto|lia].
  - destruct (edge_eqb_spec k e) as [->|Hne].
    + intros k' c' [[= <- <-]|Hin].
      * destruct (Hok e c) as [? ?]; [simpl; auto|]. split; [auto|lia].
      * apply Hok. simpl; auto.
    + intros k' c' [[= <- <-]|Hin].
      * apply Hok. simpl; auto.
      * apply IH; auto. intros k0 c0 H0. apply Hok. simpl; auto.
Qed.

Lemma add_passages_ok passages cd : counts_ok cd -> counts_ok (add_passages passages cd).
Proof.
  unfold add_passages. destruct (1 <? List.length passages); auto.
  revert cd. induction (consecutive passages) as [|rc l IH]; intros cd Hok; simpl; auto.
  apply IH. destruct (Nat.eqb_spec (fst rc) (snd rc)); simpl; auto.
  apply count_passage_ok; auto.
Qed.

Lemma count_connections_ok {geo : Geometry} wps trajectories max_distance max_angle :
  counts_ok (count_connections wps trajectories max_distance max_angle).
Proof.
  unfold count_connections.
  assert (H : counts_ok []) by (intros ? ? []).
  revert H. generalize (@nil (nat * nat * Z)).
  induction trajectories as [|t l IH]; intros cd Hok; simpl; auto.
  apply IH. apply add_passages_ok. exact Hok.
Qed.

Lemma edge_entry_spec {geo : Geometry} wps kc :
  fst (edge_entry wps kc) = fst kc /\ weight (snd (edge_entry wps kc)) = snd kc /\
  inverse_weight (snd (edge_entry wps kc)) = (1 / inject_Z (snd kc))%Q.
Proof.
  unfold edge_entry. destruct (straight_edge wps (fst (fst kc)) (snd (fst kc))) as [[? ?] ?].
  simpl. auto.
Qed.

Lemma make_graph_edges {geo : Geometry} self trajectories max_distance max_angle self' g :
  make_graph_from_waypoints self trajectories max_distance max_angle = Some self' ->
  G self' = Some g ->
  forall kd, In kd (adj g) ->
    exists kc, In kc (count_connections (waypoints self) trajectories max_distance max_angle)
               /\ kd = edge_entry (waypoints self) kc.
Proof.
  unfold make_graph_from_waypoints.
  destruct (count_connections _ _ _ _) as [|kc0 cd] eqn:E; [discriminate|].
  remember (kc0 :: cd) as coord_dict eqn:Ecd.
  destruct (_ && _); [|discriminate].
  intros [= <-]. cbn [G]. intros [= <-]. cbn [adj]. intros kd Hin.
  apply in_flat_map in Hin as (u & _ & Hin).
  apply in_map_iff in Hin as (kc & <- & Hin).
  apply filter_In in Hin as [Hin _]. exists kc. auto.
Qed.

(** C6.  The graph that [make_graph_from_waypoints] builds has no
    self-loop, and the weight of every edge is an integer that is at least
    1. *)
Theorem make_graph_no_self_loop {geo : Geometry}
  self trajectories max_distance max_angle self' g u v d :
  make_graph_from_waypoints self trajectories max_distance max_angle = Some self' ->
  G self' = Some g ->
  In ((u, v), d) (adj g) ->
  u <> v /\ (1 <= weight d)%Z.
Proof.
  intros Hmake HG Hin.
  destruct (make_graph_edges _ _ _ _ Hmake HG _ Hin) as (kc & Hkc & E).
  destruct (edge_entry_spec (waypoints self) kc) as (Hk & Hw & _).
  rewrite <- E in Hk, Hw. simpl in Hk, Hw.
  destruct kc as [k c]. simpl in *. subst k c.
  exact (@count_connections_ok geo _ _ _ _ _ _ Hkc).
Qed.

Lemma make_graph_no_self_loop_witness :
  0 <> 1 /\ (1 <= weight (northbound 2))%Z.
Proof.
  apply (@make_graph_no_self_loop flat_sea fresh_network
           [[0; 1; 2]; [0; 1; 1; 0; 3]] 10%Q 45%Q
           (mk_MTN (waypoints fresh_network)
              (Some [row 0 1 2; row 1 2 1; row 1 3 1])
              None None
              (Some (mk_DiGraph
                       [(0, north); (1, north); (2, north); (3, north)]
                       [((0, 1), northbound 2); ((1, 2), northbound 1);
                        ((1, 3), northbound 1)]))
              None None)
           (mk_DiGraph
              [(0, north); (1, north); (2, north); (3, north)]
              [((0, 1), northbound 2); ((1, 2), northbound 1); ((1, 3), northbound 1)])
           0 1 (northbound 2)).
  - reflexivity.
  - reflexivity.
  - simpl. auto.
Defined.

(** ** Properties of [refine_graph_from_paths] *)

Lemma edges_reset_weights g : edges (reset_weights g) = edges g.
Proof.
  unfold edges, reset_weights. simpl. rewrite map_map. reflexivity.
Qed.

Lemma nodes_reset_weights g : nodes (reset_weights g) = nodes g.
Proof. reflexivity. Qed.

Lemma get_edge_reset_weights g u v d :
  get_edge (reset_weights g) u v = Some d -> weight d = 0%Z /\ inverse_weight d = 0%Q.
Proof.
  unfold get_edge, reset_weights. simpl.
  induction (adj g) as [|[k a] l IH]; simpl; [discriminate|].
  destruct (edge_eqb k (u, v)); auto.
  intros [= <-]. simpl. auto.
Qed.

Lemma remove_all_edges g : adj (remove_edges_from g (edges g)) = [].
Proof.
  assert (H : edges (remove_edges_from g (edges g)) = []).
  { destruct (edges (remove_edges_from g (edges g))) as [|x l] eqn:E; auto.
    assert (Hx : In x (edges (remove_edges_from g (edges g)))) by (rewrite E; simpl; auto).
    apply In_edges_remove_edges_from in Hx. tauto. }
  unfold edges in H at 1. apply map_eq_nil in H. exact H.
Qed.

(** On a graph whose weights are all [0] the feature loop marks every edge
    and changes nothing else. *)
Lemma feature_loop_all_zero {geo : Geometry} dim3 speeds cross_dists g :
  (forall u v d, get_edge g u v = Some d -> weight d = 0%Z) ->
  forall l c m,
    (forall e, In e l -> In e (edges g)) ->
    for_each (feature_step dim3 speeds cross_dists) l (g, c, m) = Some (g, c, m ++ l).
Proof.
  intros Hzero. induction l as [|e l IH]; intros c m Hl.
  - simpl. rewrite app_nil_r. reflexivity.
  - rewrite for_each_cons. unfold feature_step at 1.
    destruct (get_edge_of_In g e) as [d Hd]; [apply Hl; simpl; auto|].
    rewrite Hd, (Hzero _ _ _ Hd). simpl Z.eqb. cbv iota.
    rewrite IH by (intros; apply Hl; simpl; auto).
    rewrite <- app_assoc. reflexivity.
Qed.

(** C8.  With an empty list of paths [refine_graph_from_paths] returns a
    refined graph without edges whose node table is that of the base
    graph. *)
Theorem refine_empty_paths {geo : Geometry} self trajectories g connections :
  G self = Some g ->
  waypoint_connections self = Some connections ->
  unique_edges g = true ->
  exists self' g_refined,
    refine_graph_from_paths self [] trajectories = Some self' /\
    G_refined self' = Some g_refined /\
    adj g_refined = [] /\
    nodes g_refined = nodes g.
Proof.
  intros HG Hc Hu. unfold refine_graph_from_paths. rewrite HG, Hc.
  cbn [List.length seq combine for_each].
  rewrite (@feature_loop_all_zero geo 0 [] [] (reset_weights g)).
  - cbn [app]. rewrite removal_loop.
    + eexists. eexists. split; [reflexivity|]. cbn [G_refined].
      split; [reflexivity|]. split.
      * apply remove_all_edges.
      * rewrite nodes_remove_edges_from. reflexivity.
    + rewrite edges_reset_weights. apply unique_edgesb_NoDup. exact Hu.
    + auto.
  - intros u v d Hd. apply get_edge_reset_weights in Hd. tauto.
  - auto.
Qed.

Lemma refine_empty_paths_witness :
  exists self' g_refined,
    refine_graph_from_paths (geo := flat_sea) triangle_network [] [] = Some self' /\
    G_refined self' = Some g_refined /\
    adj g_refined = [] /\
    nodes g_refined = nodes triangle_graph.
Proof.
  apply (@refine_empty_paths flat_sea triangle_network [] triangle_graph
           triangle_connections).
  - reflexivity.
  - reflexivity.
  - reflexivity.
Defined.

Lemma total_seconds_pos dt : (1000 <= dt)%Z -> (0 < total_seconds dt)%Q.
Proof.
  intros H. unfold total_seconds.
  apply Qlt_shift_div_l; [reflexivity|].
  rewrite Qmult_0_l. change 0%Q with (inject_Z 0). rewrite <- Zlt_Qlt.
  apply Z.div_str_pos. lia.
Qed.

(** Less than a microsecond counts as no time at all. *)
Lemma total_seconds_zero dt : (0 <= dt < 1000)%Z -> (total_seconds dt == 0)%Q.
Proof.
  intros H. unfold total_seconds. rewrite Z.div_small by exact H. reflexivity.
Qed.

Lemma divide_nonzero x y : ~ (y == 0)%Q -> divide x y = Some (x / y)%Q.
Proof.
  intros H. unfold divide. destruct (Qeq_bool y 0) eqn:E; auto.
  apply Qeq_bool_iff in E. contradiction.
Qed.

(** The speed of a passage is [0] when [t2 > t1] fails, a quotient by a
    positive number of seconds when [t2] is at least a microsecond after
    [t1], and a division fault in between. *)
Lemma transit_speed_cases (length : Q) (t1 t2 : Z) :
  ((t2 - t1 <= 0)%Z -> transit_speed length t1 t2 = Some 0%Q) /\
  ((1000 <= t2 - t1)%Z ->
   (0 < total_seconds (t2 - t1))%Q /\
   transit_speed length t1 t2 = Some (length / total_seconds (t2 - t1))%Q) /\
  ((0 < t2 - t1 < 1000)%Z -> transit_speed length t1 t2 = None).
Proof.
  unfold transit_speed.
  destruct (Z.ltb_spec t1 t2) as [Hlt|Hge]; repeat split; try (intros; lia).
  - apply total_seconds_pos. assumption.
  - pose proof (@total_seconds_pos (t2 - t1) H) as Hpos.
    apply divide_nonzero. intros E. rewrite E in Hpos. discriminate.
  - intros H. unfold divide.
    rewrite (proj2 (Qeq_bool_iff _ _) (@total_seconds_zero (t2 - t1) ltac:(lia))).
    reflexivity.
Qed.

(** C9.  In the loop of [refine_graph_from_paths] over the passages of an
    edge, once the edge is in the graph and the trajectory has been clipped:
    when the elapsed time [t2 - t1] is not positive the step stores the speed
    [0] and divides by nothing; when it is a microsecond or more the step
    divides the length by a positive number of seconds and stores the
    quotient; when it is positive but below a microsecond the test [t2 > t1]
    passes, [total_seconds()] is [0.0] and the division faults. *)
Theorem passage_speed_guard {geo : Geometry}
  wps connections_refined i trajectory e g speeds cross_dists d length t1 t2 dists :
  get_edge g (fst e) (snd e) = Some d ->
  clip_trajectory_between_WPs trajectory wps (fst e) (snd e) = Some (length, t1, t2) ->
  signed_distances trajectory wps connections_refined (fst e) (snd e) = Some dists ->
  ((t2 - t1 <= 0)%Z ->
   passage_step wps connections_refined i (Some trajectory) e (g, speeds, cross_dists)
     = Some (set_edge g e (with_weight (weight d + 1)),
             (e, i, 0%Q) :: speeds,
             write_cross e i 0 (firstn 10 dists) cross_dists)) /\
  ((1000 <= t2 - t1)%Z ->
   (0 < total_seconds (t2 - t1))%Q /\
   passage_step wps connections_refined i (Some trajectory) e (g, speeds, cross_dists)
     = Some (set_edge g e (with_weight (weight d + 1)),
             (e, i, (length / total_seconds (t2 - t1))%Q) :: speeds,
             write_cross e i 0 (firstn 10 dists) cross_dists)) /\
  ((0 < t2 - t1 < 1000)%Z ->
   (total_seconds (t2 - t1) == 0)%Q /\
   passage_step wps connections_refined i (Some trajectory) e (g, speeds, cross_dists)
     = None).
Proof.
  intros Hd Hclip Hdist.
  destruct (transit_speed_cases length t1 t2) as (H0 & H1 & H2).
  unfold passage_step. rewrite Hd, Hclip. repeat split.
  - intros H. rewrite (H0 H), Hdist. reflexivity.
  - apply H1. assumption.
  - destruct (H1 H) as [_ ->]. rewrite Hdist. reflexivity.
  - apply total_seconds_zero. lia.
  - rewrite (H2 H). reflexivity.
Qed.

(** The failing passage: the clipped points are [1 ns] apart. *)
Lemma passage_speed_guard_witness :
  (0 < 1 - 0 < 1000)%Z /\
  (total_seconds (1 - 0) == 0)%Q /\
  passage_step (geo := tick_sea) [] [] 0 (Some [0; 1]) (0, 1) (triangle_graph, [], [])
    = None.
Proof.
  split; [lia|].
  apply (@passage_speed_guard tick_sea [] [] 0 [0; 1] (0, 1) triangle_graph [] []
           (northbound 5) 1%Q 0%Z 1%Z [1%Q]).
  - reflexivity.
  - reflexivity.
  - reflexivity.
  - lia.
Defined.

(** The whole method faults on a path with that passage. *)
Example refine_faults_below_a_microsecond :
  refine_graph_from_paths (geo := tick_sea) triangle_network [(7, [0; 1])] [(7, [0; 1])]
  = None.
Proof. reflexivity. Qed.

(** *** The reciprocal weight *)

Lemma for_each_preserves {A S} (body : A -> S -> option S) (P : S -> Prop) :
  (forall x s s', P s -> body x s = Some s' -> P s') ->
  forall l s s', P s -> for_each body l s = Some s' -> P s'.
Proof.
  intros Hstep. induction l as [|x l IH]; intros s s' HP; simpl.
  - intros [= <-]. exact HP.
  - destruct (body x s) as [s1|] eqn:E; [|discriminate].
    apply IH. eapply Hstep; eauto.
Qed.

Lemma In_adj_set_edge g e f kd :
  In kd (adj (set_edge g e f)) ->
  exists d0, In (fst kd, d0) (adj g) /\ (snd kd = d0 \/ snd kd = f d0).
Proof.
  unfold set_edge. simpl. intros H. apply in_map_iff in H as ([k d0] & E & Hin).
  simpl in E. destruct (edge_eqb k e); subst kd; simpl; eauto.
Qed.

Lemma zero_inverse_set_edge g e f :
  (forall d, inverse_weight (f d) = inverse_weight d) ->
  zero_inverse g -> zero_inverse (set_edge g e f).
Proof.
  intros Hf Hz kd Hin. apply In_adj_set_edge in Hin as (d0 & Hin & [->| ->]).
  - apply (Hz _ Hin).
  - rewrite Hf. apply (Hz _ Hin).
Qed.

Lemma zero_inverse_reset g : zero_inverse (reset_weights g).
Proof.
  intros kd Hin. unfold reset_weights in Hin. simpl in Hin.
  apply in_map_iff in Hin as (kd0 & <- & _). reflexivity.
Qed.

(** Every edge of every refined graph carries the reciprocal weight [0]:
    the reset at the start of [refine_graph_from_paths] is never undone. *)
Lemma refined_inverse_weight_zero {geo : Geometry} self paths trajectories self' g :
  refine_graph_from_paths self paths trajectories = Some self' ->
  G_refined self' = Some g ->
  zero_inverse g.
Proof.
  unfold refine_graph_from_paths.
  destruct (G self) as [g0|]; [|discriminate].
  destruct (waypoint_connections self) as [c0|]; [|discriminate].
  match goal with
  | |- context [for_each ?b ?l (reset_weights g0, [], [])] =>
      destruct (for_each b l (reset_weights g0, [], [])) as [[[g1 sp] cr]|] eqn:E1
  end; [|discriminate].
  match goal with
  | |- context [for_each ?b (edges g1) ?s] =>
      destruct (for_each b (edges g1) s) as [[[g2 c2] m]|] eqn:E2
  end; [|discriminate].
  match goal with
  | |- context [for_each removal_step m ?s] =>
      destruct (for_each removal_step m s) as [[g3 c3]|] eqn:E3
  end; [|discriminate].
  intros [= <-]. cbn [G_refined]. intros [= <-].
  assert (Z1 : zero_inverse g1).
  { change (zero_inverse (fst (fst (g1, sp, cr)))).
    eapply (@for_each_preserves _ _ _ (fun s : accumulators => zero_inverse (fst (fst s))));
      [| |exact E1]; [|apply zero_inverse_reset].
    intros [i [mmsi pth]] s s' HP Hstep. unfold path_step in Hstep.
    eapply (@for_each_preserves _ _ _ (fun s : accumulators => zero_inverse (fst (fst s))));
      [| |exact Hstep]; [|exact HP].
    clear. intros e [[g sp] cr] s' HP Hstep. unfold passage_step in Hstep.
    destruct (get_edge g (fst e) (snd e)); [|discriminate].
    destruct (get_trajectory trajectories mmsi) as [t|]; [|discriminate].
    destruct (clip_trajectory_between_WPs _ _ _ _) as [[[? ?] ?]|]; [|discriminate].
    destruct (transit_speed _ _ _); [|discriminate].
    destruct (signed_distances _ _ _ _ _); [|discriminate].
    injection Hstep as <-. simpl. apply zero_inverse_set_edge; auto. }
  assert (Z2 : zero_inverse g2).
  { change (zero_inverse (fst (fst (g2, c2, m)))).
    eapply (@for_each_preserves _ _ _
              (fun s : DiGraph * list connection * list (nat * nat) =>
                 zero_inverse (fst (fst s))));
      [| |exact E2]; [|exact Z1].
    clear. intros e [[g c] m] s' HP Hstep. unfold feature_step in Hstep.
    destruct (get_edge g (fst e) (snd e)) as [d|]; [|discriminate].
    destruct (weight d =? 0)%Z; injection Hstep as <-; simpl; auto.
    apply zero_inverse_set_edge; auto. }
  change (zero_inverse (fst (g3, c3))).
  eapply (@for_each_preserves _ _ _
            (fun s : DiGraph * list connection => zero_inverse (fst s)));
    [| |exact E3]; [|exact Z2].
  clear. intros e [g c] s' HP Hstep. unfold removal_step in Hstep. simpl in Hstep.
  destruct (remove_edge_exn g e) as [g'|] eqn:E; [|discriminate].
  injection Hstep as <-. simpl. apply remove_edge_exn_Some in E as [_ ->].
  intros kd Hin. apply HP. eapply adj_remove_edge_incl; eauto.
Qed.

(** On the raw graph the reciprocal weight is [1 / weight]. *)
Lemma raw_inverse_weight {geo : Geometry}
  self trajectories max_distance max_angle self' g kd :
  make_graph_from_waypoints self trajectories max_distance max_angle = Some self' ->
  G self' = Some g ->
  In kd (adj g) ->
  inverse_weight (snd kd) = (1 / inject_Z (weight (snd kd)))%Q.
Proof.
  intros Hmake HG Hin.
  destruct (make_graph_edges _ _ _ _ Hmake HG _ Hin) as (kc & _ & ->).
  destruct (edge_entry_spec (waypoints self) kc) as (_ & Hw & Hi).
  rewrite Hi, Hw. reflexivity.
Qed.

(** C2 on the code: the way points [0 -> 1] of [triangle_network] are
    sailed once; the refined graph keeps the edge with weight 1 and the
    reciprocal weight [0], not [1 / 1]. *)
Theorem refined_edge_inverse_weight :
  exists self' g d,
    refine_graph_from_paths (geo := flat_sea) triangle_network [(7, [0; 1])] [(7, [0; 1])]
      = Some self' /\
    G_refined self' = Some g /\
    edges g = [(0, 1)] /\
    get_edge g 0 1 = Some d /\
    weight d = 1%Z /\
    inverse_weight d = 0%Q /\
    ~ (inverse_weight d == 1 / inject_Z (weight d))%Q.
Proof.
  eexists. eexists. eexists.
  split; [vm_compute; reflexivity|].
  split; [reflexivity|].
  split; [reflexivity|].
  split; [reflexivity|].
  split; [reflexivity|].
  split; [reflexivity|].
  vm_compute. discriminate.
Qed.

(** ** Properties of [trajectory_to_path_sspd] *)

Lemma refine_loop_triple {geo : Geometry} trajectory wps g_channel connections
  WP1 WP2 WP3 tl skipped refined_path :
  refine_loop trajectory wps g_channel connections (WP1 :: WP2 :: WP3 :: tl) skipped
    refined_path =
  if skipped then
    refine_loop trajectory wps g_channel connections (WP2 :: WP3 :: tl) false refined_path
  else if is_valid_path g_channel [WP1; WP3] then
    match hop_scores trajectory wps connections WP1 WP2 WP3 with
    | None => None
    | Some (f123, len123, f13, len13) =>
        if Qltb (f13 * len13) (f123 * len123) then
          refine_loop trajectory wps g_channel connections (WP2 :: WP3 :: tl) true
            (refined_path ++ [WP3])
        else
          refine_loop trajectory wps g_channel connections (WP2 :: WP3 :: tl) false
            (refined_path ++ [WP2])
    end
  else
    refine_loop trajectory wps g_channel connections (WP2 :: WP3 :: tl) false
      (refined_path ++ [WP2]).
Proof. reflexivity. Qed.

(** The hop-skipping loop only appends to [refined_path]. *)
Lemma refine_loop_appends {geo : Geometry} trajectory wps g_channel connections :
  forall rest skipped refined_path result,
    refine_loop trajectory wps g_channel connections rest skipped refined_path
      = Some result ->
    exists suffix, result = refined_path ++ suffix.
Proof.
  induction rest as [|WP1 rest IH]; intros skipped acc result H.
  - injection H as <-. exists []. rewrite app_nil_r. reflexivity.
  - destruct rest as [|WP2 [|WP3 tl]];
      try (injection H as <-; exists []; rewrite app_nil_r; reflexivity).
    rewrite refine_loop_triple in H.
    destruct skipped.
    + apply IH in H. exact H.
    + destruct (is_valid_path g_channel [WP1; WP3]).
      * destruct (hop_scores trajectory wps connections WP1 WP2 WP3)
          as [[[[f123 len123] f13] len13]|]; [|discriminate].
        destruct (Qltb (f13 * len13) (f123 * len123));
          apply IH in H as [sfx ->]; rewrite <- app_assoc; eauto.
      * apply IH in H as [sfx ->]. rewrite <- app_assoc; eauto.
Qed.

Lemma refine_path_endpoints {geo : Geometry} trajectory wps g_channel connections p refined :
  refine_path trajectory wps g_channel connections p = Some refined ->
  (exists first, hd_error p = Some first /\ hd_error refined = Some first) /\
  last refined 0 = last p 0.
Proof.
  unfold refine_path. destruct p as [|p0 tl]; [discriminate|].
  destruct (refine_loop _ _ _ _ _ _ _) as [rp|] eqn:E; [|discriminate].
  apply refine_loop_appends in E as [sfx ->].
  remember (last (p0 :: tl) 0) as final eqn:Ef.
  remember ([p0] ++ sfx) as rp eqn:Erp.
  assert (Hhd : hd_error rp = Some p0) by (subst rp; reflexivity).
  destruct (Nat.eqb_spec (last rp 0) final) as [Heq|Hne];
    simpl negb; cbv iota; intros [= <-].
  - split; [exists p0; split; [reflexivity | exact Hhd] | exact Heq].
  - split; [exists p0; split; [reflexivity|] | apply last_last].
    subst rp. reflexivity.
Qed.

Lemma evaluate_fields {geo : Geometry} trajectory mmsi msg p path_df ep ev :
  evaluate trajectory mmsi msg p path_df ep = Some ev ->
  eval_message ev = msg /\ path ev = Some p.
Proof.
  unfold evaluate. destruct (idx_orig ep) as [io|]; [|discriminate].
  destruct (idx_dest ep) as [id|]; [|discriminate].
  destruct path_df as [|r rows]; [discriminate|].
  destruct (if (id <=? io)%Z then _ else _) as [io' id'].
  destruct (sspd_fit _ _ _ _ _) as [s d].
  intros [= <-]. split; reflexivity.
Qed.

(** C10.  When [trajectory_to_path_sspd] runs with [algorithm = 'refined']
    and the hop-skipping pass completes, the path it emits starts with the
    first way point of the stitched path and ends with its last way point. *)
Theorem refined_path_keeps_endpoints {geo : Geometry}
  trajectory wps g_channel connections k_max l_max passages ep stitched path_df ev :
  match_passages trajectory wps g_channel connections k_max l_max passages
    = Some stitched ->
  try_match trajectory wps g_channel connections k_max l_max "refined" passages ep
    = Some (path_df, ev) ->
  exists refined,
    refine_path trajectory wps g_channel connections stitched = Some refined /\
    path ev = Some refined /\
    (exists first, hd_error stitched = Some first /\ hd_error refined = Some first) /\
    last refined 0 = last stitched 0.
Proof.
  intros Hm Ht. unfold try_match in Ht. rewrite Hm in Ht.
  change (String.eqb "refined" "refined") with true in Ht. cbv iota in Ht.
  destruct (refine_path trajectory wps g_channel connections stitched)
    as [refined|] eqn:Hr; [|discriminate].
  destruct (make_path_df _ _ _ _) as [df|]; [|discriminate].
  destruct (evaluate _ _ _ _ _ _) as [ev'|] eqn:He; [|discriminate].
  injection Ht as <- <-.
  exists refined. split; [reflexivity|]. split.
  - apply evaluate_fields in He. tauto.
  - apply refine_path_endpoints in Hr. exact Hr.
Qed.

Lemma refined_path_keeps_endpoints_witness :
  exists refined,
    refine_path (geo := flat_sea) [0; 1; 2] (waypoints pruned_triangle)
      triangle_graph triangle_connections [0; 1; 2] = Some refined /\
    Some [0; 2] = Some refined /\
    (exists first, hd_error [0; 1; 2] = Some first /\ hd_error refined = Some first) /\
    last refined 0 = last [0; 1; 2] 0.
Proof.
  apply (@refined_path_keeps_endpoints flat_sea [0; 1; 2] (waypoints pruned_triangle)
           triangle_graph triangle_connections 500%Z 5%Z [0; 1; 2]
           (mk_endpoints 0 (Some 0%Z) (dist 0) 2 (Some 2%Z) (dist 0))
           [0; 1; 2]
           [mk_path_row 7 0 2 [] success]
           (mk_evaluation 7 (Fin 0) (Some []) 1%Q success (Some [0; 2]) (Some [[]]))).
  - reflexivity.
  - reflexivity.
Defined.

(** An end point that is close to the trajectory was found by the
    locator, and its index is bound. *)
Lemma locate_close {geo : Geometry} trajectory wps :
  let ep := locate_endpoints trajectory wps in
  (closer_than (dist_orig ep) 100 = true \/ closer_than (dist_dest ep) 100 = true \/
   orig_WP ep <> dest_WP ep) ->
  idx_orig ep <> None /\ idx_dest ep <> None.
Proof.
  unfold locate_endpoints.
  destruct (find_orig_WP trajectory wps) as [[[o io] d_o]|];
    [destruct (find_dest_WP trajectory wps) as [[[d id] d_d]|]|]; simpl;
    intros [H|[H|H]]; try discriminate; try congruence; split; discriminate.
Qed.

(** With at least two reconciled passages both evaluation indices are
    bound. *)
Lemma reconcile_idx_bound {geo : Geometry} g trajectory wps passages0 passages ep :
  reconcile g trajectory wps passages0 (locate_endpoints trajectory wps) = (passages, ep) ->
  2 <= List.length passages ->
  idx_orig ep <> None /\ idx_dest ep <> None.
Proof.
  pose proof (locate_close trajectory wps) as Hloc. simpl in Hloc.
  set (ep0 := locate_endpoints trajectory wps) in *. clearbody ep0.
  unfold reconcile.
  destruct (List.length passages0 =? 0) eqn:Elen; simpl andb.
  - destruct (Nat.eqb_spec (orig_WP ep0) (dest_WP ep0)) as [Heq|Hne]; simpl negb; cbv iota.
    + intros [= <- <-]. simpl. lia.
    + intros [= <- <-] _. apply Hloc. auto.
  - cbv iota.
    destruct (negb (mem_node (orig_WP ep0) passages0) && closer_than (dist_orig ep0) 100
              && has_path g (orig_WP ep0) (hd 0 passages0)) eqn:E1.
    + apply andb_true_iff in E1 as [E1 _]. apply andb_true_iff in E1 as [_ E1].
      cbv beta iota zeta.
      destruct (negb (mem_node (dest_WP ep0) (orig_WP ep0 :: passages0))
                && closer_than (dist_dest ep0) 100
                && has_path g (last (orig_WP ep0 :: passages0) 0) (dest_WP ep0)) eqn:E2;
        cbv beta iota zeta.
      * apply andb_true_iff in E2 as [E2 _]. apply andb_true_iff in E2 as [_ E2].
        intros [= <- <-] _. simpl. apply Hloc. auto.
      * intros [= <- <-] _. simpl. split; [|discriminate]. apply Hloc. auto.
    + cbv beta iota zeta.
      destruct (negb (mem_node (dest_WP ep0) passages0)
                && closer_than (dist_dest ep0) 100
                && has_path g (last passages0 0) (dest_WP ep0)) eqn:E2;
        cbv beta iota zeta.
      * apply andb_true_iff in E2 as [E2 _]. apply andb_true_iff in E2 as [_ E2].
        intros [= <- <-] _. simpl. split; [discriminate|]. apply Hloc. auto.
      * intros [= <- <-] _. simpl. split; discriminate.
Qed.

Lemma make_path_df_covered mmsi msg connections : forall l rows,
  (forall e, In e l -> is_some (item_geometry connections e) = true) ->
  exists path_df,
    for_each (fun e rows =>
                match item_geometry connections e with
                | None => None
                | Some geom => Some (rows ++ [mk_path_row mmsi (fst e) (snd e) geom msg])
                end) l rows = Some path_df.
Proof.
  induction l as [|e l IH]; intros rows Hl.
  - simpl. eauto.
  - rewrite for_each_cons.
    pose proof (Hl e (or_introl eq_refl)) as He.
    destruct (item_geometry connections e) as [geom|]; [|discriminate].
    apply IH. intros; apply Hl; simpl; auto.
Qed.

Lemma make_path_df_walk mmsi msg g connections u v p :
  connections_cover g connections = true ->
  walk g u v p ->
  exists path_df, make_path_df mmsi msg connections p = Some path_df.
Proof.
  intros Hc Hw. unfold make_path_df. apply make_path_df_covered.
  intros e He. unfold connections_cover in Hc. rewrite forallb_forall in Hc.
  apply Hc. eapply walk_consecutive; eauto.
Qed.

Lemma evaluate_bound {geo : Geometry} trajectory mmsi msg p path_df ep :
  idx_orig ep <> None -> idx_dest ep <> None -> path_df <> [] ->
  exists ev, evaluate trajectory mmsi msg p path_df ep = Some ev.
Proof.
  unfold evaluate. destruct (idx_orig ep) as [io|]; [|congruence].
  destruct (idx_dest ep) as [id|]; [|congruence]. intros _ _.
  destruct path_df as [|r rows]; [congruence|]. intros _.
  destruct (if (id <=? io)%Z then _ else _) as [io' id'].
  destruct (sspd_fit _ _ _ _ _) as [s d]. eauto.
Qed.

Lemma path_df_loop_length mmsi msg connections : forall l rows path_df,
  for_each (fun e rows =>
              match item_geometry connections e with
              | None => None
              | Some geom => Some (rows ++ [mk_path_row mmsi (fst e) (snd e) geom msg])
              end) l rows = Some path_df ->
  List.length path_df = List.length rows + List.length l.
Proof.
  induction l as [|e l IH]; intros rows path_df.
  - simpl. intros [= <-]. lia.
  - rewrite for_each_cons.
    destruct (item_geometry connections e) as [geom|]; [|discriminate].
    intros H. apply IH in H. rewrite H, length_app. simpl. lia.
Qed.

(** [path_df] has one row for every hop of the path. *)
Lemma make_path_df_length mmsi msg connections p path_df :
  make_path_df mmsi msg connections p = Some path_df ->
  List.length path_df = hops p.
Proof.
  unfold make_path_df. intros H. apply path_df_loop_length in H.
  rewrite H, length_consecutive. reflexivity.
Qed.

Lemma walk_distinct_hops g u v p : walk g u v p -> u <> v -> 1 <= hops p.
Proof.
  intros Hw Hne. inversion Hw as [|? w ? p' He Hw']; subst; [congruence|].
  destruct (walk_head Hw') as [tl ->]. unfold hops. simpl. lia.
Qed.

Lemma mem_node_In k l : mem_node k l = true <-> In k l.
Proof.
  unfold mem_node. rewrite existsb_exists. split.
  - intros (x & Hx & E). apply Nat.eqb_eq in E. subst. exact Hx.
  - intros H. exists k. split; [exact H|apply Nat.eqb_refl].
Qed.

Lemma NoDup_snoc {A} (l : list A) x : NoDup l -> ~ In x l -> NoDup (l ++ [x]).
Proof.
  induction l as [|a l IH]; intros Hnd Hn; simpl.
  - constructor; [auto|constructor].
  - inversion Hnd as [|? ? Ha Hl]; subst. constructor.
    + rewrite in_app_iff. simpl in *. intuition.
    + apply IH; [exact Hl|]. simpl in Hn. tauto.
Qed.

Lemma last_In (l : list node) d : l <> [] -> In (last l d) l.
Proof.
  induction l as [|a [|b tl] IH]; intros H; [congruence|simpl; auto|].
  right. apply IH. discriminate.
Qed.

(** The first and the last of two or more distinct way points differ. *)
Lemma NoDup_ends (l : list node) :
  NoDup l -> 2 <= List.length l -> hd 0 l <> last l 0.
Proof.
  destruct l as [|a [|b tl]]; [simpl; lia | simpl; lia |].
  intros Hnd _ E. cbn [hd] in E.
  change (last (a :: b :: tl) 0) with (last (b :: tl) 0) in E.
  apply NoDup_cons_iff in Hnd as [Hnin _]. apply Hnin.
  rewrite E. apply (@last_In (b :: tl) 0). discriminate.
Qed.

(** The reconciliation splices an end point in only when it is not among
    the passages: way points that are listed once stay listed once. *)
Lemma reconcile_NoDup {geo : Geometry} g trajectory wps passages0 ep0 passages ep :
  NoDup passages0 ->
  reconcile g trajectory wps passages0 ep0 = (passages, ep) ->
  NoDup passages.
Proof.
  intros Hnd. unfold reconcile.
  destruct (List.length passages0 =? 0) eqn:Elen; simpl andb.
  - apply Nat.eqb_eq in Elen. destruct passages0; [|discriminate].
    destruct (Nat.eqb_spec (orig_WP ep0) (dest_WP ep0)) as [Heq|Hne]; simpl negb; cbv iota.
    + intros [= <- <-]. constructor.
    + destruct (closer_than (dist_orig ep0) 100), (closer_than (dist_dest ep0) 100);
        simpl; intros [= <- <-]; repeat constructor; simpl; intuition.
  - cbv iota.
    destruct (negb (mem_node (orig_WP ep0) passages0) && closer_than (dist_orig ep0) 100
              && has_path g (orig_WP ep0) (hd 0 passages0)) eqn:E1; cbv beta iota zeta.
    + apply andb_true_iff in E1 as [E1 _]. apply andb_true_iff in E1 as [E1 _].
      apply negb_true_iff in E1.
      assert (Hnd1 : NoDup (orig_WP ep0 :: passages0)).
      { constructor; [|exact Hnd]. intros Hin. apply mem_node_In in Hin. congruence. }
      destruct (negb (mem_node (dest_WP ep0) (orig_WP ep0 :: passages0))
                && closer_than (dist_dest ep0) 100
                && has_path g (last (orig_WP ep0 :: passages0) 0) (dest_WP ep0)) eqn:E2;
        cbv beta iota zeta; intros [= <- <-]; [|exact Hnd1].
      apply andb_true_iff in E2 as [E2 _]. apply andb_true_iff in E2 as [E2 _].
      apply negb_true_iff in E2.
      apply (@NoDup_snoc _ (orig_WP ep0 :: passages0)); [exact Hnd1|].
      intros Hin. apply mem_node_In in Hin. congruence.
    + destruct (negb (mem_node (dest_WP ep0) passages0)
                && closer_than (dist_dest ep0) 100
                && has_path g (last passages0 0) (dest_WP ep0)) eqn:E2;
        cbv beta iota zeta; intros [= <- <-]; [|exact Hnd].
      apply andb_true_iff in E2 as [E2 _]. apply andb_true_iff in E2 as [E2 _].
      apply negb_true_iff in E2.
      apply NoDup_snoc; [exact Hnd|].
      intros Hin. apply mem_node_In in Hin. congruence.
Qed.

(** The fallback: a path of the pruned graph with the fewest edges and the
    outcome [attempt], or the outcome [no_path]. *)
Lemma fallback_spec {geo : Geometry} trajectory g connections passages ep :
  connections_cover g connections = true ->
  idx_orig ep <> None -> idx_dest ep <> None ->
  hd 0 passages <> last passages 0 ->
  ((exists q, walk g (hd 0 passages) (last passages 0) q) ->
   exists p path_df ev,
     walk g (hd 0 passages) (last passages 0) p /\
     (forall q, walk g (hd 0 passages) (last passages 0) q -> hops p <= hops q) /\
     make_path_df (mmsi_of trajectory) attempt connections p = Some path_df /\
     fallback trajectory g connections passages ep = Some (path_df, ev) /\
     eval_message ev = attempt /\ path ev = Some p) /\
  (~ (exists q, walk g (hd 0 passages) (last passages 0) q) ->
   fallback trajectory g connections passages ep
     = Some (failure (mmsi_of trajectory) no_path)).
Proof.
  intros Hc Hio Hid Hne. unfold fallback. split; intros Hp.
  - apply has_path_walk in Hp. rewrite Hp. unfold has_path in Hp.
    destruct (shortest_path g (hd 0 passages) (last passages 0)) as [p|] eqn:Hsp;
      [|discriminate].
    destruct (@shortest_path_sound _ _ _ _ Hsp) as [Hw Hmin].
    destruct (@make_path_df_walk (mmsi_of trajectory) attempt g connections _ _ p Hc Hw)
      as [path_df Hdf].
    assert (Hrows : path_df <> []).
    { pose proof (make_path_df_length _ _ _ _ Hdf) as Hlen.
      pose proof (walk_distinct_hops Hw Hne). intros ->. simpl in Hlen. lia. }
    destruct (@evaluate_bound geo trajectory (mmsi_of trajectory) attempt p path_df ep
                Hio Hid Hrows) as [ev Hev].
    exists p, path_df, ev. rewrite Hdf, Hev. simpl.
    pose proof (@evaluate_fields _ _ _ _ _ _ _ _ Hev). tauto.
  - destruct (has_path g (hd 0 passages) (last passages 0)) eqn:E; [|reflexivity].
    apply has_path_walk in E. contradiction.
Qed.

Lemma try_match_message {geo : Geometry}
  trajectory wps g_channel connections k_max l_max algorithm passages ep path_df ev :
  try_match trajectory wps g_channel connections k_max l_max algorithm passages ep
    = Some (path_df, ev) ->
  eval_message ev = success.
Proof.
  unfold try_match.
  destruct (match_passages _ _ _ _ _ _ _) as [p|]; [|discriminate].
  destruct (if String.eqb algorithm "refined" then _ else _) as [p'|]; [|discriminate].
  destruct (make_path_df _ _ _ _) as [df|]; [|discriminate].
  destruct (evaluate _ _ _ _ _ _) as [ev'|] eqn:He; [|discriminate].
  intros [= <- <-]. apply evaluate_fields in He. tauto.
Qed.

Lemma fallback_cases {geo : Geometry} trajectory g connections passages ep path_df ev :
  fallback trajectory g connections passages ep = Some (path_df, ev) ->
  eval_message ev = attempt \/ (path_df, ev) = failure (mmsi_of trajectory) no_path.
Proof.
  unfold fallback. destruct (has_path g (hd 0 passages) (last passages 0)).
  - destruct (shortest_path _ _ _) as [p|]; [|discriminate].
    destruct (make_path_df _ _ _ _) as [df|]; [|discriminate].
    destruct (evaluate _ _ _ _ _ _) as [ev'|] eqn:He; [|discriminate].
    intros [= <- <-]. left. apply evaluate_fields in He. tauto.
  - intros [= <- <-]. right. reflexivity.
Qed.

(** C1.  With at least two reconciled passages, when the matching of the
    passage pairs (step 5) raises, [trajectory_to_path_sspd] returns the
    outcome [attempt] with a path of the pruned graph from the first to the
    last passage that has the fewest edges if there is a path, and the
    outcome [no_path] if there is none; [find_WP_intersections] lists every
    way point once (section 4.2).  Whenever the outcome is [no_path] or
    [no_intersects], [path_df] is empty, the SSPD is [nan], the covered
    fraction is [0] and no path is reported. *)
Theorem step5_failure_outcomes {geo : Geometry}
  self trajectory k_max l_max algorithm :
  (forall g connections passages ep g_channel,
     G_pruned self = Some g ->
     waypoint_connections_pruned self = Some connections ->
     connections_cover g connections = true ->
     NoDup (fst (find_WP_intersections trajectory (waypoints self) g 1000)) ->
     reconciled g (waypoints self) trajectory = (passages, ep, g_channel) ->
     2 <= List.length passages ->
     match_passages trajectory (waypoints self) g_channel connections k_max l_max passages
       = None ->
     ((exists q, walk g (hd 0 passages) (last passages 0) q) ->
      exists p path_df ev,
        walk g (hd 0 passages) (last passages 0) p /\
        (forall q, walk g (hd 0 passages) (last passages 0) q -> hops p <= hops q) /\
        make_path_df (mmsi_of trajectory) attempt connections p = Some path_df /\
        trajectory_to_path_sspd self trajectory k_max l_max algorithm
          = Some (path_df, ev) /\
        eval_message ev = attempt /\
        path ev = Some p) /\
     (~ (exists q, walk g (hd 0 passages) (last passages 0) q) ->
      trajectory_to_path_sspd self trajectory k_max l_max algorithm
        = Some (failure (mmsi_of trajectory) no_path)))
  /\
  (forall path_df ev,
     trajectory_to_path_sspd self trajectory k_max l_max algorithm = Some (path_df, ev) ->
     eval_message ev = no_path \/ eval_message ev = no_intersects ->
     path_df = [] /\ SSPD ev = NaN /\ fraction_covered ev = 0%Q /\ path ev = None).
Proof.
  split.
  - intros g connections passages ep g_channel HG Hc Hcov Hnd Hrec Hlen Hraise.
    assert (Hidx : idx_orig ep <> None /\ idx_dest ep <> None /\
                   hd 0 passages <> last passages 0).
    { unfold reconciled in Hrec.
      destruct (find_WP_intersections trajectory (waypoints self) g 1000) as [ps gch].
      injection Hrec as Hrec _. cbn [fst] in Hnd.
      destruct (@reconcile_idx_bound geo g trajectory (waypoints self) ps passages ep
                  Hrec Hlen) as [Hio Hid].
      repeat split; [exact Hio|exact Hid|].
      apply NoDup_ends; [|exact Hlen].
      exact (@reconcile_NoDup geo g trajectory (waypoints self) ps _ passages ep Hnd Hrec). }
    destruct Hidx as (Hio & Hid & Hne).
    unfold trajectory_to_path_sspd. rewrite HG, Hc, Hrec.
    apply Nat.leb_le in Hlen. rewrite Hlen.
    unfold try_match. rewrite Hraise.
    exact (@fallback_spec geo trajectory g connections passages ep Hcov Hio Hid Hne).
  - intros path_df ev. unfold trajectory_to_path_sspd.
    destruct (G_pruned self) as [g|]; [|discriminate].
    destruct (waypoint_connections_pruned self) as [connections|]; [|discriminate].
    destruct (reconciled g (waypoints self) trajectory) as [[passages ep] g_channel].
    destruct (2 <=? List.length passages).
    + destruct (try_match _ _ _ _ _ _ _ _ _) as [[df' ev']|] eqn:Ht.
      * intros [= <- <-] [Hm|Hm]; apply try_match_message in Ht; congruence.
      * intros Hfb [Hm|Hm]; apply fallback_cases in Hfb as [Ha|Hf];
          try congruence; injection Hf as -> ->; simpl; auto.
    + intros [= <- <-] _. simpl. auto.
Qed.

Lemma step5_failure_outcomes_witness :
  (exists p path_df ev,
     walk triangle_graph 0 2 p /\
     (forall q, walk triangle_graph 0 2 q -> hops p <= hops q) /\
     make_path_df 7 attempt triangle_connections p = Some path_df /\
     trajectory_to_path_sspd (geo := stuck_sea) pruned_triangle [0; 1; 2] 500 5 "standard"
       = Some (path_df, ev) /\
     eval_message ev = attempt /\
     path ev = Some p) /\
  (forall path_df ev,
     trajectory_to_path_sspd (geo := stuck_sea) pruned_triangle [3] 500 5 "standard"
       = Some (path_df, ev) ->
     eval_message ev = no_path \/ eval_message ev = no_intersects ->
     path_df = [] /\ SSPD ev = NaN /\ fraction_covered ev = 0%Q /\ path ev = None).
Proof.
  split.
  - apply (proj1 (@step5_failure_outcomes stuck_sea pruned_triangle [0; 1; 2]
                    500%Z 5%Z "standard"%string)
             triangle_graph triangle_connections [0; 1; 2]
             (mk_endpoints 0 (Some 0%Z) (dist 0) 2 (Some 2%Z) (dist 0))
             triangle_graph).
    + reflexivity.
    + reflexivity.
    + reflexivity.
    + repeat constructor; simpl; intuition congruence.
    + reflexivity.
    + simpl. lia.
    + reflexivity.
    + exists [0; 2]. apply walk_cons with (w := 2); [simpl; auto|apply walk_nil].
  - apply (proj2 (@step5_failure_outcomes stuck_sea pruned_triangle [3]
                    500%Z 5%Z "standard"%string)).
Defined.

(** ** Properties of the symmetric segment-path distance *)

Module ShapeFacts.
Import Shape.
Local Open Scope R_scope.

Lemma distance_nonneg p q : 0 <= distance p q.
Proof. unfold distance. apply sqrt_pos. Qed.

Lemma distance_refl p : distance p p = 0.
Proof.
  unfold distance.
  replace ((fst p - fst p)² + (snd p - snd p)²) with 0 by (unfold Rsqr; ring).
  apply sqrt_0.
Qed.

Lemma distance_sym p q : distance p q = distance q p.
Proof. unfold distance. f_equal. unfold Rsqr. ring. Qed.

Lemma distance_to_polyline_nonneg p : forall vs a, 0 <= distance_to_polyline p a vs.
Proof.
  induction vs as [|b tl IH]; intros a; simpl.
  - apply distance_nonneg.
  - apply Rmin_glb; [apply distance_nonneg | apply IH].
Qed.

Lemma foot_parameter_degenerate p a : foot_parameter p a a = 0.
Proof.
  unfold foot_parameter.
  replace ((fst p - fst a) * (fst a - fst a) + (snd p - snd a) * (snd a - snd a))
    with 0 by ring.
  unfold Rdiv. rewrite Rmult_0_l.
  rewrite Rmin_right by Lra.lra. apply Rmax_left. Lra.lra.
Qed.

Lemma along_degenerate a t : along a a t = a.
Proof.
  unfold along. destruct a as [x y]. simpl. f_equal; ring.
Qed.

Lemma distance_to_segment_degenerate p a : distance_to_segment p a a = distance p a.
Proof.
  unfold distance_to_segment. rewrite along_degenerate. reflexivity.
Qed.

(** A point of a segment has distance [0] to it. *)
Lemma on_segment_distance p a b : on_segment p a b -> distance_to_segment p a b = 0.
Proof.
  intros (t & Ht & ->). unfold distance_to_segment.
  assert (E : along a b (foot_parameter (along a b t) a b) = along a b t).
  { destruct a as [ax ay], b as [bx by_]. unfold foot_parameter, along. simpl.
    set (D := (bx - ax)² + (by_ - ay)²).
    replace ((ax + t * (bx - ax) - ax) * (bx - ax)
             + (ay + t * (by_ - ay) - ay) * (by_ - ay))
      with (t * D) by (unfold D, Rsqr; ring).
    destruct (Req_dec_T D 0) as [HD|HD].
    - unfold D in HD. apply Rplus_sqr_eq_0 in HD as [Hx Hy].
      rewrite Hx, Hy. f_equal; ring.
    - replace (t * D / D) with t by (field; exact HD).
      rewrite Rmin_right by Lra.lra. rewrite Rmax_right by Lra.lra. reflexivity. }
  rewrite E. apply distance_refl.
Qed.

(** A point of a path has distance [0] to it. *)
Lemma on_polyline_distance p : forall vs a,
  on_polyline p a vs -> distance_to_polyline p a vs = 0.
Proof.
  induction vs as [|b tl IH]; intros a H; simpl in *.
  - subst. apply distance_refl.
  - pose proof (distance_nonneg p (along a b (foot_parameter p a b))) as H1.
    pose proof (distance_to_polyline_nonneg p tl b) as H2.
    destruct H as [H|H].
    + rewrite (on_segment_distance H). apply Rmin_left. exact H2.
    + rewrite (IH _ H). apply Rmin_right. exact H1.
Qed.

Lemma start_on_polyline a vs : on_polyline a a vs.
Proof.
  destruct vs as [|b tl]; simpl; [reflexivity|].
  left. exists 0. split; [Lra.lra|].
  unfold along. destruct a as [x y]. simpl. f_equal; ring.
Qed.

Lemma same_point_eq p q : same_point p q = true -> q = p.
Proof.
  unfold same_point. destruct p as [a b], q as [c d]. simpl.
  destruct (Req_dec_T a c); [|discriminate].
  destruct (Req_dec_T b d); [|discriminate]. intros _. congruence.
Qed.

(** The distance to a curve of length zero is the distance to its point. *)
Lemma distance_to_point_curve p s : forall vs,
  forallb (same_point s) vs = true -> distance_to_polyline p s vs = distance p s.
Proof.
  induction vs as [|b tl IH]; simpl; [reflexivity|].
  intros H. apply andb_true_iff in H as [Hb Htl].
  apply same_point_eq in Hb. subst b.
  rewrite distance_to_segment_degenerate, (IH Htl).
  apply Rmin_left. apply Rle_refl.
Qed.

Lemma mean_zero {A} (f : A -> R) l : (forall x, In x l -> f x = 0) -> mean (map f l) = 0.
Proof.
  intros H. unfold mean.
  assert (E : fold_right Rplus 0 (map f l) = 0).
  { induction l as [|x l IH]; simpl; [reflexivity|].
    rewrite (H x) by (simpl; auto). rewrite IH by (intros; apply H; simpl; auto).
    ring. }
  rewrite E. unfold Rdiv. apply Rmult_0_l.
Qed.

(** C7.  The SSPD of two curves does not depend on their order, and the
    SSPD of a curve with itself is [0]. *)
Theorem sspd_symmetric_zero (A B : Curve) :
  sspd A B = sspd B A /\ (sampled_along A -> sspd A A = 0).
Proof.
  split.
  - unfold sspd. destruct (zero_length A) eqn:EA, (zero_length B) eqn:EB; try reflexivity.
    + unfold point_to_curve, zero_length in *.
      rewrite (distance_to_point_curve _ _ _ EA), (distance_to_point_curve _ _ _ EB).
      apply distance_sym.
    + f_equal. apply Rplus_comm.
  - intros Hs. unfold sspd. destruct (zero_length A).
    + unfold point_to_curve. apply on_polyline_distance. apply start_on_polyline.
    + assert (E : directed A A = 0).
      { unfold directed. apply mean_zero. intros p Hp. unfold point_to_curve.
        apply on_polyline_distance. unfold sampled_along in Hs.
        rewrite Forall_forall in Hs. apply Hs. exact Hp. }
      rewrite E. unfold Rdiv. rewrite Rplus_0_l. apply Rmult_0_l.
Qed.

Lemma east_leg_sampled : sampled_along east_leg.
Proof.
  unfold sampled_along, east_leg. simpl.
  apply Forall_cons; [|apply Forall_cons; [|apply Forall_cons; [|apply Forall_nil]]];
    left.
  - exists 0. split; [Lra.lra|]. unfold along; simpl. f_equal; Lra.lra.
  - exists (1 / 2). split; [Lra.lra|]. unfold along; simpl. f_equal; Lra.lra.
  - exists 1. split; [Lra.lra|]. unfold along; simpl. f_equal; Lra.lra.
Qed.

Lemma sspd_symmetric_zero_witness : sspd east_leg east_leg = 0.
Proof.
  apply (proj2 (sspd_symmetric_zero east_leg east_leg)).
  exact east_leg_sampled.
Defined.

End ShapeFacts.

(** ** The snapshots are well formed

    The graphs that the methods assign have at most one edge per ordered
    pair, and the table assigned with a graph has exactly one row for each of
    its edges. *)

Lemma keys_count_passage e cd :
  map fst (count_passage e cd) =
  if mem_edge e (map fst cd) then map fst cd else map fst cd ++ [e].
Proof.
  induction cd as [|[k c] cd IH]; simpl; [reflexivity|].
  rewrite (edge_eqb_sym e k).
  destruct (edge_eqb_spec k e) as [->|Hne]; simpl; [reflexivity|].
  rewrite IH. destruct (mem_edge e (map fst cd)); reflexivity.
Qed.

Lemma count_passage_NoDup e cd :
  NoDup (map fst cd) -> NoDup (map fst (count_passage e cd)).
Proof.
  intros H. rewrite keys_count_passage.
  destruct (mem_edge e (map fst cd)) eqn:E; auto.
  apply NoDup_app; auto.
  - constructor; [simpl; tauto | constructor].
  - intros x Hx [<-|[]]. apply mem_edge_In in Hx. congruence.
Qed.

Lemma add_passages_NoDup passages cd :
  NoDup (map fst cd) -> NoDup (map fst (add_passages passages cd)).
Proof.
  unfold add_passages. destruct (1 <? List.length passages); auto.
  revert cd. induction (consecutive passages) as [|rc l IH]; intros cd H; simpl; auto.
  apply IH. destruct (negb (fst rc =? snd rc)); auto using count_passage_NoDup.
Qed.

Lemma count_connections_NoDup {geo : Geometry} wps trajectories max_distance max_angle :
  NoDup (map fst (count_connections wps trajectories max_distance max_angle)).
Proof.
  unfold count_connections.
  assert (H : NoDup (map fst (@nil (nat * nat * Z)))) by constructor.
  revert H. generalize (@nil (nat * nat * Z)).
  induction trajectories as [|t l IH]; intros cd H; simpl; auto.
  apply IH. apply add_passages_NoDup. exact H.
Qed.

Lemma NoDup_map_filter {A B} (f : A -> B) (P : A -> bool) l :
  NoDup (map f l) -> NoDup (map f (filter P l)).
Proof.
  induction l as [|x l IH]; simpl; intros H; [constructor|].
  inversion H as [|? ? Hnin Hnd]; subst.
  destruct (P x); simpl; auto. constructor; auto.
  intros Hin. apply Hnin. apply in_map_iff in Hin as (y & E & Hy).
  apply filter_In in Hy as [Hy _]. apply in_map_iff. eauto.
Qed.

(** The edges of a graph listed by source node. *)
Lemma by_source_NoDup (cd : list (nat * nat * Z)) : forall us,
  NoDup us -> NoDup (map fst cd) ->
  NoDup (flat_map (fun u => map fst (filter (fun kc => fst (fst kc) =? u) cd)) us).
Proof.
  induction us as [|u us IH]; intros Hus Hcd; simpl; [constructor|].
  inversion Hus as [|? ? Hnin Hnd]; subst.
  apply NoDup_app.
  - apply NoDup_map_filter. exact Hcd.
  - apply IH; auto.
  - intros e He Hin. apply in_map_iff in He as (kc & <- & Hkc).
    apply filter_In in Hkc as [_ Hsrc]. apply Nat.eqb_eq in Hsrc.
    apply in_flat_map in Hin as (u' & Hu' & Hin).
    apply in_map_iff in Hin as (kc' & E & Hkc').
    apply filter_In in Hkc' as [_ Hsrc']. apply Nat.eqb_eq in Hsrc'.
    rewrite E in Hsrc'. congruence.
Qed.

Lemma flat_map_map_fst {geo : Geometry} wps (cd : list (nat * nat * Z)) us :
  map fst (flat_map (fun u => map (edge_entry wps)
                                (filter (fun kc => fst (fst kc) =? u) cd)) us)
  = flat_map (fun u => map fst (filter (fun kc => fst (fst kc) =? u) cd)) us.
Proof.
  induction us as [|u us IH]; simpl; [reflexivity|].
  rewrite map_app, IH. f_equal. rewrite map_map. apply map_ext.
  intros kc. apply edge_entry_spec.
Qed.

Lemma item_geometry_row {geo : Geometry} wps (cd : list (nat * nat * Z)) e :
  NoDup (map fst cd) -> In e (map fst cd) ->
  is_some (item_geometry (map (connection_row wps) cd) e) = true.
Proof.
  unfold item_geometry. intros Hnd Hin.
  assert (Hrow : forall kc, from (connection_row wps kc) = fst (fst kc) /\
                            to (connection_row wps kc) = snd (fst kc)).
  { intros kc. unfold connection_row.
    destruct (straight_edge wps (fst (fst kc)) (snd (fst kc))) as [[? ?] ?]. auto. }
  assert (Hnone : forall l, ~ In e (map fst l) ->
            filter (fun r => (from r =? fst e) && (to r =? snd e))
              (map (connection_row wps) l) = []).
  { induction l as [|kc l IH]; simpl; intros Hn; [reflexivity|].
    destruct (Hrow kc) as [-> ->].
    destruct (edge_eqb_spec (fst kc) e) as [E|Hne]; [tauto|].
    unfold edge_eqb in *.
    destruct ((fst (fst kc) =? fst e) && (snd (fst kc) =? snd e)) eqn:Eb.
    - exfalso. apply Hne. apply andb_true_iff in Eb as [E1 E2].
      apply Nat.eqb_eq in E1, E2. destruct (fst kc), e; simpl in *; congruence.
    - apply IH. tauto. }
  induction cd as [|kc cd IH]; simpl in *; [tauto|].
  inversion Hnd as [|? ? Hnin Hnd']; subst.
  destruct (Hrow kc) as [-> ->].
  destruct (edge_eqb_spec (fst kc) e) as [E|Hne].
  - subst e. rewrite !Nat.eqb_refl. simpl. rewrite (Hnone cd Hnin). reflexivity.
  - destruct ((fst (fst kc) =? fst e) && (snd (fst kc) =? snd e)) eqn:Eb.
    + exfalso. apply Hne. apply andb_true_iff in Eb as [E1 E2].
      apply Nat.eqb_eq in E1, E2. destruct (fst kc), e; simpl in *; congruence.
    + apply IH; auto. destruct Hin; [contradiction|auto].
Qed.

(** The raw graph and its table are well formed. *)
Lemma make_graph_well_formed {geo : Geometry}
  self trajectories max_distance max_angle self' :
  make_graph_from_waypoints self trajectories max_distance max_angle = Some self' ->
  exists g connections,
    G self' = Some g /\ waypoint_connections self' = Some connections /\
    unique_edges g = true /\ connections_cover g connections = true.
Proof.
  unfold make_graph_from_waypoints.
  pose proof (count_connections_NoDup (waypoints self) trajectories
                max_distance max_angle) as Hnd.
  destruct (count_connections _ _ _ _) as [|kc0 cd] eqn:E; [discriminate|].
  remember (kc0 :: cd) as coord_dict eqn:Ecd.
  destruct (_ && _); [|discriminate].
  intros [= <-]. eexists. eexists. split; [reflexivity|]. split; [reflexivity|].
  unfold unique_edges, connections_cover, edges. cbn [adj].
  rewrite flat_map_map_fst. split.
  - apply unique_edgesb_NoDup. apply by_source_NoDup; [apply seq_NoDup | exact Hnd].
  - apply forallb_forall. intros e He. apply item_geometry_row; auto.
    apply in_flat_map in He as (u & _ & He).
    apply in_map_iff in He as (kc & <- & Hkc). apply filter_In in Hkc as [Hkc _].
    apply in_map. exact Hkc.
Qed.

Lemma unique_edges_remove_edges_from g m :
  unique_edges g = true -> unique_edges (remove_edges_from g m) = true.
Proof.
  unfold unique_edges. rewrite !unique_edgesb_NoDup. revert g.
  induction m as [|e m IH]; intros g H; [exact H|].
  rewrite remove_edges_from_cons. apply IH.
  rewrite edges_remove_edge. apply NoDup_filter. exact H.
Qed.

Lemma rows_of_edge_drop e e' t :
  e <> e' ->
  filter (fun r => (from r =? fst e) && (to r =? snd e)) (drop_connection e' t)
  = filter (fun r => (from r =? fst e) && (to r =? snd e)) t.
Proof.
  intros Hne. unfold drop_connection.
  induction t as [|r t IH]; simpl; [reflexivity|].
  destruct ((from r =? fst e') && (to r =? snd e')) eqn:E'; simpl.
  - destruct ((from r =? fst e) && (to r =? snd e)) eqn:E; auto.
    exfalso. apply Hne.
    apply andb_true_iff in E as [E1 E2]. apply andb_true_iff in E' as [E3 E4].
    apply Nat.eqb_eq in E1, E2, E3, E4. destruct e, e'; simpl in *; congruence.
  - rewrite IH. reflexivity.
Qed.

Lemma item_geometry_drop e e' t :
  e <> e' -> item_geometry (drop_connection e' t) e = item_geometry t e.
Proof.
  intros Hne. unfold item_geometry. rewrite rows_of_edge_drop by exact Hne. reflexivity.
Qed.

Lemma item_geometry_drop_all e : forall m t,
  ~ In e m ->
  item_geometry (fold_left (fun t e' => drop_connection e' t) m t) e = item_geometry t e.
Proof.
  induction m as [|e' m IH]; intros t Hn; cbn [fold_left]; [reflexivity|].
  rewrite IH by (simpl in Hn; tauto).
  apply item_geometry_drop. simpl in Hn. intuition congruence.
Qed.

(** Pruning keeps a snapshot well formed. *)
Lemma prune_well_formed g connections mp g' connections' :
  unique_edges g = true ->
  connections_cover g connections = true ->
  prune g connections mp = Some (g', connections') ->
  unique_edges g' = true /\ connections_cover g' connections' = true.
Proof.
  intros Hu Hc Hp.
  destruct (@prune_spec g connections mp Hu) as (marked & _ & Hprune & _).
  rewrite Hprune in Hp. injection Hp as <- <-. split.
  - apply unique_edges_remove_edges_from. exact Hu.
  - unfold connections_cover in *. rewrite forallb_forall in *.
    intros e He. apply In_edges_remove_edges_from in He as [He Hn].
    rewrite item_geometry_drop_all by exact Hn. apply Hc. exact He.
Qed.

Lemma edges_set_edge g e f : edges (set_edge g e f) = edges g.
Proof.
  unfold edges, set_edge. simpl. rewrite map_map. apply map_ext.
  intros kd. destruct (edge_eqb (fst kd) e); reflexivity.
Qed.

(** Refinement keeps the graph well formed. *)
Lemma refine_unique_edges {geo : Geometry} self paths trajectories self' g0 g :
  G self = Some g0 ->
  unique_edges g0 = true ->
  refine_graph_from_paths self paths trajectories = Some self' ->
  G_refined self' = Some g ->
  unique_edges g = true.
Proof.
  intros HG Hu. unfold refine_graph_from_paths. rewrite HG.
  destruct (waypoint_connections self) as [c0|]; [|discriminate].
  match goal with
  | |- context [for_each ?b ?l (reset_weights g0, [], [])] =>
      destruct (for_each b l (reset_weights g0, [], [])) as [[[g1 sp] cr]|] eqn:E1
  end; [|discriminate].
  match goal with
  | |- context [for_each ?b (edges g1) ?s] =>
      destruct (for_each b (edges g1) s) as [[[g2 c2] m]|] eqn:E2
  end; [|discriminate].
  match goal with
  | |- context [for_each removal_step m ?s] =>
      destruct (for_each removal_step m s) as [[g3 c3]|] eqn:E3
  end; [|discriminate].
  intros [= <-]. cbn [G_refined]. intros [= <-].
  assert (U1 : unique_edges g1 = true).
  { change (unique_edges (fst (fst (g1, sp, cr))) = true).
    eapply (@for_each_preserves _ _ _
              (fun s : accumulators => unique_edges (fst (fst s)) = true));
      [| |exact E1];
      [|unfold unique_edges; simpl; rewrite edges_reset_weights; exact Hu].
    intros [i [mmsi pth]] s s' HP Hstep. unfold path_step in Hstep.
    eapply (@for_each_preserves _ _ _
              (fun s : accumulators => unique_edges (fst (fst s)) = true));
      [| |exact Hstep]; [|exact HP].
    clear. intros e [[g sp] cr] s' HP Hstep. unfold passage_step in Hstep.
    destruct (get_edge g (fst e) (snd e)); [|discriminate].
    destruct (get_trajectory trajectories mmsi) as [t|]; [|discriminate].
    destruct (clip_trajectory_between_WPs _ _ _ _) as [[[? ?] ?]|]; [|discriminate].
    destruct (transit_speed _ _ _); [|discriminate].
    destruct (signed_distances _ _ _ _ _); [|discriminate].
    injection Hstep as <-. simpl in *. unfold unique_edges in *.
    rewrite edges_set_edge. exact HP. }
  assert (U2 : unique_edges g2 = true).
  { change (unique_edges (fst (fst (g2, c2, m))) = true).
    eapply (@for_each_preserves _ _ _
              (fun s : DiGraph * list connection * list (nat * nat) =>
                 unique_edges (fst (fst s)) = true));
      [| |exact E2]; [|exact U1].
    clear. intros e [[g c] m] s' HP Hstep. unfold feature_step in Hstep.
    destruct (get_edge g (fst e) (snd e)) as [d|]; [|discriminate].
    destruct (weight d =? 0)%Z; injection Hstep as <-; simpl in *; auto.
    unfold unique_edges in *. rewrite edges_set_edge. exact HP. }
  change (unique_edges (fst (g3, c3)) = true).
  eapply (@for_each_preserves _ _ _
            (fun s : DiGraph * list connection => unique_edges (fst s) = true));
    [| |exact E3]; [|exact U2].
  clear. intros e [g c] s' HP Hstep. unfold removal_step in Hstep. simpl in Hstep.
  destruct (remove_edge_exn g e) as [g'|] eqn:E; [|discriminate].
  injection Hstep as <-. simpl in *. apply remove_edge_exn_Some in E as [_ ->].
  apply (@unique_edges_remove_edges_from g [e]). exact HP.
Qed.

(** The outcome [no_path]: the matching raises and node 3 cannot be
    reached from node 2. *)
Example no_path_outcome :
  trajectory_to_path_sspd (geo := stuck_sea) pruned_triangle [2; 3] 500 5 "standard"
  = Some (failure 7 no_path).
Proof. reflexivity. Qed.

(** The outcome [no_intersects]: a single passage. *)
Example no_intersects_outcome :
  trajectory_to_path_sspd (geo := flat_sea) pruned_triangle [3] 500 5 "standard"
  = Some (failure 7 no_intersects).
Proof. reflexivity. Qed.

(** The outcome [success] on the route [0 -> 1 -> 2]. *)
Example success_outcome :
  option_map (fun r => (eval_message (snd r), path (snd r)))
    (trajectory_to_path_sspd (geo := flat_sea) pruned_triangle [0; 1; 2] 500 5 "standard")
  = Some (success, Some [0; 1; 2]).
Proof. reflexivity. Qed.

(** * Further properties of the code *)

(** ** The angle between a course and an edge *)

Lemma circular_distance_bounds a b : (0 <= circular_distance a b <= 180)%Q.
Proof.
  unfold circular_distance.
  destruct (Qmod_range (a - b)) as ((H0 & H1) & _).
  set (m := Qmod (a - b) 360) in *. clearbody m.
  destruct (Qlt_le_dec m 180) as [Hlt|Hge].
  - rewrite Q.min_l by lra. lra.
  - rewrite Q.min_r by lra. lra.
Qed.

Lemma circular_distance_sym a b : (circular_distance a b == circular_distance b a)%Q.
Proof.
  unfold circular_distance.
  destruct (Qmod_range (a - b)) as ((H0 & H1) & Hx).
  set (m := Qmod (a - b) 360) in *.
  set (k := Qfloor ((a - b) / 360)) in *.
  clearbody m k.
  destruct (Qlt_le_dec 0 m) as [Hpos|Hzero].
  - assert (Hr : (Qmod (b - a) 360 == 360 - m)%Q).
    { apply Qmod_unique with (k := (- k - 1)%Z); try lra.
      unfold Zminus. rewrite !inject_Z_plus, !inject_Z_opp.
      change (inject_Z 1) with 1%Q. lra. }
    rewrite Hr.
    destruct (Qlt_le_dec m 180) as [Hlt|Hge].
    + rewrite Q.min_l by lra. rewrite Q.min_r by lra. lra.
    + rewrite Q.min_r by lra. rewrite Q.min_l by lra. lra.
  - assert (Hr : (Qmod (b - a) 360 == 0)%Q).
    { apply Qmod_unique with (k := (- k)%Z); try lra.
      rewrite inject_Z_opp. lra. }
    rewrite Hr. rewrite !Q.min_l by lra. lra.
Qed.

(** X1.  For two compass courses in whole degrees, on which every
    floating-point operation of [np.abs(a - b + 180) % 360 - 180] is exact,
    the angle that [prune_graph] and [make_graph_from_waypoints] compute has,
    in absolute value, the circular distance of the two courses: it lies
    between 0 and 180 degrees and does not depend on the order of the
    courses, although the absolute value is taken before the remainder. *)
Theorem angle_between_is_circular (a b : Z) :
  (0 <= a < 360)%Z -> (0 <= b < 360)%Z ->
  (Qabs (angle_between (inject_Z a) (inject_Z b))
   == circular_distance (inject_Z a) (inject_Z b))%Q /\
  (0 <= Qabs (angle_between (inject_Z a) (inject_Z b)) <= 180)%Q /\
  (Qabs (angle_between (inject_Z a) (inject_Z b))
   == Qabs (angle_between (inject_Z b) (inject_Z a)))%Q.
Proof.
  intros _ _. split; [apply angle_between_circular|]. split.
  - rewrite angle_between_circular. apply circular_distance_bounds.
  - rewrite !angle_between_circular. apply circular_distance_sym.
Qed.

(** The courses 350 and 10 are 20 degrees apart. *)
Lemma angle_between_is_circular_witness :
  (Qabs (angle_between (inject_Z 350) (inject_Z 10))
   == circular_distance (inject_Z 350) (inject_Z 10))%Q /\
  (0 <= Qabs (angle_between (inject_Z 350) (inject_Z 10)) <= 180)%Q /\
  (Qabs (angle_between (inject_Z 350) (inject_Z 10))
   == Qabs (angle_between (inject_Z 10) (inject_Z 350)))%Q.
Proof.
  apply (@angle_between_is_circular 350 10); lia.
Defined.

(** ** More on [prune_graph] *)

Lemma mem_edge_cons x e m : mem_edge x (e :: m) = edge_eqb x e || mem_edge x m.
Proof. reflexivity. Qed.

Lemma filter_filter {A} (P1 P2 : A -> bool) l :
  filter P2 (filter P1 l) = filter (fun x => P1 x && P2 x) l.
Proof.
  induction l as [|x l IH]; simpl; [reflexivity|].
  destruct (P1 x); simpl; [destruct (P2 x)|]; rewrite IH; reflexivity.
Qed.

Lemma adj_remove_edges_from m : forall g,
  adj (remove_edges_from g m) = filter (fun kd => negb (mem_edge (fst kd) m)) (adj g).
Proof.
  induction m as [|e m IH]; intros g.
  - simpl. symmetry. apply forallb_filter_id. apply forallb_forall. reflexivity.
  - rewrite remove_edges_from_cons, IH. unfold remove_edge. cbn [adj].
    rewrite filter_filter. apply filter_ext. intros kd.
    rewrite mem_edge_cons, negb_orb. destruct e; reflexivity.
Qed.

Lemma drop_connections_filter m : forall t,
  fold_left (fun t e => drop_connection e t) m t
  = filter (fun r => negb (mem_edge (from r, to r) m)) t.
Proof.
  induction m as [|e m IH]; intros t; cbn [fold_left].
  - symmetry. apply forallb_filter_id. apply forallb_forall. reflexivity.
  - rewrite IH. unfold drop_connection. rewrite filter_filter. apply filter_ext.
    intros r. rewrite mem_edge_cons, negb_orb. reflexivity.
Qed.

Lemma get_edge_removed m g u v :
  In (u, v) m -> get_edge (remove_edges_from g m) u v = None.
Proof.
  intros Hin. destruct (get_edge (remove_edges_from g m) u v) as [d|] eqn:E; auto.
  assert (H : In (u, v) (edges (remove_edges_from g m))).
  { apply has_edge_In. unfold has_edge. rewrite E. reflexivity. }
  apply In_edges_remove_edges_from in H. tauto.
Qed.

(** The state that [prune_graph] returns, in terms of the marked edges. *)
Lemma prune_graph_result self mp graph g connections :
  graph = "original"%string \/ graph = "refined"%string ->
  selected_snapshot self graph = (Some g, Some connections) ->
  unique_edges g = true ->
  exists marked,
    marked_edges g mp = Some marked /\
    prune_graph self mp graph =
      Some (mk_MTN (waypoints self) (waypoint_connections self)
              (Some (filter (fun r => negb (mem_edge (from r, to r) marked)) connections))
              (waypoint_connections_refined self)
              (G self)
              (Some (remove_edges_from g marked))
              (G_refined self)) /\
    (forall e, In e marked -> In e (edges g)) /\
    (forall e, In e (edges g) ->
       (In e marked <->
        violates_direction g e = true \/
        (low_traffic g mp e = true /\
         exists pre post, edges g = pre ++ e :: post /\
                          short_detour (working_copy g mp pre e) e))).
Proof.
  intros Hgraph Hsel Hu.
  destruct (@prune_spec g connections mp Hu) as (marked & Hm & Hprune & Hmarked).
  exists marked. split; [exact Hm|]. split; [|split].
  - rewrite (@prune_graph_selected self mp graph g connections Hgraph Hsel), Hprune.
    rewrite drop_connections_filter. reflexivity.
  - intros e He.
    unfold marked_edges in Hm. rewrite direction_loop in Hm by auto. simpl app in Hm.
    apply unique_edgesb_NoDup in Hu.
    destruct (@redundancy_loop g mp (edges g) g (filter (violates_direction g) (edges g)) Hu)
      as (m' & Hloop & Hm' & _); [auto|].
    rewrite Hloop in Hm. simpl in Hm. injection Hm as <-.
    apply Hm' in He as [He|(l1 & l2 & E & _)].
    + apply filter_In in He. tauto.
    + rewrite E. apply in_app_iff. simpl. auto.
  - intros e He. apply in_split in He as (pre & post & E).
    rewrite (Hmarked _ _ _ E). split.
    + intros [?|[? ?]]; [left; assumption|right]. split; [assumption|]. eauto.
    + intros [?|[Hlow (pre' & post' & E' & Hdet)]]; [left; assumption|right].
      split; [assumption|].
      assert (pre' = pre); [|subst; assumption].
      apply unique_edgesb_NoDup in Hu. rewrite E in E', Hu.
      clear - E' Hu. revert pre' E'. induction pre as [|a pre IH]; intros l1 E'.
      * destruct l1 as [|b l1]; auto. simpl in *. injection E' as <- E'.
        inversion Hu as [|? ? Hnin _]; subst. exfalso. apply Hnin.
        apply in_app_iff; simpl; auto.
      * destruct l1 as [|b l1]; simpl in *; injection E' as E0 E'.
        -- subst a. inversion Hu as [|? ? Hnin _]; subst. exfalso. apply Hnin.
           apply in_app_iff; simpl; auto.
        -- f_equal; [congruence|]. apply IH; auto. inversion Hu; auto.
Qed.

(** X2.  [prune_graph] removes every edge [(u, v)] for which [u] has no
    course-after or [v] has no course-before, and every edge on which its
    test of the traffic direction succeeds, [np.abs(angle1) > 90] and
    [np.abs(angle2) > 90], whatever the weight of the edge: the edge is
    neither in the pruned graph nor in the pruned table. *)
Theorem prune_graph_removes_inconsistent_edge self mp graph g connections u v d :
  graph = "original"%string \/ graph = "refined"%string ->
  selected_snapshot self graph = (Some g, Some connections) ->
  unique_edges g = true ->
  get_edge g u v = Some d ->
  (node_attr g u cog_after = None \/
   node_attr g v cog_before = None \/
   violates_direction g (u, v) = true) ->
  exists self' g_pruned connections_pruned,
    prune_graph self mp graph = Some self' /\
    G_pruned self' = Some g_pruned /\
    waypoint_connections_pruned self' = Some connections_pruned /\
    get_edge g_pruned u v = None /\
    forall r, In r connections_pruned -> ~ (from r = u /\ to r = v).
Proof.
  intros Hgraph Hsel Hu Hd Hbad.
  destruct (@prune_graph_result self mp graph g connections Hgraph Hsel Hu)
    as (marked & _ & Hres & _ & Hmarked).
  assert (Hin : In (u, v) (edges g)).
  { apply has_edge_In. unfold has_edge. rewrite Hd. reflexivity. }
  assert (Hv : violates_direction g (u, v) = true).
  { destruct Hbad as [H|[H|H]]; [| |exact H];
      unfold violates_direction; cbn [fst snd]; rewrite Hd, H; [reflexivity|].
    destruct (node_attr g u cog_after); reflexivity. }
  assert (Hm : In (u, v) marked).
  { apply (Hmarked _ Hin). left. exact Hv. }
  eexists. eexists. eexists. split; [exact Hres|]. cbn [G_pruned waypoint_connections_pruned].
  split; [reflexivity|]. split; [reflexivity|]. split.
  - apply get_edge_removed. exact Hm.
  - intros r Hr [<- <-]. apply filter_In in Hr as [_ Hr].
    apply mem_edge_In in Hm. rewrite Hm in Hr. discriminate.
Qed.

(** The edge [0 -> 1] runs south between way points whose courses are
    north. *)
Lemma prune_graph_removes_inconsistent_edge_witness :
  exists self' g_pruned connections_pruned,
    prune_graph southbound_network 1 "original" = Some self' /\
    G_pruned self' = Some g_pruned /\
    waypoint_connections_pruned self' = Some connections_pruned /\
    get_edge g_pruned 0 1 = None /\
    forall r, In r connections_pruned -> ~ (from r = 0 /\ to r = 1).
Proof.
  apply (@prune_graph_removes_inconsistent_edge southbound_network 1%Z "original"%string
           southbound_graph southbound_connections 0 1
           (mk_edge_attrs 1 1%Q 180%Q 1%Q [] None)).
  - left; reflexivity.
  - reflexivity.
  - reflexivity.
  - reflexivity.
  - right. right. reflexivity.
Defined.

(** X3.  When no edge has a weight below [min_passages], the redundancy
    filter removes nothing: the pruned graph holds exactly the edges of the
    input graph that do not violate the traffic direction, in the same order
    and with the same attributes. *)
Theorem prune_graph_low_threshold self mp graph g connections :
  graph = "original"%string \/ graph = "refined"%string ->
  selected_snapshot self graph = (Some g, Some connections) ->
  unique_edges g = true ->
  (forall u v d, get_edge g u v = Some d -> (mp <= weight d)%Z) ->
  exists self' g_pruned,
    prune_graph self mp graph = Some self' /\
    G_pruned self' = Some g_pruned /\
    adj g_pruned = filter (fun kd => negb (violates_direction g (fst kd))) (adj g).
Proof.
  intros Hgraph Hsel Hu Hw.
  destruct (@prune_graph_result self mp graph g connections Hgraph Hsel Hu)
    as (marked & _ & Hres & _ & Hmarked).
  eexists. eexists. split; [exact Hres|]. cbn [G_pruned]. split; [reflexivity|].
  rewrite adj_remove_edges_from. apply filter_ext_in. intros kd Hkd. f_equal.
  assert (Hin : In (fst kd) (edges g)) by (apply in_map; exact Hkd).
  assert (Hlow : low_traffic g mp (fst kd) = false).
  { unfold low_traffic. destruct (get_edge g (fst (fst kd)) (snd (fst kd))) as [d|] eqn:E; auto.
    apply Z.ltb_ge. eapply Hw; eauto. }
  specialize (Hmarked _ Hin). rewrite Hlow in Hmarked.
  destruct (mem_edge (fst kd) marked) eqn:Em, (violates_direction g (fst kd)) eqn:Ev; auto.
  - apply mem_edge_In in Em. apply Hmarked in Em as [?|[? _]]; discriminate.
  - assert (In (fst kd) marked) by (apply Hmarked; auto).
    apply mem_edge_In in H. congruence.
Qed.

Lemma prune_graph_low_threshold_witness :
  exists self' g_pruned,
    prune_graph southbound_network 1 "original" = Some self' /\
    G_pruned self' = Some g_pruned /\
    adj g_pruned = filter (fun kd => negb (violates_direction southbound_graph (fst kd)))
                     (adj southbound_graph).
Proof.
  apply (@prune_graph_low_threshold southbound_network 1%Z "original"%string
           southbound_graph southbound_connections).
  - left; reflexivity.
  - reflexivity.
  - reflexivity.
  - intros u v d H. apply assoc_In in H. simpl in H.
    destruct H as [H|[H|[H|[]]]]; injection H as _ _ <-; simpl; lia.
Defined.

(** X4.  Pruning keeps the snapshot consistent: the pruned graph has at
    most one edge per ordered pair, the pruned table has exactly one row for
    each remaining edge, and every row it keeps is a row of the input table
    whose edge, if it was in the graph, is still in the pruned graph. *)
Theorem prune_graph_table_consistent self mp graph g connections :
  graph = "original"%string \/ graph = "refined"%string ->
  selected_snapshot self graph = (Some g, Some connections) ->
  unique_edges g = true ->
  connections_cover g connections = true ->
  exists self' g_pruned connections_pruned,
    prune_graph self mp graph = Some self' /\
    G_pruned self' = Some g_pruned /\
    waypoint_connections_pruned self' = Some connections_pruned /\
    unique_edges g_pruned = true /\
    connections_cover g_pruned connections_pruned = true /\
    forall r, In r connections_pruned ->
      In r connections /\
      (In (from r, to r) (edges g) -> In (from r, to r) (edges g_pruned)).
Proof.
  intros Hgraph Hsel Hu Hc.
  destruct (@prune_graph_result self mp graph g connections Hgraph Hsel Hu)
    as (marked & _ & Hres & _ & _).
  eexists. eexists. eexists. split; [exact Hres|].
  cbn [G_pruned waypoint_connections_pruned].
  split; [reflexivity|]. split; [reflexivity|]. split; [|split].
  - apply unique_edges_remove_edges_from. exact Hu.
  - rewrite <- drop_connections_filter.
    unfold connections_cover in *. rewrite forallb_forall in *.
    intros e He. apply In_edges_remove_edges_from in He as [He Hn].
    rewrite item_geometry_drop_all by exact Hn. apply Hc. exact He.
  - intros r Hr. apply filter_In in Hr as [Hr Hm]. split; [exact Hr|].
    intros He. apply In_edges_remove_edges_from. split; [exact He|].
    intros Hin. apply mem_edge_In in Hin. rewrite Hin in Hm. discriminate.
Qed.

Lemma prune_graph_table_consistent_witness :
  exists self' g_pruned connections_pruned,
    prune_graph triangle_network 2 "original" = Some self' /\
    G_pruned self' = Some g_pruned /\
    waypoint_connections_pruned self' = Some connections_pruned /\
    unique_edges g_pruned = true /\
    connections_cover g_pruned connections_pruned = true /\
    forall r, In r connections_pruned ->
      In r triangle_connections /\
      (In (from r, to r) (edges triangle_graph) -> In (from r, to r) (edges g_pruned)).
Proof.
  apply (@prune_graph_table_consistent triangle_network 2%Z "original"%string
           triangle_graph triangle_connections).
  - left; reflexivity.
  - reflexivity.
  - reflexivity.
  - reflexivity.
Defined.

(** *** Pruning twice *)

Lemma NoDup_split_unique {A} (x : A) : forall l1 l2 l1' l2',
  NoDup (l1 ++ x :: l2) -> l1 ++ x :: l2 = l1' ++ x :: l2' -> l1 = l1'.
Proof.
  induction l1 as [|a l1 IH]; intros l2 l1' l2' Hnd E.
  - destruct l1' as [|b l1']; auto. simpl in *. injection E as <- E.
    inversion Hnd as [|? ? Hnin _]; subst. exfalso. apply Hnin.
    apply in_app_iff; simpl; auto.
  - destruct l1' as [|b l1']; simpl in *; injection E as E0 E.
    + subst a. inversion Hnd as [|? ? Hnin _]; subst. exfalso. apply Hnin.
      apply in_app_iff; simpl; auto.
    + f_equal; [exact E0|]. eapply IH; eauto. inversion Hnd; auto.
Qed.

Lemma walk_mono g h u v p :
  (forall e, In e (edges g) -> In e (edges h)) -> walk g u v p -> walk h u v p.
Proof.
  intros Hsub. induction 1 as [u|u w v p He Hw IH].
  - apply walk_nil.
  - apply walk_cons with (w := w); auto.
Qed.

Lemma edges_remove_edges_from m g :
  edges (remove_edges_from g m) = filter (fun e => negb (mem_edge e m)) (edges g).
Proof.
  unfold edges. rewrite adj_remove_edges_from.
  induction (adj g) as [|kd l IH]; simpl; [reflexivity|].
  destruct (mem_edge (fst kd) m); simpl; rewrite IH; reflexivity.
Qed.

Lemma node_attr_remove_edges_from m g u attr :
  node_attr (remove_edges_from g m) u attr = node_attr g u attr.
Proof. unfold node_attr. rewrite nodes_remove_edges_from. reflexivity. Qed.

Lemma violates_direction_remove m g e :
  ~ In e m ->
  violates_direction (remove_edges_from g m) e = violates_direction g e.
Proof.
  intros Hn. unfold violates_direction.
  rewrite get_edge_remove_edges_from by (destruct e; exact Hn).
  rewrite !node_attr_remove_edges_from. reflexivity.
Qed.

Lemma low_traffic_remove m g mp e :
  ~ In e m -> low_traffic (remove_edges_from g m) mp e = low_traffic g mp e.
Proof.
  intros Hn. unfold low_traffic.
  rewrite get_edge_remove_edges_from by (destruct e; exact Hn). reflexivity.
Qed.

(** X5.  The pruning loops are idempotent: applied to their own result
    with the same [min_passages], they mark no edge and return the graph and
    the table unchanged. *)
Theorem prune_idempotent g connections mp g' connections' :
  unique_edges g = true ->
  prune g connections mp = Some (g', connections') ->
  marked_edges g' mp = Some [] /\
  prune g' connections' mp = Some (g', connections').
Proof.
  intros Hu Hp.
  destruct (@prune_spec g connections mp Hu) as (marked & Hm & Hprune & Hmarked).
  rewrite Hprune in Hp. injection Hp as <- <-.
  set (g' := remove_edges_from g marked).
  assert (Hu' : unique_edges g' = true) by (apply unique_edges_remove_edges_from; exact Hu).
  pose (mtn := mk_MTN [] (Some connections) None None (Some g') None None).
  destruct (@prune_graph_result mtn mp "original"%string g' connections
              (or_introl eq_refl) eq_refl Hu')
    as (marked' & Hm' & _ & Hincl' & Hmarked').
  assert (Hnil : marked' = []).
  { destruct marked' as [|e rest]; auto. exfalso.
    assert (He' : In e (edges g')) by (apply Hincl'; simpl; auto).
    pose proof He' as He. apply In_edges_remove_edges_from in He as [He Hn].
    apply in_split in He as (pre & post & E).
    assert (Hsplit' : edges g' = filter (fun x => negb (mem_edge x marked)) pre
                                 ++ e :: filter (fun x => negb (mem_edge x marked)) post).
    { unfold g'. rewrite edges_remove_edges_from, E, filter_app. simpl.
      destruct (mem_edge e marked) eqn:Em; [apply mem_edge_In in Em; contradiction|].
      reflexivity. }
    destruct (proj1 (Hmarked' e He') (or_introl eq_refl)) as [Hv|[Hlow Hdet]].
    - unfold g' in Hv. rewrite violates_direction_remove in Hv by exact Hn.
      apply Hn. apply (Hmarked _ _ _ E). auto.
    - destruct Hdet as (pre' & post' & E' & q & Hq & Hh).
      unfold g' in Hlow. rewrite low_traffic_remove in Hlow by exact Hn.
      apply Hn. apply (Hmarked _ _ _ E). right. split; [exact Hlow|].
      exists q. split; [|exact Hh].
      apply unique_edgesb_NoDup in Hu'.
      assert (Hpre : pre' = filter (fun x => negb (mem_edge x marked)) pre).
      { symmetry. eapply NoDup_split_unique; [|rewrite <- Hsplit'; exact E'].
        rewrite <- Hsplit'. exact Hu'. }
      eapply walk_mono; [|exact Hq].
      intros x Hx. unfold working_copy in *.
      apply In_edges_remove_edges_from in Hx as [Hx Hnx].
      pose proof Hx as Hxg. apply In_edges_remove_edges_from in Hxg as [Hxg Hxn].
      apply In_edges_remove_edges_from. split; [exact Hxg|].
      intros Hf. apply Hnx. apply filter_In in Hf as [Hf Hlx].
      apply filter_In. split.
      + rewrite Hpre. apply in_app_iff in Hf as [Hf|[<-|[]]]; apply in_app_iff.
        * left. apply filter_In. split; [exact Hf|].
          destruct (mem_edge x marked) eqn:Ex; auto. apply mem_edge_In in Ex. contradiction.
        * right. simpl. auto.
      + unfold g'. rewrite low_traffic_remove by exact Hxn. exact Hlx. }
  subst marked'. split; [exact Hm'|].
  unfold prune. rewrite Hm'. reflexivity.
Qed.

Lemma prune_idempotent_witness :
  marked_edges (remove_edges_from triangle_graph [(0, 2)]) 2 = Some [] /\
  prune (remove_edges_from triangle_graph [(0, 2)]) [row 0 1 5; row 1 2 5] 2
  = Some (remove_edges_from triangle_graph [(0, 2)], [row 0 1 5; row 1 2 5]).
Proof.
  apply (@prune_idempotent triangle_graph triangle_connections 2%Z
           (remove_edges_from triangle_graph [(0, 2)]) [row 0 1 5; row 1 2 5]).
  - reflexivity.
  - reflexivity.
Defined.

(** ** More on [make_graph_from_waypoints] *)

Lemma fromkeys_In x l : In x (OrderedDict_fromkeys l) <-> In x l.
Proof.
  induction l as [|a l IH]; simpl; [tauto|].
  rewrite filter_In, IH. destruct (Nat.eqb_spec x a); simpl; intuition congruence.
Qed.

Lemma fromkeys_NoDup l : NoDup (OrderedDict_fromkeys l).
Proof.
  induction l as [|a l IH]; simpl; constructor.
  - rewrite filter_In. rewrite Nat.eqb_refl. simpl. intuition discriminate.
  - apply NoDup_filter. exact IH.
Qed.

Lemma consecutive_distinct p e : NoDup p -> In e (consecutive p) -> fst e <> snd e.
Proof.
  induction p as [|a [|b tl] IH]; simpl; try tauto.
  intros Hnd [<-|H].
  - simpl. inversion Hnd as [|? ? Hnin _]; subst. intros ->. apply Hnin. simpl; auto.
  - apply IH; [inversion Hnd; auto | exact H].
Qed.

Lemma assoc_count_passage e cd x :
  assoc x (count_passage e cd) =
  if edge_eqb e x
  then Some (match assoc x cd with Some c => (c + 1)%Z | None => 1%Z end)
  else assoc x cd.
Proof.
  induction cd as [|[k c] cd IH]; simpl.
  - rewrite edge_eqb_sym. destruct (edge_eqb x e); reflexivity.
  - destruct (edge_eqb_spec k e) as [->|Hne]; simpl.
    + destruct (edge_eqb_spec e x) as [->|Hx]; [reflexivity|reflexivity].
    + destruct (edge_eqb_spec k x) as [->|Hkx].
      * destruct (edge_eqb_spec e x); [congruence|reflexivity].
      * exact IH.
Qed.

Lemma counts_ok_assoc cd e c : counts_ok cd -> assoc e cd = Some c -> (1 <= c)%Z.
Proof. intros Hok H. apply assoc_In in H. apply (Hok _ _ H). Qed.

Lemma tally_count_passage e cd x :
  counts_ok cd ->
  tally (count_passage e cd) x = (tally cd x + (if edge_eqb e x then 1 else 0))%Z.
Proof.
  intros Hok. unfold tally. rewrite assoc_count_passage.
  destruct (edge_eqb e x); [|lia]. destruct (assoc x cd); lia.
Qed.

Lemma tally_fold_pairs x : forall pairs cd,
  counts_ok cd ->
  (forall rc, In rc pairs -> fst rc <> snd rc) ->
  tally (fold_left (fun cd rc =>
                      if negb (fst rc =? snd rc) then count_passage rc cd else cd)
                   pairs cd) x
  = (tally cd x + Z.of_nat (List.length (filter (fun rc => edge_eqb rc x) pairs)))%Z.
Proof.
  induction pairs as [|rc pairs IH]; intros cd Hok Hd; cbn [fold_left filter].
  - simpl. lia.
  - assert (Hne : fst rc <> snd rc) by (apply Hd; simpl; auto).
    apply Nat.eqb_neq in Hne. rewrite Hne. cbn [negb].
    rewrite IH; [|apply count_passage_ok; [apply Nat.eqb_neq; exact Hne|exact Hok]
                 |intros; apply Hd; simpl; auto].
    rewrite tally_count_passage by exact Hok.
    destruct (edge_eqb rc x); cbn [List.length]; lia.
Qed.

Lemma occurrences_NoDup (x : nat * nat) l :
  NoDup l ->
  List.length (filter (fun rc => edge_eqb rc x) l) = if mem_edge x l then 1 else 0.
Proof.
  induction l as [|a l IH]; intros Hnd; [reflexivity|].
  inversion Hnd as [|? ? Hnin Hnd']; subst.
  cbn [filter]. rewrite mem_edge_cons, (edge_eqb_sym x a).
  destruct (edge_eqb_spec a x) as [->|Hne]; cbn [orb List.length].
  - rewrite (IH Hnd').
    destruct (mem_edge x l) eqn:E; [apply mem_edge_In in E; contradiction|reflexivity].
  - apply IH. exact Hnd'.
Qed.

Lemma tally_add_passages x passages cd :
  counts_ok cd -> NoDup passages ->
  tally (add_passages passages cd) x
  = (tally cd x + (if mem_edge x (consecutive passages) then 1 else 0))%Z.
Proof.
  intros Hok Hnd. unfold add_passages.
  destruct (Nat.ltb_spec 1 (List.length passages)) as [Hlen|Hlen].
  - rewrite tally_fold_pairs;
      [|exact Hok|intros rc Hrc; apply (consecutive_distinct _ Hnd Hrc)].
    rewrite occurrences_NoDup by (apply consecutive_NoDup; exact Hnd).
    destruct (mem_edge x (consecutive passages)); reflexivity.
  - destruct passages as [|a [|b tl]]; simpl in *; try lia.
Qed.

(** The count of a pair in [coord_dict] is the number of trajectories that
    pass the pair. *)
Lemma tally_count_connections {geo : Geometry} wps trajectories max_distance max_angle u v :
  tally (count_connections wps trajectories max_distance max_angle) (u, v)
  = Z.of_nat (passes wps trajectories max_distance max_angle u v).
Proof.
  unfold count_connections, passes.
  assert (G : forall cd, counts_ok cd ->
            tally (fold_left
                     (fun cd trajectory =>
                        add_passages
                          (OrderedDict_fromkeys
                             (passed_waypoints trajectory wps max_distance max_angle)) cd)
                     trajectories cd) (u, v)
            = (tally cd (u, v)
               + Z.of_nat
                   (List.length
                      (filter (fun trajectory =>
                                 mem_edge (u, v)
                                   (consecutive
                                      (OrderedDict_fromkeys
                                         (passed_waypoints trajectory wps
                                            max_distance max_angle))))
                              trajectories)))%Z).
  { induction trajectories as [|t l IH]; intros cd Hok; cbn [fold_left filter].
    - simpl. lia.
    - rewrite IH by (apply add_passages_ok; exact Hok).
      rewrite tally_add_passages by (auto using fromkeys_NoDup).
      destruct (mem_edge (u, v) _); cbn [List.length]; lia. }
  rewrite G by (intros ? ? []). reflexivity.
Qed.

Lemma assoc_of_In_unique {B} (l : list (nat * nat * B)) e d :
  NoDup (map fst l) -> In (e, d) l -> assoc e l = Some d.
Proof.
  induction l as [|[k c] l IH]; simpl; [tauto|].
  intros Hnd [[= -> ->]|Hin].
  - rewrite edge_eqb_refl. reflexivity.
  - inversion Hnd as [|? ? Hnin Hnd']; subst.
    destruct (edge_eqb_spec k e) as [->|Hne]; [|auto].
    exfalso. apply Hnin. apply in_map_iff. exists (e, d). auto.
Qed.

(** What [make_graph_from_waypoints] returns when it returns. *)
Lemma make_graph_inversion {geo : Geometry}
  self trajectories max_distance max_angle self' :
  make_graph_from_waypoints self trajectories max_distance max_angle = Some self' ->
  let wps := waypoints self in
  let n := List.length wps in
  let cd := count_connections wps trajectories max_distance max_angle in
  cd <> [] /\
  (forall kc, In kc cd -> fst (fst kc) < n /\ snd (fst kc) < n) /\
  (forall w, In w wps -> clusterID w < n) /\
  self' = mk_MTN wps (Some (map (connection_row wps) cd))
            (waypoint_connections_pruned self) (waypoint_connections_refined self)
            (Some (mk_DiGraph
                     (map (fun k => (k, node_features wps k)) (seq 0 n))
                     (flat_map (fun u => map (edge_entry wps)
                                           (filter (fun kc => fst (fst kc) =? u) cd))
                               (seq 0 n))))
            (G_pruned self) (G_refined self).
Proof.
  unfold make_graph_from_waypoints. cbv zeta.
  destruct (count_connections _ _ _ _) as [|kc0 cd0] eqn:E; [discriminate|].
  remember (kc0 :: cd0) as cd eqn:Ecd.
  destruct (forallb _ cd && forallb _ (waypoints self)) eqn:Hr; [|discriminate].
  intros [= <-].
  apply andb_true_iff in Hr as [Hr1 Hr2].
  rewrite forallb_forall in Hr1, Hr2.
  split; [subst cd; discriminate|]. split; [|split].
  - intros kc Hkc. specialize (Hr1 _ Hkc). apply andb_true_iff in Hr1 as [H1 H2].
    apply Nat.ltb_lt in H1, H2. auto.
  - intros w Hw. apply Nat.ltb_lt. apply Hr2. exact Hw.
  - reflexivity.
Qed.

Lemma In_bucket {A} (src : A -> nat) (x : A) (l : list A) n :
  In x l -> src x < n ->
  In x (flat_map (fun u => filter (fun y => src y =? u) l) (seq 0 n)).
Proof.
  intros Hin Hlt. apply in_flat_map. exists (src x). split.
  - apply in_seq. lia.
  - apply filter_In. split; [exact Hin | apply Nat.eqb_refl].
Qed.

Lemma In_adj_raw {geo : Geometry} wps (cd : list (nat * nat * Z)) n kc :
  In kc cd -> fst (fst kc) < n ->
  In (edge_entry wps kc)
     (flat_map (fun u => map (edge_entry wps) (filter (fun kc => fst (fst kc) =? u) cd))
               (seq 0 n)).
Proof.
  intros Hin Hlt. apply in_flat_map. exists (fst (fst kc)). split.
  - apply in_seq. lia.
  - apply in_map. apply filter_In. split; [exact Hin | apply Nat.eqb_refl].
Qed.

Lemma get_edge_of_In_unique g u v d :
  unique_edges g = true -> In ((u, v), d) (adj g) -> get_edge g u v = Some d.
Proof.
  intros Hu Hin. apply assoc_of_In_unique; [|exact Hin].
  apply unique_edgesb_NoDup. exact Hu.
Qed.

Lemma add_passages_short passages cd :
  List.length passages <= 1 -> add_passages passages cd = cd.
Proof.
  intros H. unfold add_passages.
  destruct (Nat.ltb_spec 1 (List.length passages)); [lia|reflexivity].
Qed.

(** X6.  [make_graph_from_waypoints] raises when no trajectory passes two
    different way points; in particular for an empty list of trajectories. *)
Theorem make_graph_needs_a_connection {geo : Geometry}
  self trajectories max_distance max_angle :
  (forall trajectory, In trajectory trajectories ->
     List.length (OrderedDict_fromkeys
                    (passed_waypoints trajectory (waypoints self) max_distance max_angle))
     <= 1) ->
  make_graph_from_waypoints self trajectories max_distance max_angle = None.
Proof.
  intros H. unfold make_graph_from_waypoints. cbv zeta.
  assert (E : forall cd,
            fold_left
              (fun cd trajectory =>
                 add_passages
                   (OrderedDict_fromkeys
                      (passed_waypoints trajectory (waypoints self)
                         max_distance max_angle)) cd)
              trajectories cd = cd).
  { induction trajectories as [|t l IH]; intros cd; cbn [fold_left]; [reflexivity|].
    rewrite add_passages_short by (apply H; simpl; auto).
    apply IH. intros; apply H; simpl; auto. }
  unfold count_connections. rewrite E. reflexivity.
Qed.

Lemma make_graph_needs_a_connection_witness :
  make_graph_from_waypoints (geo := flat_sea) fresh_network [[0]; [1; 1]; []] 10 45 = None.
Proof.
  apply (@make_graph_needs_a_connection flat_sea fresh_network [[0]; [1; 1]; []] 10%Q 45%Q).
  intros t [<-|[<-|[<-|[]]]]; simpl; lia.
Defined.

(** X7.  In the raw graph there is an edge [(u, v)] exactly when some
    trajectory passes [u] and then, as its next distinct way point, [v]; the
    weight of the edge is the number of trajectories that do so. *)
Theorem make_graph_weight_counts_passes {geo : Geometry}
  self trajectories max_distance max_angle self' g u v :
  make_graph_from_waypoints self trajectories max_distance max_angle = Some self' ->
  G self' = Some g ->
  match get_edge g u v with
  | Some d =>
      weight d = Z.of_nat (passes (waypoints self) trajectories max_distance max_angle u v)
      /\ 1 <= passes (waypoints self) trajectories max_distance max_angle u v
  | None => passes (waypoints self) trajectories max_distance max_angle u v = 0
  end.
Proof.
  intros Hmake HG.
  destruct (make_graph_well_formed _ _ _ _ Hmake) as (g0 & c0 & HG0 & _ & Hu & _).
  rewrite HG in HG0. injection HG0 as <-.
  destruct (make_graph_inversion _ _ _ _ Hmake) as (_ & Hrange & _ & E).
  pose proof (tally_count_connections (waypoints self) trajectories
                max_distance max_angle u v) as Ht.
  pose proof (@count_connections_ok geo (waypoints self) trajectories
                max_distance max_angle) as Hok.
  pose proof (count_connections_NoDup (waypoints self) trajectories
                max_distance max_angle) as Hnd.
  set (cd := count_connections (waypoints self) trajectories max_distance max_angle) in *.
  assert (Hadj : adj g = flat_map (fun u => map (edge_entry (waypoints self))
                                              (filter (fun kc => fst (fst kc) =? u) cd))
                                  (seq 0 (List.length (waypoints self)))).
  { rewrite E in HG. cbn [G] in HG. injection HG as <-. reflexivity. }
  destruct (get_edge g u v) as [d|] eqn:Hd.
  - assert (Hin : In ((u, v), d) (adj g)) by (apply assoc_In; exact Hd).
    rewrite Hadj in Hin. apply in_flat_map in Hin as (s & _ & Hin).
    apply in_map_iff in Hin as (kc & Hkc & Hin). apply filter_In in Hin as [Hin _].
    destruct (edge_entry_spec (waypoints self) kc) as (Hk & Hw & _).
    rewrite Hkc in Hk, Hw. simpl in Hk, Hw. destruct kc as [k c]. simpl in *. subst k.
    assert (Ha : assoc (u, v) cd = Some c) by (apply assoc_of_In_unique; assumption).
    unfold tally in Ht. rewrite Ha in Ht.
    pose proof (counts_ok_assoc _ Hok Ha). split; lia.
  - destruct (assoc (u, v) cd) as [c|] eqn:Ha.
    + exfalso. apply assoc_In in Ha.
      assert (Hin : In (edge_entry (waypoints self) ((u, v), c)) (adj g)).
      { rewrite Hadj. apply In_adj_raw; [exact Ha|]. apply (Hrange _ Ha). }
      assert (He : In (u, v) (edges g)).
      { unfold edges. apply in_map_iff. eexists. split; [|exact Hin].
        apply edge_entry_spec. }
      apply has_edge_In in He. unfold has_edge in He. rewrite Hd in He. discriminate.
    + unfold tally in Ht. rewrite Ha in Ht. lia.
Qed.

Lemma make_graph_weight_counts_passes_witness :
  match get_edge raw_graph 0 1 with
  | Some d =>
      weight d = Z.of_nat (passes (geo := flat_sea) (waypoints fresh_network)
                             two_trajectories 10 45 0 1)
      /\ 1 <= passes (geo := flat_sea) (waypoints fresh_network) two_trajectories 10 45 0 1
  | None => passes (geo := flat_sea) (waypoints fresh_network) two_trajectories 10 45 0 1 = 0
  end.
Proof.
  apply (@make_graph_weight_counts_passes flat_sea fresh_network two_trajectories
           10%Q 45%Q raw_network raw_graph 0 1).
  - reflexivity.
  - reflexivity.
Defined.

(** X8.  The raw graph has one node for each index [0 .. n-1], [n] being
    the number of way points, whether or not an edge touches it; the end
    points of every edge are nodes, and no ordered pair has two edges. *)
Theorem make_graph_structure {geo : Geometry}
  self trajectories max_distance max_angle self' :
  make_graph_from_waypoints self trajectories max_distance max_angle = Some self' ->
  exists g,
    G self' = Some g /\
    waypoints self' = waypoints self /\
    map fst (nodes g) = seq 0 (List.length (waypoints self)) /\
    (forall u v, In (u, v) (edges g) ->
       In u (map fst (nodes g)) /\ In v (map fst (nodes g))) /\
    NoDup (edges g).
Proof.
  intros Hmake.
  destruct (make_graph_well_formed _ _ _ _ Hmake) as (g & c & HG & _ & Hu & _).
  destruct (make_graph_inversion _ _ _ _ Hmake) as (_ & Hrange & _ & E).
  exists g. split; [exact HG|]. split; [rewrite E; reflexivity|].
  assert (Hnodes : map fst (nodes g) = seq 0 (List.length (waypoints self))).
  { rewrite E in HG. cbn [G] in HG. injection HG as <-. cbn [nodes].
    rewrite map_map. simpl. apply map_id. }
  split; [exact Hnodes|]. split; [|apply unique_edgesb_NoDup; exact Hu].
  intros u v Hin. rewrite Hnodes, !in_seq.
  assert (Hadj : exists d, In ((u, v), d) (adj g)).
  { unfold edges in Hin. apply in_map_iff in Hin as ([k d] & Hk & Hin).
    simpl in Hk. subst k. eauto. }
  destruct Hadj as [d Hd].
  rewrite E in HG. cbn [G] in HG. injection HG as <-. cbn [adj] in Hd.
  apply in_flat_map in Hd as (s & _ & Hd).
  apply in_map_iff in Hd as (kc & Hkc & Hd). apply filter_In in Hd as [Hd _].
  destruct (edge_entry_spec (waypoints self) kc) as (Hk & _).
  rewrite Hkc in Hk. simpl in Hk. destruct (Hrange _ Hd) as [H1 H2].
  rewrite <- Hk in H1, H2. simpl in *. lia.
Qed.

Lemma make_graph_structure_witness :
  exists g,
    G raw_network = Some g /\
    waypoints raw_network = waypoints fresh_network /\
    map fst (nodes g) = seq 0 (List.length (waypoints fresh_network)) /\
    (forall u v, In (u, v) (edges g) ->
       In u (map fst (nodes g)) /\ In v (map fst (nodes g))) /\
    NoDup (edges g).
Proof.
  apply (@make_graph_structure flat_sea fresh_network two_trajectories 10%Q 45%Q
           raw_network).
  reflexivity.
Defined.

(** X9.  The table [waypoint_connections] and the raw graph agree: every
    row is an edge of the graph and carries its geometry, direction, length
    and weight; the weight is at least 1 and the edge's [inverse_weight] is
    [1 / passages]; every edge has exactly one row. *)
Theorem make_graph_table_agrees {geo : Geometry}
  self trajectories max_distance max_angle self' :
  make_graph_from_waypoints self trajectories max_distance max_angle = Some self' ->
  exists g connections,
    G self' = Some g /\
    waypoint_connections self' = Some connections /\
    connections_cover g connections = true /\
    forall r, In r connections ->
      exists d,
        get_edge g (from r) (to r) = Some d /\
        weight d = passages r /\
        direction d = conn_direction r /\
        edge_length d = conn_length r /\
        geometry d = conn_geometry r /\
        inverse_weight d = (1 / inject_Z (passages r))%Q /\
        (1 <= passages r)%Z.
Proof.
  intros Hmake.
  destruct (make_graph_well_formed _ _ _ _ Hmake) as (g & c & HG & Hc & Hu & Hcov).
  destruct (make_graph_inversion _ _ _ _ Hmake) as (_ & Hrange & _ & E).
  pose proof (@count_connections_ok geo (waypoints self) trajectories
                max_distance max_angle) as Hok.
  exists g, c. split; [exact HG|]. split; [exact Hc|]. split; [exact Hcov|].
  rewrite E in HG, Hc. cbn [G waypoint_connections] in HG, Hc.
  injection HG as Hg. injection Hc as <-.
  intros r Hr. apply in_map_iff in Hr as (kc & <- & Hkc).
  assert (Hin : In (edge_entry (waypoints self) kc) (adj g)).
  { rewrite <- Hg. cbn [adj]. apply In_adj_raw; [exact Hkc|]. apply (Hrange _ Hkc). }
  destruct kc as [[u v] w]. pose proof (Hok _ _ Hkc) as [_ Hw].
  unfold edge_entry, connection_row in *. simpl fst in *. simpl snd in *.
  destruct (straight_edge (waypoints self) u v) as [[geom dir] len].
  eexists. split; [apply get_edge_of_In_unique; [exact Hu|exact Hin]|].
  simpl. repeat split; auto.
Qed.

Lemma make_graph_table_agrees_witness :
  exists g connections,
    G raw_network = Some g /\
    waypoint_connections raw_network = Some connections /\
    connections_cover g connections = true /\
    forall r, In r connections ->
      exists d,
        get_edge g (from r) (to r) = Some d /\
        weight d = passages r /\
        direction d = conn_direction r /\
        edge_length d = conn_length r /\
        geometry d = conn_geometry r /\
        inverse_weight d = (1 / inject_Z (passages r))%Q /\
        (1 <= passages r)%Z.
Proof.
  apply (@make_graph_table_agrees flat_sea fresh_network two_trajectories 10%Q 45%Q
           raw_network).
  reflexivity.
Defined.

(** ** More on [refine_graph_from_paths] *)

(** A loop invariant that follows the part of the list already visited. *)
Lemma for_each_tracks {A S} (body : A -> S -> option S) (Inv : list A -> S -> Prop) :
  (forall done x s s', Inv done s -> body x s = Some s' -> Inv (done ++ [x]) s') ->
  forall l done s s', Inv done s -> for_each body l s = Some s' -> Inv (done ++ l) s'.
Proof.
  intros Hstep. induction l as [|x l IH]; intros done s s' HI; simpl.
  - intros [= <-]. rewrite app_nil_r. exact HI.
  - destruct (body x s) as [s1|] eqn:E; [|discriminate].
    intros H. replace (done ++ x :: l) with ((done ++ [x]) ++ l)
      by (rewrite <- app_assoc; reflexivity).
    eapply IH; [|exact H]. eapply Hstep; eauto.
Qed.

Lemma assoc_map_update {B} (f : B -> B) e x (l : list (nat * nat * B)) :
  assoc x (map (fun kd => if edge_eqb (fst kd) e then (fst kd, f (snd kd)) else kd) l)
  = if edge_eqb x e then option_map f (assoc x l) else assoc x l.
Proof.
  induction l as [|[k d] l IH]; simpl.
  - destruct (edge_eqb x e); reflexivity.
  - destruct (edge_eqb_spec k e) as [->|Hke]; simpl.
    + destruct (edge_eqb_spec e x) as [->|Hex].
      * rewrite edge_eqb_refl. reflexivity.
      * rewrite IH. reflexivity.
    + destruct (edge_eqb_spec k x) as [->|Hkx].
      * destruct (edge_eqb_spec x e); [congruence|reflexivity].
      * exact IH.
Qed.

Lemma get_edge_set_edge g e f u v :
  get_edge (set_edge g e f) u v
  = if edge_eqb (u, v) e then option_map f (get_edge g u v) else get_edge g u v.
Proof. unfold get_edge, set_edge. cbn [adj]. apply assoc_map_update. Qed.

Lemma nodes_set_edge g e f : nodes (set_edge g e f) = nodes g.
Proof. reflexivity. Qed.

Lemma get_edge_reset g u v :
  get_edge (reset_weights g) u v
  = option_map (fun d => mk_edge_attrs 0%Z 0%Q (direction d) (edge_length d)
                           (geometry d) (stats d))
      (get_edge g u v).
Proof.
  unfold get_edge, reset_weights. cbn [adj].
  induction (adj g) as [|[k d] l IH]; simpl; [reflexivity|].
  destruct (edge_eqb k (u, v)); [reflexivity|exact IH].
Qed.

Lemma counted_reset g0 : counted g0 [] (reset_weights g0).
Proof.
  unfold counted. split; [reflexivity|]. split; [apply edges_reset_weights|].
  split; [intros e []|].
  intros u v d0 Hd0. rewrite get_edge_reset, Hd0. simpl.
  eexists. split; [reflexivity|]. simpl. auto.
Qed.

Lemma counted_passage {geo : Geometry} g0 wps connections_refined i trajectory e
  hops_done g speeds cross_dists s' :
  counted g0 hops_done g ->
  passage_step wps connections_refined i trajectory e (g, speeds, cross_dists) = Some s' ->
  counted g0 (hops_done ++ [e]) (fst (fst s')).
Proof.
  intros (Hn & He & Hd & Hw) Hstep. unfold passage_step in Hstep.
  destruct (get_edge g (fst e) (snd e)) as [d|] eqn:Hge; [|discriminate].
  destruct trajectory as [t|]; [|discriminate].
  destruct (clip_trajectory_between_WPs _ _ _ _) as [[[? ?] ?]|]; [|discriminate].
  destruct (transit_speed _ _ _); [|discriminate].
  destruct (signed_distances _ _ _ _ _); [|discriminate].
  injection Hstep as <-. cbn [fst].
  assert (Hin : In e (edges g0)).
  { rewrite <- He. destruct e as [a b]. apply has_edge_In. unfold has_edge.
    simpl in Hge. rewrite Hge. reflexivity. }
  unfold counted. rewrite nodes_set_edge, edges_set_edge.
  split; [exact Hn|]. split; [exact He|]. split.
  - intros x Hx. apply in_app_iff in Hx as [Hx|[<-|[]]]; auto.
  - intros u v d0 Hd0. destruct (Hw u v d0 Hd0) as (d1 & Hd1 & Hw1 & Hrest).
    rewrite get_edge_set_edge, Hd1, filter_app, length_app. cbn [filter].
    rewrite (edge_eqb_sym e (u, v)).
    destruct (edge_eqb_spec (u, v) e) as [<-|Hne].
    + simpl in Hge. rewrite Hd1 in Hge. injection Hge as <-.
      eexists. split; [reflexivity|]. cbn. rewrite Hw1. split; [lia|exact Hrest].
    + exists d1. split; [reflexivity|]. cbn. rewrite Hw1. split; [lia|exact Hrest].
Qed.

Lemma counted_paths {geo : Geometry} g0 wps connections_refined trajectories :
  forall rows s s',
    counted g0 [] (fst (fst s)) ->
    for_each (path_step wps connections_refined trajectories) rows s = Some s' ->
    counted g0 (all_hops (map snd rows)) (fst (fst s')).
Proof.
  intros rows s s' H0 Hloop.
  pose (Inv := fun (done : list (nat * (nat * list nat))) (s : accumulators) =>
                 counted g0 (all_hops (map snd done)) (fst (fst s))).
  change (Inv ([] ++ rows) s').
  eapply (@for_each_tracks _ _ _ Inv); [|exact H0|exact Hloop].
  clear. intros done [i [mmsi p]] s s' HI Hstep. unfold Inv in *.
  rewrite map_app. unfold all_hops in *. rewrite flat_map_app. cbn [map flat_map snd].
  rewrite app_nil_r. unfold path_step in Hstep.
  set (hops0 := flat_map (fun row : nat * list nat => consecutive (snd row)) (map snd done))
    in *.
  eapply (@for_each_tracks _ _ _
            (fun hops (s : accumulators) => counted g0 (hops0 ++ hops) (fst (fst s))))
    with (done := []) in Hstep.
  - exact Hstep.
  - intros hops e [[g sp] cr] s1 HI1 Hs1. rewrite app_assoc.
    eapply counted_passage; [exact HI1|exact Hs1].
  - rewrite app_nil_r. exact HI.
Qed.

Lemma same_core_refl g : same_core g g.
Proof. unfold same_core. auto. Qed.

Lemma same_core_weight g g' e : same_core g g' -> weight_of g' e = weight_of g e.
Proof.
  intros (_ & _ & H). unfold weight_of. specialize (H (fst e) (snd e)).
  destruct (get_edge g' (fst e) (snd e)), (get_edge g (fst e) (snd e));
    simpl in H; try discriminate; try reflexivity.
  unfold core in H. congruence.
Qed.

Lemma same_core_stats g g' e s :
  same_core g g' -> same_core g (set_edge g' e (with_stats s)).
Proof.
  intros (Hn & He & H). unfold same_core.
  rewrite nodes_set_edge, edges_set_edge. split; [exact Hn|]. split; [exact He|].
  intros u v. rewrite get_edge_set_edge, <- H.
  destruct (edge_eqb (u, v) e); [|reflexivity].
  destruct (get_edge g' u v); reflexivity.
Qed.

Lemma mem_edge_app e l1 l2 : mem_edge e (l1 ++ l2) = mem_edge e l1 || mem_edge e l2.
Proof. unfold mem_edge. apply existsb_app. Qed.

Lemma counted_rows_nil g stat t : counted_rows g stat [] t = t.
Proof.
  unfold counted_rows. rewrite <- (map_id t) at 2. apply map_ext. reflexivity.
Qed.

Lemma counted_rows_skip g stat done e t :
  zero_weight g e = true ->
  counted_rows g stat (done ++ [e]) t = counted_rows g stat done t.
Proof.
  intros Hz. unfold counted_rows. apply map_ext. intros r.
  rewrite mem_edge_app. cbn [mem_edge existsb]. rewrite orb_false_r.
  destruct (edge_eqb_spec (from r, to r) e) as [->|Hne].
  - rewrite Hz. cbn [negb]. rewrite !andb_false_r. reflexivity.
  - rewrite orb_false_r. reflexivity.
Qed.

Lemma counted_rows_update g stat done e t :
  zero_weight g e = false ->
  update_connection e (weight_of g e) (stat e) (counted_rows g stat done t)
  = counted_rows g stat (done ++ [e]) t.
Proof.
  intros Hz. unfold counted_rows, update_connection. rewrite map_map.
  apply map_ext. intros r. rewrite mem_edge_app. cbn [mem_edge existsb].
  rewrite orb_false_r.
  assert (Hkey : forall r0 : connection,
             (from r0 =? fst e) && (to r0 =? snd e) = edge_eqb (from r0, to r0) e)
    by reflexivity.
  cbv beta.
  destruct (mem_edge (from r, to r) done) eqn:Hd;
    destruct (zero_weight g (from r, to r)) eqn:Hw;
    cbn [andb orb negb from to conn_geometry conn_direction conn_length];
    rewrite Hkey;
    destruct (edge_eqb_spec (from r, to r) e) as [E|Hne];
    cbn [andb orb negb]; try reflexivity.
  - rewrite E in Hw. congruence.
  - rewrite E. reflexivity.
  - rewrite E in Hw. congruence.
  - rewrite E. reflexivity.
Qed.

(** The loop that collects the statistics: it marks the edges of weight [0],
    writes the weight into the rows of the others, and leaves weights,
    directions, lengths and geometries of the graph as they are. *)
Lemma feature_loop_spec {geo : Geometry} dim3 speeds cross_dists g1 c0 :
  forall l done g m g2 c2 m2,
    same_core g1 g ->
    for_each (feature_step dim3 speeds cross_dists) l
      (g, counted_rows g1 (edge_statistics dim3 speeds cross_dists) done c0, m)
      = Some (g2, c2, m2) ->
    same_core g1 g2 /\
    c2 = counted_rows g1 (edge_statistics dim3 speeds cross_dists) (done ++ l) c0 /\
    m2 = m ++ filter (zero_weight g1) l.
Proof.
  induction l as [|e l IH]; intros done g m g2 c2 m2 Hc.
  - simpl. intros [= <- <- <-]. rewrite !app_nil_r. auto.
  - rewrite for_each_cons. unfold feature_step at 1.
    pose proof (same_core_weight e Hc) as Hw.
    destruct (get_edge g (fst e) (snd e)) as [d|] eqn:Hge; [|discriminate].
    assert (Hd : weight d = weight_of g1 e).
    { rewrite <- Hw. unfold weight_of. rewrite Hge. reflexivity. }
    cbn [filter]. rewrite Hd. fold (zero_weight g1 e).
    destruct (zero_weight g1 e) eqn:Hz.
    + rewrite <- (@counted_rows_skip g1 _ done e c0) by exact Hz.
      intros H. apply IH in H; [|exact Hc].
      destruct H as (H1 & H2 & H3). split; [exact H1|]. split.
      * rewrite H2, <- app_assoc. reflexivity.
      * rewrite H3, <- app_assoc. reflexivity.
    + rewrite counted_rows_update by exact Hz.
      intros H. apply IH in H; [|apply same_core_stats; exact Hc].
      destruct H as (H1 & H2 & H3). split; [exact H1|]. split.
      * rewrite H2, <- app_assoc. reflexivity.
      * exact H3.
Qed.

Lemma all_hops_numbered (paths : list (nat * list node)) :
  all_hops (map snd (combine (seq 0 (List.length paths)) paths)) = all_hops paths.
Proof.
  f_equal. generalize 0. induction paths as [|p paths IH]; intros n; simpl;
    [reflexivity|]. rewrite IH. reflexivity.
Qed.

(** What [refine_graph_from_paths] returns, when it returns: the graph
    [g1] with the counted weights, the graph [g2] with the statistics, and
    the marked edges, which are the edges of weight [0]. *)
Lemma refine_inversion {geo : Geometry} self paths trajectories self' g0 c0 :
  G self = Some g0 ->
  waypoint_connections self = Some c0 ->
  unique_edges g0 = true ->
  refine_graph_from_paths self paths trajectories = Some self' ->
  exists g1 g2 stat,
    counted g0 (all_hops paths) g1 /\
    same_core g1 g2 /\
    self' = mk_MTN (waypoints self) (waypoint_connections self)
              (waypoint_connections_pruned self)
              (Some (filter (fun r => negb (mem_edge (from r, to r)
                                              (filter (zero_weight g1) (edges g0))))
                       (counted_rows g1 stat (edges g0) (reset_passages c0))))
              (G self) (G_pruned self)
              (Some (remove_edges_from g2 (filter (zero_weight g1) (edges g0)))).
Proof.
  intros HG HC Hu. unfold refine_graph_from_paths. rewrite HG, HC.
  match goal with
  | |- context [for_each ?b ?l (reset_weights g0, [], [])] =>
      destruct (for_each b l (reset_weights g0, [], [])) as [[[g1 sp] cr]|] eqn:E1
  end; [|discriminate].
  match goal with
  | |- context [for_each ?b (edges g1) ?s] =>
      destruct (for_each b (edges g1) s) as [[[g2 c2] m]|] eqn:E2
  end; [|discriminate].
  match goal with
  | |- context [for_each removal_step m ?s] =>
      destruct (for_each removal_step m s) as [[g3 c3]|] eqn:E3
  end; [|discriminate].
  intros [= <-].
  apply counted_paths with (g0 := g0) in E1; [|apply counted_reset].
  rewrite all_hops_numbered in E1. cbn [fst] in E1.
  pose proof E1 as (Hn1 & He1 & _).
  rewrite <- (counted_rows_nil g1
                (edge_statistics (List.length paths) sp cr) (reset_passages c0)) in E2.
  apply feature_loop_spec in E2; [|apply same_core_refl].
  destruct E2 as (Hsc & -> & ->). cbn [app] in E3.
  pose proof Hsc as (Hn2 & He2 & _).
  rewrite removal_loop in E3.
  - injection E3 as <- <-. rewrite drop_connections_filter, He1.
    exists g1, g2, (edge_statistics (List.length paths) sp cr). auto.
  - apply NoDup_filter. rewrite He1. apply unique_edgesb_NoDup. exact Hu.
  - intros e He. apply filter_In in He as [He _]. rewrite He2. exact He.
Qed.

Lemma count_absent (e : edge) (l : list edge) :
  ~ In e l -> List.length (filter (fun h => edge_eqb h e) l) = 0.
Proof.
  induction l as [|h l IH]; intros Hn; simpl; [reflexivity|].
  destruct (edge_eqb_spec h e) as [->|Hne].
  - exfalso. apply Hn. simpl. auto.
  - apply IH. intros H. apply Hn. simpl. auto.
Qed.

(** The counted weight of a pair of nodes. *)
Lemma counted_weight g0 hops_done g1 e :
  counted g0 hops_done g1 ->
  weight_of g1 e = Z.of_nat (List.length (filter (fun h => edge_eqb h e) hops_done)) /\
  (~ In e (edges g0) -> get_edge g1 (fst e) (snd e) = None).
Proof.
  intros (_ & He & Hd & Hw). destruct e as [u v]. unfold weight_of. cbn [fst snd].
  destruct (get_edge g0 u v) as [d0|] eqn:E0.
  - destruct (Hw u v d0 E0) as (d & -> & Hwd & _). split; [exact Hwd|].
    intros Hn. exfalso. apply Hn. apply has_edge_In. unfold has_edge. rewrite E0.
    reflexivity.
  - assert (Hn : ~ In (u, v) (edges g0)).
    { intros H. apply has_edge_In in H. unfold has_edge in H. rewrite E0 in H.
      discriminate. }
    assert (Hg : get_edge g1 u v = None).
    { destruct (get_edge g1 u v) eqn:E1; [|reflexivity]. exfalso. apply Hn.
      rewrite <- He. apply has_edge_In. unfold has_edge. rewrite E1. reflexivity. }
    rewrite Hg. split; [|auto].
    rewrite count_absent; [reflexivity|]. intros H. apply Hn. apply Hd. exact H.
Qed.

(** X10. [refine_graph_from_paths] raises when a path of the table has a
    hop that is no edge of the base graph: the read of
    [G_refined[u][v]['weight']] fails with a KeyError. *)
Theorem refine_rejects_foreign_hop {geo : Geometry} self paths trajectories g0
  mmsi p e :
  G self = Some g0 ->
  In (mmsi, p) paths ->
  In e (consecutive p) ->
  ~ In e (edges g0) ->
  refine_graph_from_paths self paths trajectories = None.
Proof.
  intros HG Hrow Hhop Hn.
  destruct (refine_graph_from_paths self paths trajectories) as [self'|] eqn:E;
    [exfalso|reflexivity].
  unfold refine_graph_from_paths in E. rewrite HG in E.
  destruct (waypoint_connections self) as [c0|]; [|discriminate].
  match type of E with
  | context [for_each ?b ?l (reset_weights g0, [], [])] =>
      destruct (for_each b l (reset_weights g0, [], [])) as [[[g1 sp] cr]|] eqn:E1
  end; [|discriminate].
  apply counted_paths with (g0 := g0) in E1; [|apply counted_reset].
  rewrite all_hops_numbered in E1. destruct E1 as (_ & _ & Hd & _).
  apply Hn, Hd. unfold all_hops. apply in_flat_map. exists (mmsi, p). auto.
Qed.

Lemma refine_rejects_foreign_hop_witness :
  refine_graph_from_paths (geo := flat_sea) triangle_network [(7, [0; 1; 3])]
    [(7, [0; 1; 3])] = None.
Proof.
  apply (@refine_rejects_foreign_hop flat_sea triangle_network [(7, [0; 1; 3])]
           [(7, [0; 1; 3])] triangle_graph 7 [0; 1; 3] (1, 3)).
  - reflexivity.
  - simpl. auto.
  - simpl. auto.
  - simpl. intros H. repeat (destruct H as [H|H]; [discriminate|]). exact H.
Defined.

Lemma refine_needs_table {geo : Geometry} self paths trajectories self' :
  refine_graph_from_paths self paths trajectories = Some self' ->
  exists c0, waypoint_connections self = Some c0.
Proof.
  unfold refine_graph_from_paths. destruct (G self); [|discriminate].
  destruct (waypoint_connections self) as [c0|]; [|discriminate]. eauto.
Qed.

Lemma marked_iff g0 g1 e :
  mem_edge e (filter (zero_weight g1) (edges g0)) = true
  <-> In e (edges g0) /\ weight_of g1 e = 0%Z.
Proof.
  rewrite mem_edge_In, filter_In. unfold zero_weight. rewrite Z.eqb_eq. tauto.
Qed.

(** The weights of the refined graph, read through the two graphs of
    [refine_inversion]. *)
Lemma refined_edge_cases g0 hops_done g1 g2 u v :
  counted g0 hops_done g1 ->
  same_core g1 g2 ->
  let n := List.length (filter (fun h => edge_eqb h (u, v)) hops_done) in
  match get_edge (remove_edges_from g2 (filter (zero_weight g1) (edges g0))) u v with
  | Some d =>
      weight d = Z.of_nat n /\ 1 <= n /\
      exists d0, get_edge g0 u v = Some d0 /\ direction d = direction d0 /\
                 edge_length d = edge_length d0 /\ geometry d = geometry d0
  | None => n = 0
  end.
Proof.
  intros Hcnt Hsc n.
  destruct (counted_weight (u, v) Hcnt) as [Hw Hout]. fold n in Hw.
  destruct (mem_edge (u, v) (filter (zero_weight g1) (edges g0))) eqn:Hm.
  - rewrite get_edge_removed by (apply mem_edge_In; exact Hm).
    apply marked_iff in Hm as [_ Hz]. lia.
  - rewrite get_edge_remove_edges_from
      by (intros H; apply mem_edge_In in H; congruence).
    destruct Hsc as (_ & _ & Hcore). specialize (Hcore u v).
    destruct Hcnt as (_ & He & _ & Hattr).
    destruct (get_edge g0 u v) as [d0|] eqn:E0.
    + destruct (Hattr u v d0 E0) as (d1 & E1 & Hw1 & Hdir & Hlen & Hgeo).
      rewrite E1 in Hcore. destruct (get_edge g2 u v) as [d2|]; [|discriminate].
      simpl in Hcore. unfold core in Hcore. injection Hcore as H1 H2 H3 H4.
      assert (Hin : In (u, v) (edges g0)).
      { apply has_edge_In. unfold has_edge. rewrite E0. reflexivity. }
      split; [fold n in Hw1; congruence|]. split.
      * destruct (Nat.eq_dec n 0) as [Hn|Hn]; [|lia]. exfalso.
        assert (Hmark : mem_edge (u, v) (filter (zero_weight g1) (edges g0)) = true)
          by (apply marked_iff; split; [exact Hin|lia]).
        congruence.
      * exists d0. repeat split; congruence.
    + assert (Hn : ~ In (u, v) (edges g0)).
      { intros H. apply has_edge_In in H. unfold has_edge in H. rewrite E0 in H.
        discriminate. }
      specialize (Hout Hn). cbn [fst snd] in Hout. rewrite Hout in Hcore.
      destruct (get_edge g2 u v); [discriminate|].
      unfold weight_of in Hw. cbn [fst snd] in Hw. rewrite Hout in Hw. lia.
Qed.

(** X11. In the graph that [refine_graph_from_paths] returns, the weight of
    an edge is the number of times the paths of the table traverse it, and
    an ordered pair of nodes is an edge exactly when some path traverses
    it. *)
Theorem refine_weight_counts_traversals {geo : Geometry} self paths trajectories
  self' g0 g u v :
  G self = Some g0 ->
  unique_edges g0 = true ->
  refine_graph_from_paths self paths trajectories = Some self' ->
  G_refined self' = Some g ->
  match get_edge g u v with
  | Some d => weight d = Z.of_nat (traversals paths (u, v)) /\ 1 <= traversals paths (u, v)
  | None => traversals paths (u, v) = 0
  end.
Proof.
  intros HG Hu Hr Hg. destruct (refine_needs_table _ _ _ Hr) as [c0 HC].
  destruct (refine_inversion _ _ _ HG HC Hu Hr) as (g1 & g2 & stat & Hcnt & Hsc & ->).
  cbn [G_refined] in Hg. injection Hg as <-.
  pose proof (@refined_edge_cases g0 _ g1 g2 u v Hcnt Hsc) as H. cbv zeta in H.
  unfold traversals.
  destruct (get_edge _ u v) as [d|]; [|exact H].
  destruct H as (H1 & H2 & _). auto.
Qed.

Lemma refine_weight_counts_traversals_witness :
  exists self' g,
    refine_graph_from_paths (geo := flat_sea) triangle_network
      [(7, [0; 1; 2]); (7, [0; 1])] [(7, [0; 1; 2])] = Some self' /\
    G_refined self' = Some g /\
    match get_edge g 0 1 with
    | Some d =>
        weight d = Z.of_nat (traversals [(7, [0; 1; 2]); (7, [0; 1])] (0, 1)) /\
        1 <= traversals [(7, [0; 1; 2]); (7, [0; 1])] (0, 1)
    | None => traversals [(7, [0; 1; 2]); (7, [0; 1])] (0, 1) = 0
    end.
Proof.
  eexists. eexists. split; [vm_compute; reflexivity|]. split; [reflexivity|].
  eapply (@refine_weight_counts_traversals flat_sea triangle_network
            [(7, [0; 1; 2]); (7, [0; 1])] [(7, [0; 1; 2])] _ triangle_graph _ 0 1).
  - reflexivity.
  - reflexivity.
  - vm_compute. reflexivity.
  - reflexivity.
Defined.

(** X12. Whatever the paths, [refine_graph_from_paths] writes only the
    refined snapshot: the way points, the base graph, the pruned graph and
    their tables are returned as they were; the refined graph has the nodes
    of the base graph, and each of its edges is an edge of the base graph
    with the same direction, length and geometry. *)
Theorem refine_graph_frame {geo : Geometry} self paths trajectories self' g0 :
  G self = Some g0 ->
  unique_edges g0 = true ->
  refine_graph_from_paths self paths trajectories = Some self' ->
  waypoints self' = waypoints self /\
  waypoint_connections self' = waypoint_connections self /\
  waypoint_connections_pruned self' = waypoint_connections_pruned self /\
  G self' = G self /\
  G_pruned self' = G_pruned self /\
  exists g,
    G_refined self' = Some g /\
    nodes g = nodes g0 /\
    forall u v d, get_edge g u v = Some d ->
      exists d0, get_edge g0 u v = Some d0 /\ direction d = direction d0 /\
                 edge_length d = edge_length d0 /\ geometry d = geometry d0.
Proof.
  intros HG Hu Hr. destruct (refine_needs_table _ _ _ Hr) as [c0 HC].
  destruct (refine_inversion _ _ _ HG HC Hu Hr) as (g1 & g2 & stat & Hcnt & Hsc & ->).
  cbn [waypoints waypoint_connections waypoint_connections_pruned G G_pruned G_refined].
  repeat (split; [reflexivity|]).
  eexists. split; [reflexivity|]. split.
  - rewrite nodes_remove_edges_from. destruct Hsc as (-> & _). apply Hcnt.
  - intros u v d Hd.
    pose proof (@refined_edge_cases g0 _ g1 g2 u v Hcnt Hsc) as H. cbv zeta in H.
    rewrite Hd in H. apply H.
Qed.

Lemma refine_graph_frame_witness :
  exists self',
    refine_graph_from_paths (geo := flat_sea) triangle_network
      [(7, [0; 1; 2]); (7, [0; 1])] [(7, [0; 1; 2])] = Some self' /\
    waypoints self' = waypoints triangle_network /\
    waypoint_connections self' = waypoint_connections triangle_network /\
    waypoint_connections_pruned self' = waypoint_connections_pruned triangle_network /\
    G self' = G triangle_network /\
    G_pruned self' = G_pruned triangle_network /\
    exists g,
      G_refined self' = Some g /\
      nodes g = nodes triangle_graph /\
      forall u v d, get_edge g u v = Some d ->
        exists d0, get_edge triangle_graph u v = Some d0 /\ direction d = direction d0 /\
                   edge_length d = edge_length d0 /\ geometry d = geometry d0.
Proof.
  eexists. split; [vm_compute; reflexivity|].
  eapply (@refine_graph_frame flat_sea triangle_network
            [(7, [0; 1; 2]); (7, [0; 1])] [(7, [0; 1; 2])] _ triangle_graph).
  - reflexivity.
  - reflexivity.
  - vm_compute. reflexivity.
Defined.

(** X13. The table that [refine_graph_from_paths] returns has two kinds of
    rows.  Each of its rows either belongs to an edge of the refined graph
    and carries as passages the number of traversals of that edge, or belongs
    to no edge of the base graph and carries [0] passages.  A row of the
    second kind is never dropped: every row of the base table whose pair is
    no edge of the base graph is in the refined table, with [0] passages and
    its other columns unchanged. *)
Theorem refine_table_counts {geo : Geometry} self paths trajectories self' g0 t0 g t :
  G self = Some g0 ->
  unique_edges g0 = true ->
  waypoint_connections self = Some t0 ->
  refine_graph_from_paths self paths trajectories = Some self' ->
  G_refined self' = Some g ->
  waypoint_connections_refined self' = Some t ->
  (forall r, In r t ->
     (has_edge g (from r) (to r) = true /\
      passages r = Z.of_nat (traversals paths (from r, to r)) /\
      1 <= traversals paths (from r, to r))
     \/ (~ In (from r, to r) (edges g0) /\ passages r = 0%Z)) /\
  (forall r0, In r0 t0 ->
     ~ In (from r0, to r0) (edges g0) ->
     In (mk_connection (from r0) (to r0) (conn_geometry r0) (conn_direction r0)
           (conn_length r0) 0%Z (conn_stats r0)) t).
Proof.
  intros HG Hu HC Hr Hg Ht.
  destruct (refine_inversion _ _ _ HG HC Hu Hr) as (g1 & g2 & stat & Hcnt & Hsc & ->).
  cbn [G_refined waypoint_connections_refined] in Hg, Ht.
  injection Hg as <-. injection Ht as <-. split.
  - intros r Hin.
    apply filter_In in Hin as [Hin Hkeep]. apply negb_true_iff in Hkeep.
    unfold counted_rows in Hin. apply in_map_iff in Hin as (r0 & Hr0 & Hin0).
    unfold reset_passages in Hin0. apply in_map_iff in Hin0 as (r1 & <- & _).
    cbn [from to conn_geometry conn_direction conn_length passages conn_stats] in Hr0.
    pose proof (@refined_edge_cases g0 _ g1 g2 (from r1) (to r1) Hcnt Hsc) as H.
    cbv zeta in H. fold (all_hops paths) in H.
    destruct (counted_weight (from r1, to r1) Hcnt) as [Hw _].
    destruct (mem_edge (from r1, to r1) (edges g0)) eqn:Hmem.
    + apply mem_edge_In in Hmem.
      destruct (zero_weight g1 (from r1, to r1)) eqn:Hz.
      * exfalso. cbn [andb negb] in Hr0. subst r.
        cbn [from to] in Hkeep.
        assert (Hm : mem_edge (from r1, to r1) (filter (zero_weight g1) (edges g0)) = true).
        { apply mem_edge_In, filter_In. auto. }
        congruence.
      * left. cbn [andb negb] in Hr0. subst r. cbn [from to passages] in *.
        unfold traversals, has_edge.
        destruct (get_edge _ (from r1) (to r1)) as [d|].
        -- destruct H as (H1 & H2 & _). repeat split; [exact Hw|exact H2].
        -- exfalso. unfold zero_weight in Hz. apply Z.eqb_neq in Hz. lia.
    + right. cbn [andb] in Hr0. subst r. cbn [from to passages]. split; [|reflexivity].
      intros Hi. apply mem_edge_In in Hi. congruence.
  - intros r0 Hin0 Hno.
    assert (Hmem : mem_edge (from r0, to r0) (edges g0) = false).
    { destruct (mem_edge (from r0, to r0) (edges g0)) eqn:E; [|reflexivity].
      apply mem_edge_In in E. contradiction. }
    apply filter_In. split.
    + unfold counted_rows. apply in_map_iff.
      exists (mk_connection (from r0) (to r0) (conn_geometry r0) (conn_direction r0)
                (conn_length r0) 0%Z (conn_stats r0)).
      cbn [from to]. rewrite Hmem. split; [reflexivity|].
      unfold reset_passages. apply in_map_iff. exists r0. split; [reflexivity|exact Hin0].
    + cbn [from to]. apply negb_true_iff.
      destruct (mem_edge (from r0, to r0) (filter (zero_weight g1) (edges g0))) eqn:E;
        [|reflexivity].
      apply mem_edge_In, filter_In in E as [E _]. contradiction.
Qed.

(** The table of the stray network has the row [2 -> 3], for which the graph
    has no edge: it is kept with [0] passages. *)
Lemma refine_table_counts_witness :
  exists self' g t,
    refine_graph_from_paths (geo := flat_sea) stray_network
      [(7, [0; 1; 2]); (7, [0; 1])] [(7, [0; 1; 2])] = Some self' /\
    G_refined self' = Some g /\
    waypoint_connections_refined self' = Some t /\
    (forall r, In r t ->
       (has_edge g (from r) (to r) = true /\
        passages r = Z.of_nat (traversals [(7, [0; 1; 2]); (7, [0; 1])] (from r, to r)) /\
        1 <= traversals [(7, [0; 1; 2]); (7, [0; 1])] (from r, to r))
       \/ (~ In (from r, to r) (edges triangle_graph) /\ passages r = 0%Z)) /\
    In (row 2 3 0) t.
Proof.
  eexists. eexists. eexists. split; [vm_compute; reflexivity|].
  split; [reflexivity|]. split; [reflexivity|].
  eassert (H : _ /\ _).
  { eapply (@refine_table_counts flat_sea stray_network
              [(7, [0; 1; 2]); (7, [0; 1])] [(7, [0; 1; 2])] _ triangle_graph
              stray_connections);
      [reflexivity|reflexivity|reflexivity|vm_compute; reflexivity
      |reflexivity|reflexivity]. }
  destruct H as [Hrows Hkept]. split; [exact Hrows|].
  refine (Hkept (row 2 3 4) _ _).
  - simpl. auto 10.
  - simpl. intros [H|[H|[H|[]]]]; discriminate.
Defined.

(** ** More on [trajectory_to_path_sspd] *)

(** X14. When the trajectory intersects no way point, the method returns
    the outcome [no_intersects] with an empty [path_df] as soon as the
    search for an end point raised, both end points are the same way
    point, or one of them is 100 or more away from the trajectory. *)
Theorem no_intersections_outcome {geo : Geometry}
  self trajectory k_max l_max algorithm g connections :
  G_pruned self = Some g ->
  waypoint_connections_pruned self = Some connections ->
  fst (find_WP_intersections trajectory (waypoints self) g 1000) = [] ->
  find_orig_WP trajectory (waypoints self) = None \/
  find_dest_WP trajectory (waypoints self) = None \/
  orig_WP (locate_endpoints trajectory (waypoints self))
    = dest_WP (locate_endpoints trajectory (waypoints self)) \/
  closer_than (dist_orig (locate_endpoints trajectory (waypoints self))) 100 = false \/
  closer_than (dist_dest (locate_endpoints trajectory (waypoints self))) 100 = false ->
  trajectory_to_path_sspd self trajectory k_max l_max algorithm
    = Some (failure (mmsi_of trajectory) no_intersects).
Proof.
  intros HG HC Hpass Hcase.
  assert (Hep : orig_WP (locate_endpoints trajectory (waypoints self))
                  = dest_WP (locate_endpoints trajectory (waypoints self)) \/
                closer_than (dist_orig (locate_endpoints trajectory (waypoints self))) 100
                  = false \/
                closer_than (dist_dest (locate_endpoints trajectory (waypoints self))) 100
                  = false).
  { destruct Hcase as [H|[H|H]]; [| |exact H].
    - left. unfold locate_endpoints. rewrite H. reflexivity.
    - left. unfold locate_endpoints. rewrite H.
      destruct (find_orig_WP trajectory (waypoints self)) as [[[? ?] ?]|]; reflexivity. }
  unfold trajectory_to_path_sspd, reconciled. rewrite HG, HC.
  destruct (find_WP_intersections trajectory (waypoints self) g 1000) as [passages gc].
  simpl in Hpass. subst passages. unfold reconcile. cbn [List.length Nat.eqb andb].
  set (ep := locate_endpoints trajectory (waypoints self)) in *.
  destruct (Nat.eqb_spec (orig_WP ep) (dest_WP ep)) as [E|E]; cbn [negb].
  - reflexivity.
  - destruct Hep as [H|[H|H]]; [contradiction| |].
    + rewrite H. cbn [app]. destruct (closer_than (dist_dest ep) 100); reflexivity.
    + rewrite H. destruct (closer_than (dist_orig ep) 100); reflexivity.
Qed.

Lemma no_intersections_outcome_witness :
  trajectory_to_path_sspd (geo := flat_sea) pruned_triangle [] 500 5 "standard"
    = Some (failure (mmsi_of (Geometry := flat_sea) []) no_intersects).
Proof.
  apply (@no_intersections_outcome flat_sea pruned_triangle [] 500%Z 5%Z "standard"
           triangle_graph triangle_connections).
  - reflexivity.
  - reflexivity.
  - reflexivity.
  - right. right. left. reflexivity.
Defined.

Lemma path_df_loop mmsi msg connections : forall l rows path_df,
  for_each (fun e rows =>
              match item_geometry connections e with
              | None => None
              | Some geom => Some (rows ++ [mk_path_row mmsi (fst e) (snd e) geom msg])
              end) l rows = Some path_df ->
  exists added,
    path_df = rows ++ added /\
    map hop added = l /\
    Forall (fun r => row_mmsi r = mmsi /\ row_message r = msg /\
                     item_geometry connections (hop r) = Some (row_geometry r)) added.
Proof.
  induction l as [|e l IH]; intros rows path_df; simpl.
  - intros [= <-]. exists []. rewrite app_nil_r. auto.
  - destruct (item_geometry connections e) as [geom|] eqn:E; [|discriminate].
    intros H. apply IH in H as (added & -> & Hhops & Hall).
    exists (mk_path_row mmsi (fst e) (snd e) geom msg :: added).
    rewrite <- app_assoc. split; [reflexivity|]. split.
    + simpl. rewrite Hhops. unfold hop. simpl. destruct e; reflexivity.
    + apply Forall_cons; [|exact Hall]. unfold hop. simpl.
      destruct e; simpl in *. auto.
Qed.

Lemma make_path_df_rows mmsi msg connections p path_df :
  make_path_df mmsi msg connections p = Some path_df ->
  map hop path_df = consecutive p /\
  Forall (fun r => row_mmsi r = mmsi /\ row_message r = msg /\
                   item_geometry connections (hop r) = Some (row_geometry r)) path_df.
Proof.
  unfold make_path_df. intros H. apply path_df_loop in H as (added & -> & H1 & H2).
  auto.
Qed.

Lemma evaluate_row {geo : Geometry} trajectory mmsi msg p path_df ep ev :
  evaluate trajectory mmsi msg p path_df ep = Some ev ->
  eval_mmsi ev = mmsi /\ eval_message ev = msg /\ path ev = Some p /\
  path_linestring ev = Some (map row_geometry path_df) /\
  SSPD ev <> NaN /\ distances ev <> None.
Proof.
  unfold evaluate.
  destruct (idx_orig ep) as [io|]; [|discriminate].
  destruct (idx_dest ep) as [id|]; [|discriminate].
  destruct path_df as [|r rows]; [discriminate|].
  destruct (id <=? io)%Z;
    match goal with
    | |- context [sspd_fit ?a ?b ?c ?d ?e] => destruct (sspd_fit a b c d e)
    end; intros [= <-]; simpl; repeat split; discriminate.
Qed.

(** The two shapes of what [trajectory_to_path_sspd] returns. *)
Lemma matcher_outcome {geo : Geometry}
  self trajectory k_max l_max algorithm connections path_df ev :
  waypoint_connections_pruned self = Some connections ->
  trajectory_to_path_sspd self trajectory k_max l_max algorithm = Some (path_df, ev) ->
  eval_mmsi ev = mmsi_of trajectory /\
  match path ev with
  | Some p =>
      map hop path_df = consecutive p /\
      Forall (fun r => row_mmsi r = mmsi_of trajectory /\
                       row_message r = eval_message ev /\
                       item_geometry connections (hop r) = Some (row_geometry r)) path_df /\
      path_linestring ev = Some (map row_geometry path_df) /\
      SSPD ev <> NaN /\ distances ev <> None /\
      (eval_message ev = success \/ eval_message ev = attempt)
  | None =>
      path_df = [] /\ SSPD ev = NaN /\ fraction_covered ev = 0%Q /\
      distances ev = None /\ path_linestring ev = None /\
      (eval_message ev = no_path \/ eval_message ev = no_intersects)
  end.
Proof.
  intros HC. unfold trajectory_to_path_sspd. rewrite HC.
  destruct (G_pruned self) as [g|]; [|discriminate].
  destruct (reconciled g (waypoints self) trajectory) as [[passages ep] gc].
  destruct (2 <=? List.length passages).
  - destruct (try_match _ _ _ _ _ _ _ _ _) as [[df0 ev0]|] eqn:Etry.
    + intros [= <- <-]. unfold try_match in Etry.
      destruct (match_passages _ _ _ _ _ _ _) as [p|]; [|discriminate].
      destruct (if String.eqb algorithm "refined" then _ else _) as [p'|];
        [|discriminate].
      destruct (make_path_df _ _ _ p') as [df|] eqn:Edf; [|discriminate].
      destruct (evaluate _ _ _ _ _ _) as [ev1|] eqn:Eev; [|discriminate].
      injection Etry as <- <-.
      apply evaluate_row in Eev as (H1 & H2 & H3 & H4 & H5 & H8).
      apply make_path_df_rows in Edf as [H6 H7].
      rewrite H3, H2. auto 10.
    + unfold fallback. destruct (has_path g (hd 0 passages) (last passages 0)).
      * destruct (shortest_path _ _ _) as [p|]; [|discriminate].
        destruct (make_path_df _ _ _ p) as [df|] eqn:Edf; [|discriminate].
        destruct (evaluate _ _ _ _ _ _) as [ev1|] eqn:Eev; [|discriminate].
        intros [= <- <-].
        apply evaluate_row in Eev as (H1 & H2 & H3 & H4 & H5 & H8).
        apply make_path_df_rows in Edf as [H6 H7].
        rewrite H3, H2. auto 10.
      * unfold failure. intros [= <- <-]. simpl. repeat split; auto.
  - unfold failure. intros [= <- <-]. simpl. repeat split; auto.
Qed.

(** X15. Whatever [trajectory_to_path_sspd] returns, [path_df] and the
    evaluation row agree: with a path, the rows are its hops in order, each
    with the vessel, the message of the evaluation and the geometry of the
    one connection of that hop, and the outcome is [success] or [attempt];
    without a path, [path_df] is empty, the SSPD is nan, the covered
    fraction is [0] and the outcome is [no_path] or [no_intersects]. *)
Theorem matched_rows_are_hops {geo : Geometry}
  self trajectory k_max l_max algorithm connections path_df ev :
  waypoint_connections_pruned self = Some connections ->
  trajectory_to_path_sspd self trajectory k_max l_max algorithm = Some (path_df, ev) ->
  eval_mmsi ev = mmsi_of trajectory /\
  match path ev with
  | Some p =>
      map hop path_df = consecutive p /\
      Forall (fun r => row_mmsi r = mmsi_of trajectory /\
                       row_message r = eval_message ev /\
                       item_geometry connections (hop r) = Some (row_geometry r)) path_df /\
      path_linestring ev = Some (map row_geometry path_df) /\
      (eval_message ev = success \/ eval_message ev = attempt)
  | None =>
      path_df = [] /\ SSPD ev = NaN /\ fraction_covered ev = 0%Q /\
      (eval_message ev = no_path \/ eval_message ev = no_intersects)
  end.
Proof.
  intros HC H. destruct (matcher_outcome _ _ _ _ _ HC H) as [Hm Hp].
  split; [exact Hm|]. destruct (path ev) as [p|].
  - destruct Hp as (H1 & H2 & H3 & _ & _ & H6). auto.
  - destruct Hp as (H1 & H2 & H3 & _ & _ & H6). auto.
Qed.

Lemma matched_rows_are_hops_witness :
  exists path_df ev,
    trajectory_to_path_sspd (geo := flat_sea) pruned_triangle [0; 1; 2] 500 5 "standard"
      = Some (path_df, ev) /\
    eval_mmsi ev = mmsi_of (Geometry := flat_sea) [0; 1; 2] /\
    match path ev with
    | Some p =>
        map hop path_df = consecutive p /\
        Forall (fun r => row_mmsi r = mmsi_of (Geometry := flat_sea) [0; 1; 2] /\
                         row_message r = eval_message ev /\
                         item_geometry triangle_connections (hop r)
                           = Some (row_geometry r)) path_df /\
        path_linestring ev = Some (map row_geometry path_df) /\
        (eval_message ev = success \/ eval_message ev = attempt)
    | None =>
        path_df = [] /\ SSPD ev = NaN /\ fraction_covered ev = 0%Q /\
        (eval_message ev = no_path \/ eval_message ev = no_intersects)
    end.
Proof.
  eexists. eexists. split; [vm_compute; reflexivity|].
  eapply (@matched_rows_are_hops flat_sea pruned_triangle [0; 1; 2] 500%Z 5%Z "standard"
            triangle_connections).
  - reflexivity.
  - vm_compute. reflexivity.
Defined.

Lemma subseq_refl {A} (l : list A) : subseq l l.
Proof. induction l; constructor; auto. Qed.

Lemma subseq_length {A} (s l : list A) : subseq s l -> List.length s <= List.length l.
Proof. induction 1; simpl; lia. Qed.

Lemma subseq_In {A} (s l : list A) x : subseq s l -> In x s -> In x l.
Proof.
  induction 1; simpl; intros H0; [contradiction| |auto].
  destruct H0; auto.
Qed.

Lemma subseq_last {A} (l : list A) d : l <> [] -> subseq [last l d] l.
Proof.
  induction l as [|a l IH]; [congruence|]. intros _.
  destruct l as [|b l].
  - simpl. apply subseq_take, subseq_nil.
  - change (last (a :: b :: l) d) with (last (b :: l) d).
    apply subseq_skip, IH. discriminate.
Qed.

(** What the hop-skipping loop appends: a selection [suffix] of the nodes
    [remaining] that it may still append, which either leaves room for the
    last of them or ends with it. *)
Lemma refine_loop_selects {geo : Geometry} trajectory wps g_channel connections :
  forall rest skipped refined_path result,
    refine_loop trajectory wps g_channel connections rest skipped refined_path
      = Some result ->
    let remaining := if skipped then tl (tl rest) else tl rest in
    exists suffix,
      result = refined_path ++ suffix /\
      subseq suffix remaining /\
      (remaining = [] \/ subseq (suffix ++ [last remaining 0]) remaining \/
       (suffix <> [] /\ last suffix 0 = last remaining 0)).
Proof.
  induction rest as [|a rest IH]; intros skipped acc result.
  - simpl. intros [= <-]. exists []. rewrite app_nil_r.
    split; [reflexivity|]. split; [apply subseq_nil|].
    left. destruct skipped; reflexivity.
  - destruct rest as [|b [|c tl0]].
    + simpl. intros [= <-]. exists []. rewrite app_nil_r.
      split; [reflexivity|]. split; [apply subseq_nil|].
      left. destruct skipped; reflexivity.
    + simpl. intros [= <-]. exists []. rewrite app_nil_r.
      split; [reflexivity|]. split; [apply subseq_nil|].
      destruct skipped; [left; reflexivity|].
      right. left. simpl. apply subseq_refl.
    + rewrite refine_loop_triple.
      assert (Hkeep : forall result,
                 refine_loop trajectory wps g_channel connections (b :: c :: tl0) false
                   (acc ++ [b]) = Some result ->
                 exists suffix,
                   result = acc ++ suffix /\
                   subseq suffix (b :: c :: tl0) /\
                   (b :: c :: tl0 = [] \/
                    subseq (suffix ++ [last (b :: c :: tl0) 0]) (b :: c :: tl0) \/
                    (suffix <> [] /\ last suffix 0 = last (b :: c :: tl0) 0))).
      { intros res H. apply IH in H. cbv zeta in H. cbn [tl] in H.
        destruct H as (s & -> & Hs & Hl). exists (b :: s).
        rewrite <- app_assoc. split; [reflexivity|].
        split; [apply subseq_take; exact Hs|]. right.
        change (last (b :: c :: tl0) 0) with (last (c :: tl0) 0).
        destruct Hl as [Hl|[Hl|[Hne Hl]]]; [discriminate| |].
        - left. apply subseq_take. exact Hl.
        - right. split; [discriminate|].
          destruct s as [|x s]; [congruence|]. exact Hl. }
      destruct skipped.
      * intros H. apply IH in H. exact H.
      * cbv zeta. cbn [tl].
        destruct (is_valid_path g_channel [a; c]); [|apply Hkeep].
        destruct (hop_scores trajectory wps connections a b c) as [[[[f123 l123] f13] l13]|];
          [|discriminate].
        destruct (Qltb (f13 * l13) (f123 * l123)); [|apply Hkeep].
        intros H. apply IH in H. cbv zeta in H. cbn [tl] in H.
        destruct H as (s & -> & Hs & Hl). exists (c :: s).
        rewrite <- app_assoc. split; [reflexivity|].
        split; [apply subseq_skip, subseq_take; exact Hs|]. right.
        change (last (b :: c :: tl0) 0) with (last (c :: tl0) 0).
        destruct Hl as [->|[Hl|[Hne Hl]]].
        -- right. split; [discriminate|]. inversion Hs; subst. reflexivity.
        -- left. destruct tl0 as [|t tl0]; [inversion Hl; destruct s; discriminate|].
           change (last (c :: t :: tl0) 0) with (last (t :: tl0) 0).
           apply subseq_skip, subseq_take. exact Hl.
        -- right. split; [discriminate|].
           destruct s as [|x s]; [congruence|].
           destruct tl0 as [|t tl0]; [inversion Hs|].
           change (last (c :: t :: tl0) 0) with (last (t :: tl0) 0).
           exact Hl.
Qed.

(** X16. The hop-skipping pass of [algorithm == 'refined'] only leaves
    nodes out: the refined path is the stitched path with some nodes
    removed, in the same order, so it is never longer and visits no new
    node. *)
Theorem refine_path_subsequence {geo : Geometry}
  trajectory wps g_channel connections p refined :
  refine_path trajectory wps g_channel connections p = Some refined ->
  subseq refined p /\
  List.length refined <= List.length p /\
  (forall x, In x refined -> In x p).
Proof.
  intros H.
  assert (Hs : subseq refined p).
  { unfold refine_path in H. destruct p as [|p0 q]; [discriminate|].
    destruct (refine_loop trajectory wps g_channel connections (p0 :: q) false [p0])
      as [result|] eqn:E; [|discriminate].
    apply refine_loop_selects in E. cbv zeta in E. cbn [tl] in E.
    destruct E as (s & -> & Hs & Hl).
    destruct (last ([p0] ++ s) 0 =? last (p0 :: q) 0) eqn:El; cbn [negb] in H;
      injection H as <-.
    - apply subseq_take. exact Hs.
    - apply Nat.eqb_neq in El. apply subseq_take.
      destruct q as [|b q].
      + inversion Hs; subst. exfalso. apply El. reflexivity.
      + destruct Hl as [Hl|[Hl|[Hne Hl]]]; [discriminate|exact Hl|].
        exfalso. apply El. destruct s as [|x s]; [congruence|]. exact Hl. }
  split; [exact Hs|]. split.
  - apply subseq_length. exact Hs.
  - intros x. apply subseq_In. exact Hs.
Qed.

Lemma refine_path_subsequence_witness :
  subseq [0; 2] [0; 1; 2] /\
  List.length [0; 2] <= List.length [0; 1; 2] /\
  (forall x, In x [0; 2] -> In x [0; 1; 2]).
Proof.
  apply (@refine_path_subsequence flat_sea [0; 1; 2] (waypoints pruned_triangle)
           triangle_graph triangle_connections [0; 1; 2] [0; 2]).
  reflexivity.
Defined.

Lemma refine_loop_keeps {geo : Geometry} trajectory wps g_channel connections :
  forall rest refined_path,
    no_shortcut g_channel rest = true ->
    refine_loop trajectory wps g_channel connections rest false refined_path
      = Some (refined_path ++ removelast (tl rest)).
Proof.
  induction rest as [|a rest IH]; intros acc Hno.
  - simpl. rewrite app_nil_r. reflexivity.
  - destruct rest as [|b [|c tl0]].
    + simpl. rewrite app_nil_r. reflexivity.
    + simpl. rewrite app_nil_r. reflexivity.
    + rewrite refine_loop_triple.
      change (no_shortcut g_channel (a :: b :: c :: tl0))
        with (negb (is_valid_path g_channel [a; c]) && no_shortcut g_channel (b :: c :: tl0))
        in Hno.
      apply andb_true_iff in Hno as [Hv Hno]. apply negb_true_iff in Hv.
      rewrite Hv, IH by exact Hno. rewrite <- app_assoc. reflexivity.
Qed.

Lemma last_removelast_pair (p : list node) a b :
  In (last (a :: removelast (b :: p)) 0, last (b :: p) 0) (consecutive (a :: b :: p)).
Proof.
  revert a b. induction p as [|c p IH]; intros a b.
  - simpl. auto.
  - rewrite consecutive_cons. right.
    change (last (b :: c :: p) 0) with (last (c :: p) 0).
    change (removelast (b :: c :: p)) with (b :: removelast (c :: p)).
    change (last (a :: b :: removelast (c :: p)) 0)
      with (last (b :: removelast (c :: p)) 0).
    apply IH.
Qed.

(** X17. When no node of the stitched path can be skipped and no two
    consecutive nodes of it are equal, the pass of [algorithm == 'refined']
    returns the stitched path unchanged. *)
Theorem refine_path_without_shortcut {geo : Geometry}
  trajectory wps g_channel connections p :
  p <> [] ->
  no_shortcut g_channel p = true ->
  (forall e, In e (consecutive p) -> fst e <> snd e) ->
  refine_path trajectory wps g_channel connections p = Some p.
Proof.
  intros Hne Hno Hdiff. destruct p as [|p0 q]; [congruence|].
  unfold refine_path. rewrite refine_loop_keeps by exact Hno. cbn [tl].
  destruct q as [|b q].
  - simpl. rewrite Nat.eqb_refl. reflexivity.
  - pose proof (Hdiff _ (last_removelast_pair q p0 b)) as Hd. cbn [fst snd] in Hd.
    change ([p0] ++ removelast (b :: q)) with (p0 :: removelast (b :: q)).
    change (last (p0 :: b :: q) 0) with (last (b :: q) 0).
    apply Nat.eqb_neq in Hd. rewrite Hd. cbn [negb].
    rewrite <- app_comm_cons, <- app_removelast_last by discriminate. reflexivity.
Qed.

Lemma refine_path_without_shortcut_witness :
  refine_path (geo := flat_sea) [1; 2; 3; 4] [] detour_graph [] [1; 2; 3; 4]
    = Some [1; 2; 3; 4].
Proof.
  apply (@refine_path_without_shortcut flat_sea [1; 2; 3; 4] [] detour_graph []
           [1; 2; 3; 4]).
  - discriminate.
  - reflexivity.
  - simpl. intros e [<-|[<-|[<-|[]]]]; simpl; discriminate.
Defined.

Lemma backward_loop {geo : Geometry} trajectory wps g_channel connections k_max l_max :
  forall l st,
    (forall a b, In (a, b) l ->
       (closest_index trajectory wps b < closest_index trajectory wps a)%Z) ->
    for_each (match_step trajectory wps g_channel connections k_max l_max) l st = Some st.
Proof.
  induction l as [|[a b] l IH]; intros st Hback; [reflexivity|].
  rewrite for_each_cons. unfold match_step at 1. cbn [fst snd].
  assert (H : (closest_index trajectory wps b <? closest_index trajectory wps a)%Z = true)
    by (apply Z.ltb_lt, Hback; simpl; auto).
  rewrite H. apply IH. intros a' b' Hin. apply Hback. simpl. auto.
Qed.

(** X18. When every passage lies behind its predecessor along the
    trajectory, step 5 skips every pair: the stitched path is the first
    passage alone, the pass of [algorithm == 'refined'] returns it as it is,
    and the loop that builds [path_df] adds no row. *)
Theorem backward_passages_single_node {geo : Geometry}
  trajectory wps g_channel connections k_max l_max passages mmsi msg :
  (forall a b, In (a, b) (consecutive passages) ->
     (closest_index trajectory wps b < closest_index trajectory wps a)%Z) ->
  match_passages trajectory wps g_channel connections k_max l_max passages
    = Some [hd 0 passages] /\
  refine_path trajectory wps g_channel connections [hd 0 passages]
    = Some [hd 0 passages] /\
  make_path_df mmsi msg connections [hd 0 passages] = Some [].
Proof.
  intros Hback. split; [|split].
  - unfold match_passages. rewrite backward_loop by exact Hback. reflexivity.
  - simpl. rewrite Nat.eqb_refl. reflexivity.
  - reflexivity.
Qed.

Lemma backward_passages_single_node_witness :
  match_passages (geo := flat_sea) [2; 0] (waypoints pruned_triangle) triangle_graph
    triangle_connections 500 5 [2; 0] = Some [hd 0 [2; 0]] /\
  refine_path (geo := flat_sea) [2; 0] (waypoints pruned_triangle) triangle_graph
    triangle_connections [hd 0 [2; 0]] = Some [hd 0 [2; 0]] /\
  make_path_df 7 success triangle_connections [hd 0 [2; 0]] = Some [].
Proof.
  apply (@backward_passages_single_node flat_sea [2; 0] (waypoints pruned_triangle)
           triangle_graph triangle_connections 500%Z 5%Z [2; 0] 7 success).
  simpl. intros a b [[= <- <-]|[]]. simpl. lia.
Defined.

(** ** [evaluate_graph] *)

Lemma matcher_needs_table {geo : Geometry} self trajectory k_max l_max algorithm r :
  trajectory_to_path_sspd self trajectory k_max l_max algorithm = Some r ->
  exists connections, waypoint_connections_pruned self = Some connections.
Proof.
  unfold trajectory_to_path_sspd. destruct (G_pruned self); [|discriminate].
  destruct (waypoint_connections_pruned self) as [c|]; [|discriminate]. eauto.
Qed.

(** A row that [trajectory_to_path_sspd] returns holds a nan exactly when
    its message is [no_path] or [no_intersects]. *)
Lemma outcome_has_nan {geo : Geometry} self trajectory k_max l_max algorithm path_df ev :
  trajectory_to_path_sspd self trajectory k_max l_max algorithm = Some (path_df, ev) ->
  has_nan ev = is_failure ev.
Proof.
  intros H. destruct (matcher_needs_table _ _ _ _ _ H) as [c HC].
  destruct (matcher_outcome _ _ _ _ _ HC H) as [_ Hp].
  unfold has_nan, is_failure. destruct (path ev) as [p|].
  - destruct Hp as (_ & _ & Hl & Hs & Hd & Hm). rewrite Hl.
    destruct (SSPD ev); [congruence|]. destruct (distances ev); [|congruence].
    destruct Hm as [-> | ->]; reflexivity.
  - destruct Hp as (_ & Hs & _ & _ & _ & Hm). rewrite Hs.
    destruct Hm as [-> | ->]; reflexivity.
Qed.

Lemma evaluate_loop {geo : Geometry} map_matching self k_max l_max algorithm :
  forall trajectories st st',
    for_each (evaluate_step map_matching self k_max l_max algorithm) trajectories st
      = Some st' ->
    exists results,
      Forall2 (fun trajectory r =>
                 (if String.eqb algorithm "leuven" then map_matching self trajectory
                  else trajectory_to_path_sspd self trajectory k_max l_max algorithm)
                 = Some r) trajectories results /\
      fst st' = fst st ++ flat_map fst results /\
      snd st' = snd st ++ map snd results.
Proof.
  induction trajectories as [|t ts IH]; intros st st'.
  - simpl. intros [= <-]. exists []. rewrite !app_nil_r. auto.
  - rewrite for_each_cons. unfold evaluate_step at 1.
    destruct (if String.eqb algorithm "leuven" then _ else _) as [[df ev]|] eqn:E;
      [|discriminate].
    intros H. apply IH in H as (results & HF & H1 & H2). cbn [fst snd] in H1, H2.
    exists ((df, ev) :: results). split; [constructor; assumption|].
    cbn [flat_map map fst snd]. rewrite H1, H2, <- !app_assoc. auto.
Qed.

Lemma ratio_inversion k n q :
  ratio k n = Some q ->
  n <> 0 /\ q = (inject_Z (Z.of_nat k) / inject_Z (Z.of_nat n))%Q.
Proof.
  unfold ratio, divide. destruct (Qeq_bool _ 0) eqn:E; [discriminate|].
  intros [= <-]. split; [|reflexivity]. intros ->. discriminate.
Qed.

Lemma evaluate_graph_inversion {geo : Geometry} map_matching fit_distances
  self trajectories k_max l_max algorithm all_paths all_evaluation_results s :
  evaluate_graph map_matching fit_distances self trajectories k_max l_max algorithm
    = Some (all_paths, all_evaluation_results, s) ->
  for_each (evaluate_step map_matching self k_max l_max algorithm) trajectories ([], [])
    = Some (all_paths, all_evaluation_results) /\
  ratio (List.length (filter has_nan all_evaluation_results))
    (List.length all_evaluation_results) = Some (fraction_NaN s) /\
  ratio (List.length (filter is_success all_evaluation_results))
    (List.length all_evaluation_results) = Some (fraction_success s) /\
  mean_fraction_covered s
    = np_mean (map fraction_covered
                 (filter (fun ev => negb (has_nan ev)) all_evaluation_results)).
Proof.
  unfold evaluate_graph.
  destruct (for_each _ trajectories ([], [])) as [[ps evs]|]; [|discriminate].
  destruct (ratio (List.length (filter has_nan evs)) (List.length evs)) as [q|] eqn:Eq;
    [|discriminate].
  destruct (flatten_distances (filter is_success evs)); [|discriminate].
  destruct (fit_distances _); [|discriminate].
  destruct (ratio (List.length (filter is_success evs)) (List.length evs)) as [q'|]
    eqn:Eq'; [|discriminate].
  intros [= <- <- <-]. cbn [fraction_NaN fraction_success mean_fraction_covered].
  auto.
Qed.

(** [evaluate_graph] raises on an empty collection of trajectories:
    the fraction of nan rows divides by the number of rows. *)
Theorem evaluate_graph_empty {geo : Geometry} map_matching fit_distances
  self k_max l_max algorithm :
  evaluate_graph map_matching fit_distances self [] k_max l_max algorithm = None.
Proof. reflexivity. Qed.

(** X19. When [evaluate_graph] returns, it holds one evaluation row for
    each trajectory, in the order of the collection: the row that the
    selected map matcher returns for it; [all_paths] holds the rows of all
    paths in the same order. *)
Theorem evaluate_graph_rows {geo : Geometry} map_matching fit_distances
  self trajectories k_max l_max algorithm all_paths all_evaluation_results s :
  evaluate_graph map_matching fit_distances self trajectories k_max l_max algorithm
    = Some (all_paths, all_evaluation_results, s) ->
  exists results,
    Forall2 (fun trajectory r =>
               (if String.eqb algorithm "leuven" then map_matching self trajectory
                else trajectory_to_path_sspd self trajectory k_max l_max algorithm)
               = Some r) trajectories results /\
    all_paths = flat_map fst results /\
    all_evaluation_results = map snd results /\
    List.length all_evaluation_results = List.length trajectories /\
    1 <= List.length trajectories.
Proof.
  intros H. apply evaluate_graph_inversion in H as (E & Eq & _).
  apply evaluate_loop in E as (results & HF & H1 & H2). cbn [fst snd app] in H1, H2.
  apply ratio_inversion in Eq as [Hn _].
  exists results. subst all_paths all_evaluation_results. repeat split; auto.
  - rewrite length_map. symmetry. eapply Forall2_length. exact HF.
  - rewrite length_map in Hn. apply Forall2_length in HF. lia.
Qed.

Lemma evaluate_graph_rows_witness :
  exists all_paths all_evaluation_results s,
    evaluate_graph (geo := flat_sea) no_leuven no_fit pruned_triangle
      [[0; 1; 2]; []] 500 5 "standard" = Some (all_paths, all_evaluation_results, s) /\
    exists results,
      Forall2 (fun trajectory r =>
                 (if String.eqb "standard" "leuven"
                  then no_leuven (geo := flat_sea) pruned_triangle trajectory
                  else trajectory_to_path_sspd (geo := flat_sea) pruned_triangle
                         trajectory 500 5 "standard")
                 = Some r) [[0; 1; 2]; []] results /\
      all_paths = flat_map fst results /\
      all_evaluation_results = map snd results /\
      List.length all_evaluation_results = List.length [[0; 1; 2]; @nil nat] /\
      1 <= List.length [[0; 1; 2]; @nil nat].
Proof.
  eexists. eexists. eexists. split; [vm_compute; reflexivity|].
  eapply (@evaluate_graph_rows flat_sea (no_leuven (geo := flat_sea)) no_fit
            pruned_triangle [[0; 1; 2]; []] 500%Z 5%Z "standard").
  vm_compute. reflexivity.
Defined.

Lemma Forall2_In_right {A B} (R : A -> B -> Prop) (l : list A) (l' : list B) y :
  Forall2 R l l' -> In y l' -> exists x, In x l /\ R x y.
Proof.
  induction 1 as [|x y' l l' HR HF IH]; simpl; [contradiction|].
  intros [<-|Hin]; [eauto|]. destruct (IH Hin) as (x' & Hx & HR'). eauto.
Qed.

Lemma outcomes_partition (rows : list evaluation_results) :
  List.length rows
  = List.length (filter is_failure rows) + List.length (filter is_success rows)
    + List.length (filter is_attempt rows).
Proof.
  induction rows as [|ev rows IH]; [reflexivity|].
  cbn [filter List.length]. unfold is_failure at 1, is_success at 1, is_attempt at 1.
  destruct (eval_message ev); cbn [List.length]; lia.
Qed.

Lemma shares_sum (a b c n : nat) :
  n <> 0 -> n = a + b + c ->
  (inject_Z (Z.of_nat a) / inject_Z (Z.of_nat n)
   + inject_Z (Z.of_nat b) / inject_Z (Z.of_nat n)
   + inject_Z (Z.of_nat c) / inject_Z (Z.of_nat n) == 1)%Q.
Proof.
  intros Hn Hsum. unfold Qdiv. rewrite <- !Qmult_plus_distr_l, <- !inject_Z_plus.
  replace (Z.of_nat a + Z.of_nat b + Z.of_nat c)%Z with (Z.of_nat n) by lia.
  apply Qmult_inv_r. intros H. apply Hn.
  unfold Qeq in H. simpl in H. lia.
Qed.

(** X20. With one of the algorithms of [trajectory_to_path_sspd], and the
    SSPD of a path that was found being a number, the key ['Fraction NaN']
    of the summary is the share of the trajectories with the outcome
    [no_path] or [no_intersects], ['Fraction success'] the share with the
    outcome [success], and together with the share of the outcome [attempt]
    they add up to 1. *)
Theorem evaluate_graph_fractions {geo : Geometry} map_matching fit_distances
  self trajectories k_max l_max algorithm all_paths all_evaluation_results s :
  String.eqb algorithm "leuven" = false ->
  evaluate_graph map_matching fit_distances self trajectories k_max l_max algorithm
    = Some (all_paths, all_evaluation_results, s) ->
  fraction_NaN s
    = (inject_Z (Z.of_nat (List.length (filter is_failure all_evaluation_results)))
       / inject_Z (Z.of_nat (List.length trajectories)))%Q /\
  fraction_success s
    = (inject_Z (Z.of_nat (List.length (filter is_success all_evaluation_results)))
       / inject_Z (Z.of_nat (List.length trajectories)))%Q /\
  (fraction_NaN s + fraction_success s
   + inject_Z (Z.of_nat (List.length (filter is_attempt all_evaluation_results)))
     / inject_Z (Z.of_nat (List.length trajectories)) == 1)%Q.
Proof.
  intros Halg H. apply evaluate_graph_inversion in H as (E & Enan & Esucc & _).
  apply evaluate_loop in E as (results & HF & _ & H2). cbn [snd app] in H2.
  rewrite Halg in HF.
  assert (Hlen : List.length all_evaluation_results = List.length trajectories).
  { subst. rewrite length_map. symmetry. eapply Forall2_length. exact HF. }
  assert (Hnan : filter has_nan all_evaluation_results
                 = filter is_failure all_evaluation_results).
  { apply filter_ext_in. intros ev Hin. subst all_evaluation_results.
    apply in_map_iff in Hin as ([df ev'] & <- & Hin).
    destruct (Forall2_In_right _ HF Hin) as (t & _ & Ht).
    exact (outcome_has_nan _ _ _ _ _ Ht). }
  rewrite Hnan, Hlen in Enan. rewrite Hlen in Esucc.
  apply ratio_inversion in Enan as [Hn ->]. apply ratio_inversion in Esucc as [_ ->].
  split; [reflexivity|]. split; [reflexivity|].
  apply shares_sum; [exact Hn|]. rewrite <- Hlen. apply outcomes_partition.
Qed.

Lemma evaluate_graph_fractions_witness :
  exists all_paths all_evaluation_results s,
    evaluate_graph (geo := flat_sea) no_leuven no_fit pruned_triangle
      [[0; 1; 2]; []] 500 5 "standard" = Some (all_paths, all_evaluation_results, s) /\
    fraction_NaN s
      = (inject_Z (Z.of_nat (List.length (filter is_failure all_evaluation_results)))
         / inject_Z (Z.of_nat (List.length [[0%nat; 1%nat; 2%nat]; []])))%Q /\
    fraction_success s
      = (inject_Z (Z.of_nat (List.length (filter is_success all_evaluation_results)))
         / inject_Z (Z.of_nat (List.length [[0%nat; 1%nat; 2%nat]; []])))%Q /\
    (fraction_NaN s + fraction_success s
     + inject_Z (Z.of_nat (List.length (filter is_attempt all_evaluation_results)))
       / inject_Z (Z.of_nat (List.length [[0%nat; 1%nat; 2%nat]; []])) == 1)%Q.
Proof.
  eexists. eexists. eexists. split; [vm_compute; reflexivity|].
  eapply (@evaluate_graph_fractions flat_sea (no_leuven (geo := flat_sea)) no_fit
            pruned_triangle [[0; 1; 2]; []] 500%Z 5%Z "standard").
  - reflexivity.
  - vm_compute. reflexivity.
Defined.

(** ** [calc_significant_points_DP] *)

Lemma next_cog_subset mmsi rows :
  next_cog mmsi rows = hd_error (map snd (filter (fun r => fst r =? mmsi) rows)).
Proof.
  induction rows as [|r rows IH]; [reflexivity|]. simpl.
  destruct (fst r =? mmsi); [reflexivity|exact IH].
Qed.

Lemma subset_cog_after_cons c c1 sub :
  subset_cog_after (c :: c1 :: sub) = c1 :: subset_cog_after (c1 :: sub).
Proof.
  unfold subset_cog_after, shift_back. cbn [List.length tl].
  change (1 <? S (S (List.length sub))) with true. cbv iota.
  change (last (c :: c1 :: sub) NaN) with (last (c1 :: sub) NaN).
  destruct sub as [|c2 sub]; [reflexivity|].
  change (1 <? List.length (c1 :: c2 :: sub)) with true. reflexivity.
Qed.

Lemma assigned_nil rows column :
  List.length column = List.length rows -> assigned [] rows column = column.
Proof.
  revert column. induction rows as [|r rows IH]; intros [|x column] Hlen;
    try discriminate; [reflexivity|].
  simpl. rewrite IH by (simpl in Hlen; lia). reflexivity.
Qed.

Lemma length_assigned done rows column :
  List.length column = List.length rows ->
  List.length (assigned done rows column) = List.length rows.
Proof.
  revert column. induction rows as [|r rows IH]; intros [|x column] Hlen;
    try discriminate; [reflexivity|].
  simpl. rewrite IH by (simpl in Hlen; lia). reflexivity.
Qed.

(** One pass of the loop assigns the rows of one vessel and raises
    nothing. *)
Lemma cog_after_pass mmsi : forall rows column,
  List.length column = List.length rows ->
  assign_where (map (fun r => fst r =? mmsi) rows)
    (subset_cog_after (map snd (filter (fun r => fst r =? mmsi) rows)))
    column
  = Some (assigned [mmsi] rows column).
Proof.
  induction rows as [|r rows IH]; intros [|x column] Hlen; try discriminate.
  - reflexivity.
  - assert (Hlen' : List.length column = List.length rows) by (simpl in Hlen; lia).
    cbn [map filter assigned existsb]. rewrite orb_false_r.
    destruct (fst r =? mmsi) eqn:E.
    + cbn [map]. unfold course_after_turn. apply Nat.eqb_eq in E. rewrite E.
      rewrite next_cog_subset.
      destruct (map snd (filter (fun r0 => fst r0 =? mmsi) rows)) as [|c1 sub] eqn:Esub.
      * cbn [hd_error]. unfold subset_cog_after. cbn [List.length Nat.ltb Nat.leb].
        cbn [assign_where].
        specialize (IH column Hlen').
        change (subset_cog_after []) with (@nil float) in IH.
        rewrite IH. reflexivity.
      * rewrite subset_cog_after_cons. cbn [hd_error assign_where].
        specialize (IH column Hlen'). rewrite IH. reflexivity.
    + cbn [assign_where]. rewrite IH by exact Hlen'. reflexivity.
Qed.

Lemma assigned_pass mmsi done : forall rows column,
  assigned done rows (assigned [mmsi] rows column) = assigned (mmsi :: done) rows column.
Proof.
  induction rows as [|r rows IH]; intros [|x column]; try reflexivity.
  cbn [assigned existsb]. rewrite IH, orb_false_r.
  destruct (fst r =? mmsi), (existsb (Nat.eqb (fst r)) done); reflexivity.
Qed.

Lemma cog_after_loop rows : forall vessels column,
  List.length column = List.length rows ->
  for_each (cog_after_step rows) vessels column = Some (assigned vessels rows column).
Proof.
  induction vessels as [|m vessels IH]; intros column Hlen.
  - simpl. rewrite assigned_nil by exact Hlen. reflexivity.
  - rewrite for_each_cons. unfold cog_after_step at 1.
    rewrite cog_after_pass by exact Hlen.
    rewrite IH by (rewrite length_assigned; auto).
    rewrite assigned_pass. reflexivity.
Qed.

Lemma assigned_all done : forall rows column,
  (forall r, In r rows -> In (fst r) done) ->
  List.length column = List.length rows ->
  assigned done rows column = course_after rows.
Proof.
  induction rows as [|r rows IH]; intros [|x column] Hall Hlen; try discriminate.
  - reflexivity.
  - cbn [assigned course_after].
    assert (Hr : existsb (Nat.eqb (fst r)) done = true).
    { apply existsb_exists. exists (fst r). split; [apply Hall; simpl; auto|].
      apply Nat.eqb_refl. }
    rewrite Hr, IH; [reflexivity| |simpl in Hlen; lia].
    intros r' Hin. apply Hall. simpl. auto.
Qed.

(** X21. The loop of [calc_significant_points_DP] that fills [cog_after]
    raises nothing and leaves no row unassigned: each turning point gets the
    [cog_before] of the next turning point of the same vessel, and the last
    turning point of a vessel gets its own [cog_before]. *)
Theorem add_cog_after_next_turn (rows : list (nat * float)) :
  add_cog_after rows = Some (course_after rows).
Proof.
  unfold add_cog_after. rewrite cog_after_loop by (rewrite length_map; reflexivity).
  rewrite assigned_all; [reflexivity| |rewrite length_map; reflexivity].
  intros r Hin. apply fromkeys_In. apply in_map. exact Hin.
Qed.

(** ** [merge_stop_points] *)

Lemma grown_prefix base t : grown base t -> exists added, t = base ++ added.
Proof.
  induction 1 as [|t r r0 _ [added ->] _ _ _ _ _].
  - exists []. rewrite app_nil_r. reflexivity.
  - exists (added ++ [r]). rewrite app_assoc. reflexivity.
Qed.

Lemma grown_incl base t : grown base t -> incl base t.
Proof.
  intros H. destruct (grown_prefix H) as [added ->]. apply incl_appl, incl_refl.
Qed.

Lemma grown_trans base t t' : grown base t -> grown t t' -> grown base t'.
Proof.
  intros H1 H2. induction H2 as [|t' r r0 _ IH Hfresh Hloop Hstats Hin Hp].
  - exact H1.
  - eapply grown_step; eauto.
Qed.

Lemma existsb_ends (t : list connection) u v :
  existsb (fun r => (from r =? u) && (to r =? v)) t = false ->
  ~ In (u, v) (map ends t).
Proof.
  intros H Hin. apply in_map_iff in Hin as (r & Hr & Hin).
  assert (Ht : existsb (fun r => (from r =? u) && (to r =? v)) t = true).
  { apply existsb_exists. exists r. split; [exact Hin|].
    unfold ends in Hr. injection Hr as -> ->. rewrite !Nat.eqb_refl. reflexivity. }
  congruence.
Qed.

Lemma existsb_ends_swapped (t : list connection) u v :
  existsb (fun r => (to r =? v) && (from r =? u)) t = false ->
  ~ In (u, v) (map ends t).
Proof.
  intros H. apply existsb_ends. rewrite <- H. clear H.
  induction t as [|r t IH]; simpl; [reflexivity|].
  rewrite IH. f_equal. apply andb_comm.
Qed.

Section MergerFacts.
Variable hulls_intersect : waypoint -> waypoint -> bool.
Variable joining_edge :
  list waypoint -> list waypoint -> node -> node -> option (LineString * Q * Q).

Lemma absorb_from_grown m0 nw wps row t t' :
  In row t ->
  absorb_from joining_edge m0 nw wps row t = Some t' ->
  grown t t'.
Proof.
  intros Hin. unfold absorb_from.
  destruct (m0 =? to row) eqn:E0; [intros [= <-]; apply grown_base|].
  destruct (existsb _ t) eqn:Ex; [intros [= <-]; apply grown_base|].
  destruct (joining_edge nw wps m0 (to row)) as [[[e d] l]|]; [|discriminate].
  intros [= <-]. apply grown_step with (r0 := row); try reflexivity.
  - apply grown_base.
  - apply existsb_ends. exact Ex.
  - cbn [from to]. apply Nat.eqb_neq. exact E0.
  - exact Hin.
Qed.

Lemma absorb_to_grown m0 nw wps row t t' :
  In row t ->
  absorb_to joining_edge m0 nw wps row t = Some t' ->
  grown t t'.
Proof.
  intros Hin. unfold absorb_to.
  destruct (m0 =? from row) eqn:E0; [intros [= <-]; apply grown_base|].
  destruct (existsb _ t) eqn:Ex; [intros [= <-]; apply grown_base|].
  destruct (joining_edge wps nw (from row) m0) as [[[e d] l]|]; [|discriminate].
  intros [= <-]. apply grown_step with (r0 := row); try reflexivity.
  - apply grown_base.
  - apply existsb_ends_swapped. exact Ex.
  - cbn [from to]. apply Nat.eqb_neq in E0. congruence.
  - exact Hin.
Qed.

(** A loop whose body lets the table grow, over rows of the table. *)
Lemma grown_loop (body : connection -> list connection -> option (list connection)) :
  (forall row t t', In row t -> body row t = Some t' -> grown t t') ->
  forall rows t t',
    incl rows t -> for_each body rows t = Some t' -> grown t t'.
Proof.
  intros Hbody. induction rows as [|row rows IH]; intros t t' Hincl.
  - simpl. intros [= <-]. apply grown_base.
  - rewrite for_each_cons. destruct (body row t) as [t1|] eqn:E; [|discriminate].
    intros H. assert (H1 : grown t t1) by (apply (Hbody row); [apply Hincl; simpl; auto|exact E]).
    apply grown_trans with t1; [exact H1|].
    apply IH; [|exact H]. intros r Hr. apply (grown_incl H1). apply Hincl. simpl. auto.
Qed.

Lemma absorb_member_grown m0 nw wps mj t dropped t' dropped' :
  absorb_member joining_edge m0 nw wps mj (t, dropped) = Some (t', dropped') ->
  grown t t' /\ dropped' = dropped ++ [mj].
Proof.
  unfold absorb_member.
  destruct (for_each (absorb_from joining_edge m0 nw wps) _ t) as [t1|] eqn:E1;
    [|discriminate].
  destruct (for_each (absorb_to joining_edge m0 nw wps) _ t1) as [t2|] eqn:E2;
    [|discriminate].
  intros [= <- <-]. split; [|reflexivity].
  apply grown_trans with t1.
  - eapply grown_loop; [|
      |exact E1]; [intros; eapply absorb_from_grown; eauto|].
    intros r Hr. apply filter_In in Hr. tauto.
  - eapply grown_loop; [|
      |exact E2]; [intros; eapply absorb_to_grown; eauto|].
    intros r Hr. apply filter_In in Hr. tauto.
Qed.

Lemma absorb_members_grown m0 nw wps : forall absorbed t dropped t' dropped',
  for_each (absorb_member joining_edge m0 nw wps) absorbed (t, dropped)
    = Some (t', dropped') ->
  grown t t' /\ dropped' = dropped ++ absorbed.
Proof.
  induction absorbed as [|mj absorbed IH]; intros t dropped t' dropped'.
  - simpl. intros [= <- <-]. rewrite app_nil_r. split; [apply grown_base|reflexivity].
  - rewrite for_each_cons.
    destruct (absorb_member joining_edge m0 nw wps mj (t, dropped)) as [[t1 d1]|] eqn:E;
      [|discriminate].
    apply absorb_member_grown in E as [Hg ->].
    intros H. apply IH in H as [Hg' ->]. split.
    + eapply grown_trans; eauto.
    + rewrite <- app_assoc. reflexivity.
Qed.

Lemma absorb_all_grown nw wps : forall merged t dropped t' dropped',
  for_each (absorb_stop_point joining_edge nw wps) merged (t, dropped)
    = Some (t', dropped') ->
  grown t t' /\ dropped' = dropped ++ flat_map (fun m => tl (members m)) merged.
Proof.
  induction merged as [|m merged IH]; intros t dropped t' dropped'.
  - simpl. intros [= <- <-]. rewrite app_nil_r. split; [apply grown_base|reflexivity].
  - rewrite for_each_cons. unfold absorb_stop_point at 1.
    cbn [flat_map]. destruct (members m) as [|m0 absorbed].
    + intros H. apply IH in H. exact H.
    + destruct (for_each _ absorbed (t, dropped)) as [[t1 d1]|] eqn:E; [|discriminate].
      apply absorb_members_grown in E as [Hg ->].
      intros H. apply IH in H as [Hg' ->]. split.
      * eapply grown_trans; eauto.
      * cbn [tl]. rewrite <- app_assoc. reflexivity.
Qed.
End MergerFacts.

Lemma grown_rows base t :
  grown base t ->
  forall r, In r t ->
    In r base \/
    (~ In (ends r) (map ends base) /\ from r <> to r /\ conn_stats r = None /\
     exists r0, In r0 base /\ passages r = passages r0).
Proof.
  induction 1 as [|t r r0 Hg IH Hfresh Hloop Hstats Hin Hp]; intros x Hx; [auto|].
  apply in_app_iff in Hx as [Hx|[<-|[]]]; [auto|]. right.
  split; [|split; [exact Hloop|split; [exact Hstats|]]].
  - intros Hb. apply Hfresh. apply in_map_iff in Hb as (b & Hb & Hinb).
    apply in_map_iff. exists b. split; [exact Hb|]. apply (grown_incl Hg). exact Hinb.
  - destruct (IH r0 Hin) as [Hb|(_ & _ & _ & r1 & Hr1 & Hp1)].
    + exists r0. auto.
    + exists r1. split; [exact Hr1|congruence].
Qed.

Lemma grown_NoDup base t :
  grown base t -> NoDup (map ends base) -> NoDup (map ends t).
Proof.
  induction 1 as [|t r r0 Hg IH Hfresh _ _ _ _]; intros Hnd; [exact Hnd|].
  rewrite map_app. cbn [map]. apply NoDup_snoc; auto.
Qed.

(** What [merge_stop_points] returns, when it returns. *)
Lemma merge_inversion hulls_intersect joining_edge self max_speed self' connections :
  waypoint_connections self = Some connections ->
  merge_stop_points hulls_intersect joining_edge self max_speed = Some self' ->
  let stop_points := filter (fun w => Qltb (wp_speed w) max_speed) (waypoints self) in
  exists merged drop_lists grown_table g,
    for_each (merge_step hulls_intersect stop_points) stop_points ([], [])
      = Some (merged, drop_lists) /\
    grown connections grown_table /\
    let new_waypoints :=
      filter (fun w => negb (mem_node (clusterID w) (List.concat drop_lists)))
        (waypoints self)
      ++ map stop_point merged in
    let dropped := flat_map (fun m => tl (members m)) merged in
    let new_connections :=
      filter (fun r => negb (mem_node (to r) dropped || mem_node (from r) dropped))
        grown_table in
    graph_from_tables new_waypoints new_connections = Some g /\
    self' = mk_MTN new_waypoints (Some new_connections)
              (waypoint_connections_pruned self) (waypoint_connections_refined self)
              (Some g) (G_pruned self) (G_refined self).
Proof.
  intros HC. unfold merge_stop_points. rewrite HC. cbv zeta.
  destruct (for_each (merge_step hulls_intersect _) _ ([], []))
    as [[merged drop_lists]|] eqn:E1; [|discriminate].
  destruct (for_each (absorb_stop_point joining_edge _ _) merged (connections, []))
    as [[t dropped]|] eqn:E2; [|discriminate].
  apply absorb_all_grown in E2 as [Hg ->]. cbn [app].
  destruct (graph_from_tables _ _) as [g|] eqn:E3; [|discriminate].
  intros [= <-]. exists merged, drop_lists, t, g. auto.
Qed.

(** X22. [merge_stop_points] never adds passages to a connection: a row of
    the new table either is a row of the old table, unchanged, or joins a
    pair of way points that no old row joins, is no self-loop and carries
    the passages of one old row.  So a connection that the merged stop point
    already has keeps its own passages when a connection of an absorbed stop
    point leads to the same way point. *)
Theorem merge_keeps_passages hulls_intersect joining_edge self max_speed self'
  connections connections' r :
  waypoint_connections self = Some connections ->
  merge_stop_points hulls_intersect joining_edge self max_speed = Some self' ->
  waypoint_connections self' = Some connections' ->
  In r connections' ->
  In r connections \/
  (~ In (ends r) (map ends connections) /\ from r <> to r /\ conn_stats r = None /\
   exists r0, In r0 connections /\ passages r = passages r0).
Proof.
  intros HC Hm HC' Hin.
  destruct (merge_inversion _ _ _ _ HC Hm) as (merged & dl & t & g & _ & Hg & _ & ->).
  cbn [waypoint_connections] in HC'. injection HC' as <-.
  apply filter_In in Hin as [Hin _]. exact (grown_rows Hg _ Hin).
Qed.

Lemma merge_keeps_passages_witness :
  exists self' connections',
    merge_stop_points all_touch plain_edge harbour_network 2 = Some self' /\
    waypoint_connections self' = Some connections' /\
    In (row 0 2 5) connections' /\
    (In (row 0 2 5) harbour_connections \/
     (~ In (ends (row 0 2 5)) (map ends harbour_connections) /\
      from (row 0 2 5) <> to (row 0 2 5) /\ conn_stats (row 0 2 5) = None /\
      exists r0, In r0 harbour_connections /\ passages (row 0 2 5) = passages r0)).
Proof.
  eexists. eexists. split; [vm_compute; reflexivity|]. split; [reflexivity|].
  split; [right; left; reflexivity|].
  eapply (@merge_keeps_passages all_touch plain_edge harbour_network 2%Q).
  - reflexivity.
  - vm_compute. reflexivity.
  - reflexivity.
  - right. left. reflexivity.
Defined.

(** X23. [merge_stop_points] keeps the table of connections well formed:
    when no old row is a self-loop, no new row is one; when no two old rows
    join the same ordered pair, no two new rows do; and no new row starts or
    ends in a stop point that was absorbed into a merged stop point. *)
Theorem merge_table_well_formed hulls_intersect joining_edge self max_speed self'
  connections connections' merged drop_lists :
  waypoint_connections self = Some connections ->
  merge_stop_points hulls_intersect joining_edge self max_speed = Some self' ->
  waypoint_connections self' = Some connections' ->
  for_each (merge_step hulls_intersect
              (filter (fun w => Qltb (wp_speed w) max_speed) (waypoints self)))
    (filter (fun w => Qltb (wp_speed w) max_speed) (waypoints self)) ([], [])
    = Some (merged, drop_lists) ->
  ((forall r, In r connections -> from r <> to r) ->
   forall r, In r connections' -> from r <> to r) /\
  (NoDup (map ends connections) -> NoDup (map ends connections')) /\
  (forall r m x, In r connections' -> In m merged -> In x (tl (members m)) ->
     from r <> x /\ to r <> x).
Proof.
  intros HC Hm HC' Hmerged.
  destruct (merge_inversion _ _ _ _ HC Hm) as (merged' & dl & t & g & E & Hg & _ & ->).
  cbv zeta in E. rewrite Hmerged in E. injection E as <- <-.
  cbn [waypoint_connections] in HC'. injection HC' as <-.
  split; [|split].
  - intros Hloop r Hin. apply filter_In in Hin as [Hin _].
    destruct (grown_rows Hg _ Hin) as [Hb|(_ & H & _)]; auto.
  - intros Hnd. apply NoDup_map_filter. apply (grown_NoDup Hg Hnd).
  - intros r m x Hin Hm' Hx. apply filter_In in Hin as [_ Hkeep].
    apply negb_true_iff, orb_false_iff in Hkeep as [Hto Hfrom].
    assert (Hd : In x (flat_map (fun m => tl (members m)) merged))
      by (apply in_flat_map; eauto).
    split; intros <-.
    + assert (mem_node (from r) (flat_map (fun m => tl (members m)) merged) = true)
        by (apply existsb_exists; exists (from r); split; [exact Hd|apply Nat.eqb_refl]).
      congruence.
    + assert (mem_node (to r) (flat_map (fun m => tl (members m)) merged) = true)
        by (apply existsb_exists; exists (to r); split; [exact Hd|apply Nat.eqb_refl]).
      congruence.
Qed.

Lemma merge_table_well_formed_witness :
  exists self' connections' merged drop_lists,
    merge_stop_points all_touch plain_edge harbour_network 2 = Some self' /\
    waypoint_connections self' = Some connections' /\
    for_each (merge_step all_touch
                (filter (fun w => Qltb (wp_speed w) 2) (waypoints harbour_network)))
      (filter (fun w => Qltb (wp_speed w) 2) (waypoints harbour_network)) ([], [])
      = Some (merged, drop_lists) /\
    ((forall r, In r harbour_connections -> from r <> to r) ->
     forall r, In r connections' -> from r <> to r) /\
    (NoDup (map ends harbour_connections) -> NoDup (map ends connections')) /\
    (forall r m x, In r connections' -> In m merged -> In x (tl (members m)) ->
       from r <> x /\ to r <> x).
Proof.
  eexists. eexists. eexists. eexists.
  split; [vm_compute; reflexivity|]. split; [reflexivity|].
  split; [vm_compute; reflexivity|].
  eapply (@merge_table_well_formed all_touch plain_edge harbour_network 2%Q).
  - reflexivity.
  - vm_compute. reflexivity.
  - reflexivity.
  - vm_compute. reflexivity.
Defined.

(** *** The graph that is built from the tables *)

Lemma existsb_node_ids g k :
  existsb (fun ka : node * node_attrs => fst ka =? k) (nodes g) = mem_node k (node_ids g).
Proof.
  unfold mem_node, node_ids. induction (nodes g) as [|ka l IH]; simpl; [reflexivity|].
  rewrite IH, (Nat.eqb_sym k). reflexivity.
Qed.

Lemma node_ids_add_node g k a :
  node_ids (add_node g k a)
  = if mem_node k (node_ids g) then node_ids g else node_ids g ++ [k].
Proof.
  unfold add_node. rewrite existsb_node_ids.
  destruct (mem_node k (node_ids g)); unfold node_ids; cbn [nodes].
  - rewrite map_map. apply map_ext_in. intros ka _.
    destruct (Nat.eqb_spec (fst ka) k); [symmetry; assumption|reflexivity].
  - rewrite map_app. reflexivity.
Qed.

Lemma node_ids_touch_node g k :
  node_ids (touch_node g k)
  = if mem_node k (node_ids g) then node_ids g else node_ids g ++ [k].
Proof.
  unfold touch_node. rewrite existsb_node_ids.
  destruct (mem_node k (node_ids g)); [reflexivity|].
  unfold node_ids. cbn [nodes]. rewrite map_app. reflexivity.
Qed.

Lemma adj_touch_node g k : adj (touch_node g k) = adj g.
Proof. unfold touch_node. destruct (existsb _ _); reflexivity. Qed.

Lemma grow_ids_NoDup k ids :
  NoDup ids -> NoDup (if mem_node k ids then ids else ids ++ [k]).
Proof.
  intros H. destruct (mem_node k ids) eqn:E; [exact H|].
  apply NoDup_snoc; [exact H|]. intros Hin. apply mem_node_In in Hin. congruence.
Qed.

Lemma grow_ids_incl k ids : incl ids (if mem_node k ids then ids else ids ++ [k]).
Proof. destruct (mem_node k ids); [apply incl_refl|apply incl_appl, incl_refl]. Qed.

Lemma grow_ids_In k ids : In k (if mem_node k ids then ids else ids ++ [k]).
Proof.
  destruct (mem_node k ids) eqn:E; [apply mem_node_In; exact E|].
  apply in_app_iff. simpl. auto.
Qed.

(** The loop over the way points: distinct node ids, one for each way
    point, and no edge. *)
Lemma node_loop (wps : list waypoint) : forall g,
  NoDup (node_ids g) ->
  let g' := fold_left (fun g w =>
                         add_node g (clusterID w)
                           (mk_node_attrs (Some (wp_cog_before w)) (Some (wp_cog_after w))))
                      wps g in
  NoDup (node_ids g') /\ adj g' = adj g /\ incl (node_ids g) (node_ids g') /\
  forall w, In w wps -> In (clusterID w) (node_ids g').
Proof.
  induction wps as [|w wps IH]; intros g Hnd; cbn [fold_left].
  - repeat split; auto; [apply incl_refl|intros w []].
  - set (g1 := add_node g (clusterID w) _).
    assert (Hids : node_ids g1
                   = if mem_node (clusterID w) (node_ids g) then node_ids g
                     else node_ids g ++ [clusterID w]) by apply node_ids_add_node.
    assert (Hnd1 : NoDup (node_ids g1)) by (rewrite Hids; apply grow_ids_NoDup, Hnd).
    destruct (IH g1 Hnd1) as (H1 & H2 & H3 & H4). cbv zeta.
    split; [exact H1|]. split.
    + rewrite H2. unfold g1, add_node. destruct (existsb _ _); reflexivity.
    + split.
      * intros k Hk. apply H3. rewrite Hids. apply grow_ids_incl. exact Hk.
      * intros w' [<-|Hin]; [|auto]. apply H3. rewrite Hids. apply grow_ids_In.
Qed.

Lemma add_edge_fresh g e d :
  ~ In e (edges g) ->
  adj (add_edge g e d) = adj g ++ [(e, d)] /\
  node_ids (add_edge g e d)
  = (let ids1 := if mem_node (fst e) (node_ids g) then node_ids g
                 else node_ids g ++ [fst e] in
     if mem_node (snd e) ids1 then ids1 else ids1 ++ [snd e]).
Proof.
  intros Hn. unfold add_edge.
  assert (Hm : mem_edge e (edges (touch_node (touch_node g (fst e)) (snd e))) = false).
  { destruct (mem_edge e _) eqn:E; [|reflexivity]. exfalso. apply Hn.
    apply mem_edge_In in E. unfold edges in *. rewrite !adj_touch_node in E. exact E. }
  rewrite Hm. cbn [adj nodes]. rewrite !adj_touch_node. split; [reflexivity|].
  change (map fst (nodes (touch_node (touch_node g (fst e)) (snd e))))
    with (node_ids (touch_node (touch_node g (fst e)) (snd e))).
  unfold node_ids at 1. cbn [nodes].
  change (map fst (nodes (touch_node (touch_node g (fst e)) (snd e))))
    with (node_ids (touch_node (touch_node g (fst e)) (snd e))).
  rewrite !node_ids_touch_node. reflexivity.
Qed.

(** The loop over the rows of a table without repeated pairs. *)
Lemma edge_loop : forall rows g g',
  NoDup (map ends rows) ->
  (forall r, In r rows -> ~ In (ends r) (edges g)) ->
  NoDup (node_ids g) ->
  for_each (fun r g =>
              match divide 1 (inject_Z (passages r)) with
              | None => None
              | Some inverse =>
                  Some (add_edge g (from r, to r)
                          (mk_edge_attrs (passages r) inverse (conn_direction r)
                             (conn_length r) (conn_geometry r) None))
              end) rows g = Some g' ->
  adj g' = adj g ++ map table_entry rows /\
  NoDup (node_ids g') /\
  incl (node_ids g) (node_ids g') /\
  (forall r, In r rows ->
     passages r <> 0%Z /\ In (from r) (node_ids g') /\ In (to r) (node_ids g')).
Proof.
  induction rows as [|r rows IH]; intros g g' Hnd Hfresh Hids.
  - simpl. intros [= <-]. rewrite app_nil_r.
    repeat split; auto; try apply incl_refl; contradiction.
  - rewrite for_each_cons. unfold divide.
    destruct (Qeq_bool (inject_Z (passages r)) 0) eqn:Ez; [discriminate|].
    assert (Hp : passages r <> 0%Z) by (intros Hp0; rewrite Hp0 in Ez; discriminate).
    set (d := mk_edge_attrs (passages r) (1 / inject_Z (passages r))%Q (conn_direction r)
                (conn_length r) (conn_geometry r) None).
    destruct (@add_edge_fresh g (from r, to r) d) as [Hadj Hnodes].
    { apply (Hfresh r). simpl. auto. }
    cbv zeta in Hnodes. cbn [fst snd] in Hnodes.
    set (g1 := add_edge g (from r, to r) d) in *.
    inversion Hnd as [|? ? Hnin Hnd']; subst.
    assert (Hids1 : NoDup (node_ids g1)).
    { rewrite Hnodes. apply grow_ids_NoDup, grow_ids_NoDup, Hids. }
    assert (Hincl1 : incl (node_ids g) (node_ids g1)).
    { rewrite Hnodes. intros k Hk. apply grow_ids_incl, grow_ids_incl. exact Hk. }
    assert (Hfrom : In (from r) (node_ids g1)).
    { rewrite Hnodes. apply grow_ids_incl, grow_ids_In. }
    assert (Hto : In (to r) (node_ids g1)).
    { rewrite Hnodes. apply grow_ids_In. }
    intros H. apply IH in H; [|exact Hnd'| |exact Hids1].
    + destruct H as (H1 & H2 & H3 & H4). split; [|split; [exact H2|split]].
      * rewrite H1, Hadj, <- app_assoc. reflexivity.
      * intros k Hk. apply H3, Hincl1, Hk.
      * intros r' [<-|Hin]; [|auto]. split; [exact Hp|]. split; apply H3; assumption.
    + intros r' Hin He. unfold edges in He. rewrite Hadj, map_app in He.
      apply in_app_iff in He as [He|[He|[]]].
      * apply (Hfresh r'); [simpl; auto|exact He].
      * apply Hnin. cbn [fst] in He. unfold ends at 1. rewrite He.
        apply in_map. exact Hin.
Qed.

Lemma by_source_In g kd :
  In kd (adj (by_source g)) <-> In kd (adj g) /\ In (fst (fst kd)) (node_ids g).
Proof.
  unfold by_source, node_ids. cbn [adj]. rewrite in_flat_map. split.
  - intros (ka & Hka & Hin). apply filter_In in Hin as [Hin Hsrc].
    apply Nat.eqb_eq in Hsrc. split; [exact Hin|]. rewrite Hsrc. apply in_map. exact Hka.
  - intros [Hin Hsrc]. apply in_map_iff in Hsrc as (ka & E & Hka).
    exists ka. split; [exact Hka|]. apply filter_In. split; [exact Hin|].
    apply Nat.eqb_eq. symmetry. exact E.
Qed.

Lemma by_source_unique {B} (l : list (nat * nat * B)) : forall (ns : list (node * node_attrs)),
  NoDup (map fst ns) -> NoDup (map fst l) ->
  NoDup (map fst (flat_map (fun ka => filter (fun kd => fst (fst kd) =? fst ka) l) ns)).
Proof.
  induction ns as [|ka ns IH]; intros Hns Hl; cbn [flat_map map]; [constructor|].
  inversion Hns as [|? ? Hnin Hnd]; subst. rewrite map_app.
  apply NoDup_app.
  - apply NoDup_map_filter. exact Hl.
  - apply IH; auto.
  - intros e He Hin. apply in_map_iff in He as (kd & <- & Hkd).
    apply filter_In in Hkd as [_ Hsrc]. apply Nat.eqb_eq in Hsrc.
    apply in_map_iff in Hin as (kd' & E & Hkd').
    apply in_flat_map in Hkd' as (ka' & Hka' & Hkd').
    apply filter_In in Hkd' as [_ Hsrc']. apply Nat.eqb_eq in Hsrc'.
    apply Hnin. rewrite <- Hsrc, <- E, Hsrc'. apply in_map. exact Hka'.
Qed.

(** The graph built from a table without repeated pairs: one edge for each
    row, with the attributes of the row. *)
Lemma graph_from_tables_spec wps table g :
  NoDup (map ends table) ->
  graph_from_tables wps table = Some g ->
  unique_edges g = true /\
  NoDup (node_ids g) /\
  (forall r, In r table ->
     passages r <> 0%Z /\ get_edge g (from r) (to r) = Some (snd (table_entry r))) /\
  (forall e, In e (edges g) -> In e (map ends table)) /\
  (forall w, In w wps -> In (clusterID w) (node_ids g)).
Proof.
  intros Hnd. unfold graph_from_tables.
  match goal with
  | |- context [for_each ?b table ?g0] =>
      destruct (for_each b table g0) as [g1|] eqn:E; [|discriminate];
      pose proof (@node_loop wps (mk_DiGraph [] []) (NoDup_nil _)) as Hnode;
      cbv zeta in Hnode; destruct Hnode as (Hids0 & Hadj0 & _ & Hwps);
      apply edge_loop in E; [|exact Hnd| |exact Hids0]
  end.
  - destruct E as (Hadj & Hids & Hincl & Hrows). rewrite Hadj0 in Hadj. cbn [adj app] in Hadj.
    cbn [option_map]. intros [= <-].
    assert (Hkeys : NoDup (map fst (adj g1))).
    { rewrite Hadj, map_map. exact Hnd. }
    assert (Hu : unique_edges (by_source g1) = true).
    { apply unique_edgesb_NoDup. unfold edges, by_source. cbn [adj].
      apply by_source_unique; [exact Hids|exact Hkeys]. }
    split; [exact Hu|]. split; [exact Hids|]. split; [|split].
    + intros r Hin. destruct (Hrows r Hin) as (Hp & Hfrom & _). split; [exact Hp|].
      apply get_edge_of_In_unique; [exact Hu|].
      apply by_source_In. split; [|exact Hfrom].
      rewrite Hadj. change (from r, to r, snd (table_entry r)) with (table_entry r).
      apply in_map. exact Hin.
    + intros e He. unfold edges in He. apply in_map_iff in He as (kd & <- & Hkd).
      apply by_source_In in Hkd as [Hkd _]. rewrite Hadj in Hkd.
      apply in_map_iff in Hkd as (r & <- & Hr).
      change (fst (table_entry r)) with (ends r). apply in_map. exact Hr.
    + intros w Hw. apply Hincl, Hwps, Hw.
  - intros r _. unfold edges. rewrite Hadj0. intros [].
Qed.

(** X24. After [merge_stop_points], when no two old connections join the
    same ordered pair and none has [0] passages, the graph and the table of
    connections agree: every row has passages other than [0] and is an edge
    with its passages as weight, its direction, length and geometry and the
    reciprocal weight [1 / passages]; every edge is a row; no pair has two
    edges; and every new way point is a node. *)
Theorem merge_graph_agrees hulls_intersect joining_edge self max_speed self'
  connections connections' g :
  waypoint_connections self = Some connections ->
  NoDup (map ends connections) ->
  (forall r, In r connections -> passages r <> 0%Z) ->
  merge_stop_points hulls_intersect joining_edge self max_speed = Some self' ->
  waypoint_connections self' = Some connections' ->
  G self' = Some g ->
  unique_edges g = true /\
  (forall r, In r connections' ->
     passages r <> 0%Z /\
     exists d, get_edge g (from r) (to r) = Some d /\
       weight d = passages r /\ direction d = conn_direction r /\
       edge_length d = conn_length r /\ geometry d = conn_geometry r /\
       inverse_weight d = (1 / inject_Z (passages r))%Q) /\
  (forall u v, In (u, v) (edges g) ->
     exists r, In r connections' /\ from r = u /\ to r = v) /\
  (forall w, In w (waypoints self') -> In (clusterID w) (node_ids g)).
Proof.
  intros HC Hnd Hpos Hm HC' HG.
  destruct (merge_inversion _ _ _ _ HC Hm) as (merged & dl & t & g' & _ & Hg & Hgraph & ->).
  cbv zeta in Hgraph. cbn [waypoint_connections G waypoints] in *.
  injection HC' as <-. injection HG as <-.
  apply graph_from_tables_spec in Hgraph;
    [|apply NoDup_map_filter; apply (grown_NoDup Hg Hnd)].
  destruct Hgraph as (Hu & _ & Hrows & Hedges & Hwps).
  split; [exact Hu|]. split; [|split; [|exact Hwps]].
  - intros r Hin. destruct (Hrows r Hin) as [_ Hge]. split.
    + apply filter_In in Hin as [Hin _].
      destruct (grown_rows Hg _ Hin) as [Hold|(_ & _ & _ & r0 & Hr0 & Hp)].
      * apply Hpos. exact Hold.
      * rewrite Hp. apply Hpos. exact Hr0.
    + eexists. split; [exact Hge|]. cbn. auto.
  - intros u v He. apply Hedges in He. apply in_map_iff in He as (r & E & Hr).
    exists r. unfold ends in E. injection E as <- <-. auto.
Qed.

Lemma merge_graph_agrees_witness :
  exists self' connections' g,
    merge_stop_points all_touch plain_edge harbour_network 2 = Some self' /\
    waypoint_connections self' = Some connections' /\
    G self' = Some g /\
    unique_edges g = true /\
    (forall r, In r connections' ->
       passages r <> 0%Z /\
       exists d, get_edge g (from r) (to r) = Some d /\
         weight d = passages r /\ direction d = conn_direction r /\
         edge_length d = conn_length r /\ geometry d = conn_geometry r /\
         inverse_weight d = (1 / inject_Z (passages r))%Q) /\
    (forall u v, In (u, v) (edges g) ->
       exists r, In r connections' /\ from r = u /\ to r = v) /\
    (forall w, In w (waypoints self') -> In (clusterID w) (node_ids g)).
Proof.
  eexists. eexists. eexists. split; [vm_compute; reflexivity|].
  split; [reflexivity|]. split; [reflexivity|].
  eapply (@merge_graph_agrees all_touch plain_edge harbour_network 2%Q).
  - reflexivity.
  - apply unique_edgesb_NoDup. reflexivity.
  - intros r Hin. simpl in Hin.
    repeat (destruct Hin as [<-|Hin]; [discriminate|]). contradiction.
  - vm_compute. reflexivity.
  - reflexivity.
  - reflexivity.
Defined.

(** *** The way points after the merge *)

Lemma merge_step_ok hulls_intersect stop_points current st st' :
  merged_ok stop_points st ->
  merge_step hulls_intersect stop_points current st = Some st' ->
  merged_ok stop_points st'.
Proof.
  intros (Hnd & Hm & Hd). destruct st as [merged dl]. unfold merge_step.
  set (hit := filter (hulls_intersect current) stop_points).
  destruct (OrderedDict_fromkeys (map clusterID hit)) as [|c0 rest] eqn:Emem;
    [discriminate|].
  intros [= <-]. cbn [fst snd] in *.
  assert (Hc0 : In c0 (map clusterID hit)).
  { apply fromkeys_In. rewrite Emem. simpl. auto. }
  assert (Hmembers : forall x, In x (c0 :: rest) -> In x (map clusterID stop_points)).
  { intros x Hx. rewrite <- Emem in Hx. apply (proj1 (fromkeys_In _ _)) in Hx.
    apply in_map_iff in Hx as (w & <- & Hw). apply filter_In in Hw as [Hw _].
    apply in_map. exact Hw. }
  assert (Hconcat : forall x, In x (List.concat (dl ++ [c0 :: rest])) <->
                              In x (List.concat dl) \/ In x (c0 :: rest)).
  { intros x. rewrite concat_app, in_app_iff. cbn [List.concat]. rewrite app_nil_r.
    reflexivity. }
  unfold merged_ok. cbn [fst snd]. split; [|split].
  - destruct (mem_node c0 _) eqn:E; [exact Hnd|].
    rewrite map_app. cbn [map stop_point clusterID]. apply NoDup_snoc; [exact Hnd|].
    intros Hin. apply mem_node_In in Hin. congruence.
  - intros m Hin.
    assert (Hcases : In m merged \/
                     (mem_node c0 (map (fun m => clusterID (stop_point m)) merged) = false /\
                      m = mk_merged_stop_point
                            (mk_waypoint c0
                               (Qsum (map wp_speed hit)
                                / inject_Z (Z.of_nat (List.length hit))) 0 0)
                            (c0 :: rest))).
    { destruct (mem_node c0 _); [auto|].
      apply in_app_iff in Hin as [Hin|[<-|[]]]; auto. }
    destruct Hcases as [Hold|[_ ->]].
    + destruct (Hm m Hold) as (H1 & H2). split; [|exact H2].
      apply Hconcat. auto.
    + cbn [stop_point members clusterID wp_speed wp_cog_before wp_cog_after hd_error].
      split; [apply Hconcat; simpl; auto|]. repeat split; reflexivity.
  - intros x Hx. apply Hconcat in Hx as [Hx|Hx]; auto.
Qed.

Lemma merge_loop_ok hulls_intersect stop_points merged drop_lists :
  for_each (merge_step hulls_intersect stop_points) stop_points ([], [])
    = Some (merged, drop_lists) ->
  merged_ok stop_points (merged, drop_lists).
Proof.
  intros H.
  eapply (@for_each_preserves _ _ _ (merged_ok stop_points)); [| |exact H].
  - intros x s s' Hs Hstep. eapply merge_step_ok; eauto.
  - unfold merged_ok. cbn [fst snd map List.concat]. split; [apply NoDup_nil|].
    split; [intros m []|intros x []].
Qed.

Lemma merge_needs_table hulls_intersect joining_edge self max_speed self' :
  merge_stop_points hulls_intersect joining_edge self max_speed = Some self' ->
  exists connections, waypoint_connections self = Some connections.
Proof.
  unfold merge_stop_points. destruct (for_each _ _ ([], [])) as [[m d]|]; [|discriminate].
  destruct (waypoint_connections self) as [c|]; [|discriminate]. eauto.
Qed.

Lemma NoDup_map_injective {A B} (f : A -> B) (l : list A) a b :
  NoDup (map f l) -> In a l -> In b l -> f a = f b -> a = b.
Proof.
  induction l as [|x l IH]; simpl; [tauto|].
  intros Hnd Ha Hb E. inversion Hnd as [|? ? Hnin Hnd']; subst.
  destruct Ha as [->|Ha], Hb as [->|Hb]; auto.
  - exfalso. apply Hnin. rewrite E. apply in_map. exact Hb.
  - exfalso. apply Hnin. rewrite <- E. apply in_map. exact Ha.
Qed.

Lemma filter_none {A} (P : A -> bool) (l : list A) :
  (forall x, In x l -> P x = false) -> filter P l = [].
Proof.
  induction l as [|x l IH]; intros H; simpl; [reflexivity|].
  rewrite (H x) by (simpl; auto). apply IH. intros y Hy. apply H. simpl. auto.
Qed.

Lemma subseq_filter {A} (P : A -> bool) (l : list A) : subseq (filter P l) l.
Proof.
  induction l as [|x l IH]; simpl; [apply subseq_nil|].
  destruct (P x); [apply subseq_take|apply subseq_skip]; exact IH.
Qed.

(** X25. [merge_stop_points] keeps the ids of the way points distinct.  The
    new table is a part of the old table, in its order, followed by the
    merged stop points; the way points under way, whose speed is not below
    [max_speed], are all in that part, as they were and in their order; a
    merged stop point has the id of an old stop point and the courses [0]. *)
Theorem merge_waypoints hulls_intersect joining_edge self max_speed self' :
  NoDup (map clusterID (waypoints self)) ->
  merge_stop_points hulls_intersect joining_edge self max_speed = Some self' ->
  NoDup (map clusterID (waypoints self')) /\
  exists kept merged_points,
    waypoints self' = kept ++ merged_points /\
    subseq kept (waypoints self) /\
    filter (fun w => negb (Qltb (wp_speed w) max_speed)) kept
    = filter (fun w => negb (Qltb (wp_speed w) max_speed)) (waypoints self) /\
    forall w, In w merged_points ->
      wp_cog_before w = 0%Q /\ wp_cog_after w = 0%Q /\
      exists w0, In w0 (waypoints self) /\ (wp_speed w0 < max_speed)%Q /\
                 clusterID w0 = clusterID w.
Proof.
  intros Hnd Hm. destruct (merge_needs_table _ _ _ _ Hm) as [c HC].
  destruct (merge_inversion _ _ _ _ HC Hm) as (merged & dl & t & g & E & _ & _ & ->).
  cbv zeta in E. cbn [waypoints].
  set (stops := filter (fun w => Qltb (wp_speed w) max_speed) (waypoints self)) in *.
  destruct (@merge_loop_ok hulls_intersect stops merged dl E)
    as (Hids & Hmerged & Hdrop). cbn [fst snd] in *.
  assert (Hstop_id : forall x, In x (List.concat dl) ->
            exists w0, In w0 (waypoints self) /\ (wp_speed w0 < max_speed)%Q /\
                       clusterID w0 = x).
  { intros x Hx. apply Hdrop in Hx. apply in_map_iff in Hx as (w0 & <- & Hw0).
    apply filter_In in Hw0 as [Hw0 Hs]. exists w0. split; [exact Hw0|].
    split; [apply Qltb_lt; exact Hs|reflexivity]. }
  split.
  - rewrite map_app, map_map. apply NoDup_app.
    + apply NoDup_map_filter. exact Hnd.
    + exact Hids.
    + intros x Hx Hy. apply in_map_iff in Hx as (w & <- & Hw).
      apply filter_In in Hw as [_ Hkeep]. apply negb_true_iff in Hkeep.
      apply in_map_iff in Hy as (m & Em & Hin).
      destruct (Hmerged m Hin) as (Hc & _). rewrite Em in Hc.
      apply mem_node_In in Hc. congruence.
  - eexists. eexists. split; [reflexivity|]. split; [apply subseq_filter|]. split.
    + rewrite filter_filter. apply filter_ext_in. intros w Hw.
      destruct (Qltb (wp_speed w) max_speed) eqn:Es; cbn [negb];
        [apply andb_false_r|].
      rewrite andb_true_r. apply negb_true_iff.
      destruct (mem_node (clusterID w) (List.concat dl)) eqn:Ed; [|reflexivity].
      exfalso. apply mem_node_In in Ed.
      destruct (Hstop_id _ Ed) as (w0 & Hw0 & Hs0 & Eid).
      assert (w0 = w) by (eapply NoDup_map_injective; eauto). subst w0.
      apply Qltb_lt in Hs0. congruence.
    + intros w Hw. apply in_map_iff in Hw as (m & <- & Hin).
      destruct (Hmerged m Hin) as (Hc & _ & Hb & Ha).
      repeat split; auto.
Qed.

(** In the harbour the stop points [0] and [1] merge; the way points [2] and
    [3] stay. *)
Lemma merge_waypoints_witness :
  exists self',
    merge_stop_points all_touch plain_edge harbour_network 2 = Some self' /\
    NoDup (map clusterID (waypoints self')) /\
    exists kept merged_points,
      waypoints self' = kept ++ merged_points /\
      subseq kept (waypoints harbour_network) /\
      filter (fun w => negb (Qltb (wp_speed w) 2)) kept
      = filter (fun w => negb (Qltb (wp_speed w) 2)) (waypoints harbour_network) /\
      forall w, In w merged_points ->
        wp_cog_before w = 0%Q /\ wp_cog_after w = 0%Q /\
        exists w0, In w0 (waypoints harbour_network) /\ (wp_speed w0 < 2)%Q /\
                   clusterID w0 = clusterID w.
Proof.
  eexists. split; [vm_compute; reflexivity|].
  eapply (@merge_waypoints all_touch plain_edge harbour_network 2%Q).
  - change (NoDup (seq 0 4)). apply seq_NoDup.
  - vm_compute. reflexivity.
Defined.

(** ** The methods in sequence *)

(** X26. [prune_graph] never raises on the graph that
    [make_graph_from_waypoints] has built, whatever [min_passages]: it
    returns a pruned graph with at most one edge per ordered pair and a
    pruned table with exactly one row for each of its edges, which is what
    the loops that read the geometry of a hop rely on. *)
Theorem prune_after_make_graph {geo : Geometry}
  self trajectories max_distance max_angle self1 min_passages :
  make_graph_from_waypoints self trajectories max_distance max_angle = Some self1 ->
  exists self2 g connections,
    prune_graph self1 min_passages "original" = Some self2 /\
    G_pruned self2 = Some g /\
    waypoint_connections_pruned self2 = Some connections /\
    unique_edges g = true /\
    connections_cover g connections = true.
Proof.
  intros Hmake.
  destruct (make_graph_well_formed _ _ _ _ Hmake) as (g0 & c0 & HG & HC & Hu & Hcover).
  destruct (@prune_spec g0 c0 min_passages Hu) as (marked & _ & Hprune & _).
  destruct (@prune_well_formed g0 c0 min_passages _ _ Hu Hcover Hprune) as [Hu' Hc'].
  eexists. eexists. eexists. split.
  - rewrite (@prune_graph_selected self1 min_passages "original" g0 c0);
      [rewrite Hprune; reflexivity|auto|].
    unfold selected_snapshot. cbn. rewrite HG, HC. reflexivity.
  - cbn [G_pruned waypoint_connections_pruned]. auto.
Qed.

Lemma prune_after_make_graph_witness :
  exists self2 g connections,
    prune_graph raw_network 1 "original" = Some self2 /\
    G_pruned self2 = Some g /\
    waypoint_connections_pruned self2 = Some connections /\
    unique_edges g = true /\
    connections_cover g connections = true.
Proof.
  apply (@prune_after_make_graph flat_sea fresh_network two_trajectories 10%Q 45%Q
           raw_network 1%Z).
  reflexivity.
Defined.

Lemma filter_map_commute {A} (P : A -> bool) (f : A -> A) (l : list A) :
  (forall x, P (f x) = P x) -> filter P (map f l) = map f (filter P l).
Proof.
  intros H. induction l as [|x l IH]; simpl; [reflexivity|].
  rewrite H. destruct (P x); simpl; rewrite IH; reflexivity.
Qed.

Lemma item_geometry_map (f : connection -> connection) t e :
  (forall r, from (f r) = from r /\ to (f r) = to r) ->
  is_some (item_geometry (map f t) e) = is_some (item_geometry t e).
Proof.
  intros Hf. unfold item_geometry. rewrite filter_map_commute.
  - destruct (filter _ t) as [|r [|r' l]]; reflexivity.
  - intros r. destruct (Hf r) as [-> ->]. reflexivity.
Qed.

Lemma item_geometry_unmarked t (marks : list edge) e :
  ~ In e marks ->
  item_geometry (filter (fun r => negb (mem_edge (from r, to r) marks)) t) e
  = item_geometry t e.
Proof.
  intros Hn. unfold item_geometry. rewrite filter_filter.
  replace (filter (fun x => negb (mem_edge (from x, to x) marks)
                            && ((from x =? fst e) && (to x =? snd e))) t)
    with (filter (fun r => (from r =? fst e) && (to r =? snd e)) t); [reflexivity|].
  apply filter_ext. intros r.
  destruct ((from r =? fst e) && (to r =? snd e)) eqn:E; [|apply eq_sym, andb_false_r].
  rewrite andb_true_r. symmetry. apply negb_true_iff.
  destruct (mem_edge (from r, to r) marks) eqn:Em; [|reflexivity].
  exfalso. apply Hn. apply mem_edge_In in Em.
  apply andb_true_iff in E as [E1 E2]. apply Nat.eqb_eq in E1, E2.
  destruct e as [u v]. simpl in E1, E2. subst. exact Em.
Qed.

(** X27. [refine_graph_from_paths] keeps the snapshot well formed: from a
    base graph with at most one edge per ordered pair and a table with
    exactly one row per edge it returns a refined graph and a refined table
    with the same two properties, and [prune_graph] with
    [graph = 'refined'] then never raises. *)
Theorem prune_after_refine {geo : Geometry}
  self paths trajectories self1 g0 connections min_passages :
  G self = Some g0 ->
  unique_edges g0 = true ->
  waypoint_connections self = Some connections ->
  connections_cover g0 connections = true ->
  refine_graph_from_paths self paths trajectories = Some self1 ->
  exists g t self2,
    G_refined self1 = Some g /\
    waypoint_connections_refined self1 = Some t /\
    unique_edges g = true /\
    connections_cover g t = true /\
    prune_graph self1 min_passages "refined" = Some self2.
Proof.
  intros HG Hu HC Hcover Hr.
  destruct (refine_inversion _ _ _ HG HC Hu Hr) as (g1 & g2 & stat & Hcnt & Hsc & ->).
  cbn [G_refined waypoint_connections_refined].
  set (marks := filter (zero_weight g1) (edges g0)).
  assert (Hu2 : unique_edges g2 = true).
  { unfold unique_edges. destruct Hsc as (_ & -> & _). destruct Hcnt as (_ & -> & _).
    exact Hu. }
  assert (Hu' : unique_edges (remove_edges_from g2 marks) = true)
    by (apply unique_edges_remove_edges_from; exact Hu2).
  assert (Hc' : connections_cover (remove_edges_from g2 marks)
                  (filter (fun r => negb (mem_edge (from r, to r) marks))
                     (counted_rows g1 stat (edges g0) (reset_passages connections)))
                = true).
  { unfold connections_cover in *. rewrite forallb_forall in *. intros e He.
    apply In_edges_remove_edges_from in He as [He Hn].
    rewrite item_geometry_unmarked by exact Hn.
    unfold counted_rows, reset_passages.
    rewrite item_geometry_map, item_geometry_map.
    - apply Hcover. destruct Hsc as (_ & E2 & _). destruct Hcnt as (_ & E1 & _).
      rewrite <- E1, <- E2. exact He.
    - intros r. cbn. auto.
    - intros r. destruct (_ && _); cbn; auto. }
  destruct (@prune_spec _ (filter (fun r => negb (mem_edge (from r, to r) marks))
                             (counted_rows g1 stat (edges g0) (reset_passages connections)))
              min_passages Hu') as (marked & _ & Hprune & _).
  eexists. eexists. eexists.
  split; [reflexivity|]. split; [reflexivity|]. split; [exact Hu'|]. split; [exact Hc'|].
  unfold prune_graph.
  change (String.eqb "refined" "original") with false.
  change (String.eqb "refined" "refined") with true.
  cbv iota. cbn [G_refined waypoint_connections_refined]. rewrite Hprune. reflexivity.
Qed.

Lemma prune_after_refine_witness :
  exists g t self2 self1,
    refine_graph_from_paths (geo := flat_sea) triangle_network
      [(7, [0; 1; 2]); (7, [0; 1])] [(7, [0; 1; 2])] = Some self1 /\
    G_refined self1 = Some g /\
    waypoint_connections_refined self1 = Some t /\
    unique_edges g = true /\
    connections_cover g t = true /\
    prune_graph self1 1 "refined" = Some self2.
Proof.
  assert (H : exists self1,
             refine_graph_from_paths (geo := flat_sea) triangle_network
               [(7, [0; 1; 2]); (7, [0; 1])] [(7, [0; 1; 2])] = Some self1)
    by (eexists; vm_compute; reflexivity).
  destruct H as [self1 H].
  destruct (@prune_after_refine flat_sea triangle_network
              [(7, [0; 1; 2]); (7, [0; 1])] [(7, [0; 1; 2])] self1 triangle_graph
              triangle_connections 1%Z eq_refl eq_refl eq_refl eq_refl H)
    as (g & t & self2 & H1).
  exists g, t, self2, self1. split; [exact H|exact H1].
Defined.

(** ** Where a matched path starts *)

Lemma match_loop_appends {geo : Geometry} trajectory wps g_channel connections k_max l_max :
  forall pairs st st',
    for_each (match_step trajectory wps g_channel connections k_max l_max) pairs st
      = Some st' ->
    exists added, fst st' = fst st ++ added.
Proof.
  induction pairs as [|pr pairs IH]; intros st st'.
  - simpl. intros [= <-]. exists []. rewrite app_nil_r. reflexivity.
  - rewrite for_each_cons.
    destruct (match_step trajectory wps g_channel connections k_max l_max pr st)
      as [st1|] eqn:E; [|discriminate].
    intros H. apply IH in H as [added H]. rewrite H.
    unfold match_step in E.
    destruct (_ <? _)%Z.
    + injection E as <-. eauto.
    + destruct (best_edge_sequence _ _ _ _ _ _ _ _ _) as [found|]; [|discriminate].
      destruct (match found with Some s => Some s | None => snd st end) as [s|];
        [|discriminate].
      injection E as <-. cbn [fst]. rewrite <- app_assoc. eauto.
Qed.

Lemma match_passages_head {geo : Geometry}
  trajectory wps g_channel connections k_max l_max passages stitched :
  match_passages trajectory wps g_channel connections k_max l_max passages
    = Some stitched ->
  hd_error stitched = Some (hd 0 passages).
Proof.
  unfold match_passages.
  destruct (for_each _ (consecutive passages) _) as [st|] eqn:E; [|discriminate].
  apply match_loop_appends in E as [added E]. cbn [fst] in E.
  cbn [option_map]. intros [= <-]. rewrite E. reflexivity.
Qed.

(** X28. A path that [trajectory_to_path_sspd] returns starts at the first
    passage, for either algorithm; with the outcome [attempt] it also ends
    at the last passage and is a route of the pruned graph with the fewest
    edges between the two. *)
Theorem matched_path_starts_at_first_passage {geo : Geometry}
  self trajectory k_max l_max algorithm g connections passages ep g_channel
  path_df ev p :
  G_pruned self = Some g ->
  waypoint_connections_pruned self = Some connections ->
  reconciled g (waypoints self) trajectory = (passages, ep, g_channel) ->
  trajectory_to_path_sspd self trajectory k_max l_max algorithm = Some (path_df, ev) ->
  path ev = Some p ->
  2 <= List.length passages /\
  hd_error p = Some (hd 0 passages) /\
  (eval_message ev = attempt ->
   last p 0 = last passages 0 /\
   walk g (hd 0 passages) (last passages 0) p /\
   forall q, walk g (hd 0 passages) (last passages 0) q -> hops p <= hops q).
Proof.
  intros HG HC Hrec. unfold trajectory_to_path_sspd. rewrite HG, HC, Hrec.
  destruct (2 <=? List.length passages) eqn:Elen;
    [|unfold failure; intros [= <- <-]; discriminate].
  apply Nat.leb_le in Elen. intros H Hp. split; [exact Elen|].
  destruct (try_match _ _ _ _ _ _ _ _ _) as [[df0 ev0]|] eqn:Etry.
  - injection H as <- <-. unfold try_match in Etry.
    destruct (match_passages _ _ _ _ _ _ _) as [stitched|] eqn:Emp; [|discriminate].
    apply match_passages_head in Emp.
    destruct (if String.eqb algorithm "refined" then _ else _) as [p'|] eqn:Eref;
      [|discriminate].
    destruct (make_path_df _ _ _ p') as [df|]; [|discriminate].
    destruct (evaluate _ _ _ _ _ _) as [ev1|] eqn:Eev; [|discriminate].
    injection Etry as <- <-.
    apply evaluate_fields in Eev as [Hmsg Hpath]. rewrite Hpath in Hp.
    injection Hp as <-. split.
    + destruct (String.eqb algorithm "refined").
      * apply refine_path_endpoints in Eref as [(first & H1 & H2) _]. congruence.
      * injection Eref as <-. exact Emp.
    + rewrite Hmsg. discriminate.
  - unfold fallback in H.
    destruct (has_path g (hd 0 passages) (last passages 0));
      [|unfold failure in H; injection H as <- <-; discriminate].
    destruct (shortest_path _ _ _) as [p0|] eqn:Esp; [|discriminate].
    destruct (make_path_df _ _ _ p0) as [df|]; [|discriminate].
    destruct (evaluate _ _ _ _ _ _) as [ev1|] eqn:Eev; [|discriminate].
    injection H as <- <-.
    apply evaluate_fields in Eev as [Hmsg Hpath]. rewrite Hpath in Hp.
    injection Hp as <-.
    apply shortest_path_sound in Esp as [Hw Hmin].
    destruct (walk_head Hw) as [tl0 Etl]. split.
    + rewrite Etl. reflexivity.
    + intros _. split; [exact (walk_last Hw)|]. split; [exact Hw|exact Hmin].
Qed.

Lemma matched_path_starts_at_first_passage_witness :
  exists path_df ev p,
    trajectory_to_path_sspd (geo := flat_sea) pruned_triangle [0; 1; 2] 500 5 "refined"
      = Some (path_df, ev) /\
    path ev = Some p /\
    2 <= List.length [0; 1; 2] /\
    hd_error p = Some (hd 0 [0; 1; 2]) /\
    (eval_message ev = attempt ->
     last p 0 = last [0; 1; 2] 0 /\
     walk triangle_graph (hd 0 [0; 1; 2]) (last [0; 1; 2] 0) p /\
     forall q, walk triangle_graph (hd 0 [0; 1; 2]) (last [0; 1; 2] 0) q ->
               hops p <= hops q).
Proof.
  eexists. eexists. eexists. split; [vm_compute; reflexivity|]. split; [reflexivity|].
  eapply (@matched_path_starts_at_first_passage flat_sea pruned_triangle [0; 1; 2]
            500%Z 5%Z "refined" triangle_graph triangle_connections [0; 1; 2]).
  - reflexivity.
  - reflexivity.
  - vm_compute. reflexivity.
  - vm_compute. reflexivity.
  - reflexivity.
Defined.
